(** * Chemyx syringe-pump controller: the parameter cache and the step interpreter

    A shallow embedding of [CachedConnection] and [StepExecutor] from
    [my_chemyx_gui.py], with the properties the specification states about
    them.

    Python floats are IEEE binary64 numbers, hence Rocq's primitive floats;
    Python ints are [Z].  Dictionaries with string keys are [gmap string _].
    Effects (hardware calls, log lines, sleeps, Qt signals, exceptions) are
    threaded through a small state-and-exception monad whose state carries the
    chronological trace of what happened.  The worker thread that runs
    [execute_steps] is the thread modelled; what the GUI thread does to a
    running executor ([stop], [pause], [resume]) arrives between two
    evaluations of the condition of its loop. *)

From Stdlib Require Import ZArith String List Floats.
From stdpp Require Import base option list strings gmap pretty.

#[local] Set Warnings "-register-all,-inexact-float,-clear-no-such-hyp".

Local Open Scope Z_scope.
Local Open Scope string_scope.
Local Open Scope list_scope.

(** ** Python values *)

(** The values that travel as arguments to connection methods.  No caller
    passes a dictionary, and none is modelled. *)
Inductive pyval : Type :=
| PyNone
| PyInt (z : Z)
| PyFloat (f : float)
| PyStr (s : string)
| PyTuple (items : list pyval)
| PyList (items : list pyval).

(** A step parameter: [params] maps a name to a number, an [int] when it comes
    from a [QSpinBox], a [float] when it comes from a [QDoubleSpinBox]. *)
Inductive number : Type :=
| Int (z : Z)
| Float (f : float).

Definition to_pyval (n : number) : pyval :=
  match n with Int z => PyInt z | Float f => PyFloat f end.

(** *** Exact numeric values

    Python compares an [int] with a [float], and two floats, by their exact
    numeric value.  A finite non-zero value is kept as [m * 2^e] with [m]
    odd, so that equal values have equal representations. *)
Inductive exact : Type :=
| XNaN
| XInf (negative : bool)
| XZero
| XFin (negative : bool) (m : positive) (e : Z).

Fixpoint odd_part (m : positive) (e : Z) : positive * Z :=
  match m with
  | xO q => odd_part q (e + 1)
  | _ => (m, e)
  end.

Definition exact_fin (negative : bool) (m : positive) (e : Z) : exact :=
  let '(m', e') := odd_part m e in XFin negative m' e'.

Definition exact_of_Z (z : Z) : exact :=
  match z with
  | Z0 => XZero
  | Zpos p => exact_fin false p 0
  | Zneg p => exact_fin true p 0
  end.

Definition exact_of_float (f : float) : exact :=
  match Prim2SF f with
  | S754_zero _ => XZero
  | S754_infinity s => XInf s
  | S754_nan => XNaN
  | S754_finite s m e => exact_fin s m e
  end.

Definition exact_eqb (x y : exact) : bool :=
  match x, y with
  | XInf s, XInf t => Bool.eqb s t
  | XZero, XZero => true
  | XFin s m e, XFin t n k => Bool.eqb s t && (m =? n)%positive && (e =? k)%Z
  | _, _ => false
  end.

(** Python's [==] on the modelled values: numbers by exact value (so
    [1 == 1.0], [0.0 == -0.0] and [nan != nan]), strings by content, tuples
    and lists item by item, and nothing equal across other types.

    Item by item, Python takes an item that is the same object on both sides
    for equal before it asks [==].  That changes the answer for a NaN only,
    and the values here carry no identity: two NaN stand for two objects.
    What is stated about hits and misses of the cache for arguments that may
    be one object passed twice is stated for arguments without NaN
    ([no_nan]). *)
Fixpoint py_eq (a b : pyval) : bool :=
  let fix all_eq (l1 l2 : list pyval) : bool :=
    match l1, l2 with
    | [], [] => true
    | x :: xs, y :: ys => py_eq x y && all_eq xs ys
    | _, _ => false
    end in
  match a, b with
  | PyNone, PyNone => true
  | PyInt x, PyInt y => exact_eqb (exact_of_Z x) (exact_of_Z y)
  | PyInt x, PyFloat g => exact_eqb (exact_of_Z x) (exact_of_float g)
  | PyFloat f, PyInt y => exact_eqb (exact_of_float f) (exact_of_Z y)
  | PyFloat f, PyFloat g => exact_eqb (exact_of_float f) (exact_of_float g)
  | PyStr s, PyStr t => String.eqb s t
  | PyTuple l1, PyTuple l2 => all_eq l1 l2
  | PyList l1, PyList l2 => all_eq l1 l2
  | _, _ => false
  end.


(** Item-by-item equality of two sequences, as [py_eq] does it inside. *)
Fixpoint all_eq (l1 l2 : list pyval) : bool :=
  match l1, l2 with
  | [], [] => true
  | x :: xs, y :: ys => py_eq x y && all_eq xs ys
  | _, _ => false
  end.

(** ** Exceptions and the conversions that raise them *)

Inductive exn_class : Type :=
| NameError | ValueError | OverflowError | TypeError | AttributeError
| ZeroDivisionError | KeyError
| VendorError.  (* whatever the vendor library raises *)

(** An exception, with the text [str(e)] gives. *)
Record exn : Type := Exn { exn_type : exn_class; exn_str : string }.

Inductive outcome (A : Type) : Type :=
| Returned (a : A)
| Raised (e : exn).
Arguments Returned {A} a.
Arguments Raised {A} e.

(** [float(x)]: an int is rounded to the nearest double (ties to even) and is
    refused when too large for one. *)
Definition py_float (x : number) : outcome float :=
  match x with
  | Float f => Returned f
  | Int z =>
      match binary_normalize prec emax z 0 false with
      | S754_infinity _ =>
          Raised (Exn OverflowError "int too large to convert to float")
      | sf => Returned (SF2Prim sf)
      end
  end.

(** [int(x)]: a float is truncated toward zero. *)
Definition py_int (x : number) : outcome Z :=
  match x with
  | Int z => Returned z
  | Float f =>
      match Prim2SF f with
      | S754_nan => Raised (Exn ValueError "cannot convert float NaN to integer")
      | S754_infinity _ =>
          Raised (Exn OverflowError "cannot convert float infinity to integer")
      | S754_zero _ => Returned 0
      | S754_finite s m e =>
          let magnitude := if (0 <=? e)%Z then Z.shiftl (Zpos m) e
                           else Z.shiftr (Zpos m) (- e) in
          Returned (if s then - magnitude else magnitude)
      end
  end.


(** [x < 0] on a number of either kind. *)
Definition lt_zero (x : number) : bool :=
  match x with
  | Int z => (z <? 0)%Z
  | Float f => (f <? 0)%float
  end.

(** ** The trace of observable effects *)

Definition kwargs : Type := list (string * pyval).

Inductive event : Type :=
| HardwareCall (name : string) (args : list pyval) (kw : kwargs)
    (* a method of the vendor connection was entered *)
| CacheHit (name : string) (args : list pyval)      (* logger.debug *)
| CacheMiss (name : string) (args : list pyval)     (* logger.debug *)
| CacheReset                                        (* logger.debug *)
| JogError (msg : string)                           (* logger.error *)
| Sleep (seconds : float)                           (* time.sleep returned *)
| step_changed (index : nat)                        (* Qt signals *)
| execution_finished
| error_occurred (msg : string).

(** ** The vendor connection

    [python_dist.CHEMYX_python.core.connect.Connection] is not part of the
    repository: its attributes and the behaviour of its methods are
    parameters.  Which attributes exist is fixed by the class; [multipump h]
    says that the attribute exists and is truthy. *)

Inductive attr_kind : Type :=
| Method
| Data (type_of : string).

Class Connection (H : Type) : Type := {
  type_name : string;
  attribute : string -> option attr_kind;
  multipump : H -> bool;
  currentPump : H -> option Z;
  invoke : string -> list pyval -> kwargs -> H -> H * outcome pyval
}.
Arguments type_name H {_}.
Arguments attribute H {_} name.

(** ** CachedConnection *)

Record CachedConnection (H : Type) : Type := {
  connection : H;
  cache : gmap string pyval
}.
Arguments connection {H} _.
Arguments cache {H} _.

Definition cacheable_methods : gset string :=
  {[ "setUnits"; "setDiameter"; "setVolume"; "setMode"; "setRate";
     "setDelay"; "setTime"; "setPump" ]}.

(** The state the worker thread acts on: the wrapped connection and the
    trace so far, oldest event first. *)
Record world (H : Type) : Type := {
  conn : CachedConnection H;
  trace : list event
}.
Arguments conn {H} _.
Arguments trace {H} _.

Definition M (H A : Type) : Type := world H -> world H * outcome A.

Definition raise {H A} (e : exn) : M H A := fun w => (w, Raised e).

#[global] Instance M_ret {H} : MRet (M H) := fun A a w => (w, Returned a).
#[global] Instance M_bind {H} : MBind (M H) := fun A B k m w =>
  match m w with
  | (w', Returned a) => k a w'
  | (w', Raised e) => (w', Raised e)
  end.

(** [try: m  except Exception as e: h e] *)
Definition try_except {H A} (m : M H A) (h : exn -> M H A) : M H A :=
  fun w => match m w with
           | (w', Returned a) => (w', Returned a)
           | (w', Raised e) => h e w'
           end.

(** A pure computation that may raise. *)
Definition lift {H A} (o : outcome A) : M H A := fun w => (w, o).

(** One more event on the trace. *)
Definition emit {H} (ev : event) : M H unit :=
  fun w => ({| conn := conn w; trace := trace w ++ [ev] |}, Returned tt).

(** [sorted(...)] of the keyword items: keys are distinct strings, so the
    order is the order of the keys. *)
Fixpoint insert_item (kv : string * pyval) (l : kwargs) : kwargs :=
  match l with
  | [] => [kv]
  | kv' :: l' =>
      if String.leb (fst kv) (fst kv') then kv :: l else kv' :: insert_item kv l'
  end.

Definition sorted (l : kwargs) : kwargs := foldr insert_item [] l.

Definition make_hashable (item : pyval) : pyval :=
  match item with
  | PyList items => PyTuple items
  | _ => item
  end.

Definition _make_param_value (args : list pyval) (kw : kwargs) : pyval :=
  let hashable_args := PyTuple (map make_hashable args) in
  let hashable_kwargs :=
    PyTuple (map (fun kv => PyTuple [PyStr (fst kv); make_hashable (snd kv)])
                 (sorted kw)) in
  PyTuple [hashable_args; hashable_kwargs].

Section CachedConnection.
Context {H : Type} `{Connection H}.

Definition reset_cache : M H unit :=
  fun w => ({| conn := {| connection := connection (conn w); cache := ∅ |};
               trace := trace w ++ [CacheReset] |}, Returned tt).

Definition _make_cache_key (c : CachedConnection H) (method_name : string) : string :=
  if multipump (connection c)
  then method_name ++ "_pump_" ++ pretty (default 1%Z (currentPump (connection c)))
  else method_name.

(** The underlying method is entered: the call is put on the trace and the
    vendor code runs on the connection. *)
Definition original_method (name : string) (args : list pyval) (kw : kwargs)
  : M H pyval :=
  fun w =>
    let '(h', r) := invoke name args kw (connection (conn w)) in
    ({| conn := {| connection := h'; cache := cache (conn w) |};
        trace := trace w ++ [HardwareCall name args kw] |}, r).

(** [self.cache[cache_key] = param_value] *)
Definition store (cache_key : string) (param_value : pyval) : M H unit :=
  fun w => ({| conn := {| connection := connection (conn w);
                          cache := <[cache_key := param_value]> (cache (conn w)) |};
               trace := trace w |}, Returned tt).

Definition cached_method (name : string) (args : list pyval) (kw : kwargs)
  : M H pyval :=
  fun w =>
    let cache_key := _make_cache_key (conn w) name in
    let param_value := _make_param_value args kw in
    let hit := match cache (conn w) !! cache_key with
               | Some v => py_eq v param_value
               | None => false
               end in
    if hit then
      (emit (CacheHit name args);; mret PyNone) w
    else
      (emit (CacheMiss name args);;
       result ← original_method name args kw;
       store cache_key param_value;;
       mret result) w.

(** What looking an attribute up on the wrapper gives. *)
Inductive attribute_value : Type :=
| a_cached_method (name : string)
| a_original_method (name : string)
| a_original_data (type_of : string).

Definition __getattr__ (name : string) : M H attribute_value :=
  match attribute H name with
  | None =>
      raise (Exn AttributeError
               ("'" ++ type_name H ++ "' object has no attribute '" ++ name ++ "'"))
  | Some Method =>
      if bool_decide (name ∈ cacheable_methods)
      then mret (a_cached_method name)
      else mret (a_original_method name)
  | Some (Data ty) => mret (a_original_data ty)
  end.

Definition call (a : attribute_value) (args : list pyval) (kw : kwargs)
  : M H pyval :=
  match a with
  | a_cached_method name => cached_method name args kw
  | a_original_method name => original_method name args kw
  | a_original_data ty =>
      raise (Exn TypeError ("'" ++ ty ++ "' object is not callable"))
  end.

(** A call [connection.name(args, kw)] on the wrapper, for a [name] that is
    not an attribute of the wrapper itself: the attribute is looked up, then
    called.  [__getattribute__] hands the lookup of a name the pump has to
    [__getattr__]; for any other name it finds nothing on the wrapper, and
    Python falls back on [__getattr__], which raises.  The names the wrapper
    serves itself ([connection], [cache], [cacheable_methods], [reset_cache],
    [_make_cache_key], [_make_param_value]) do not take this way: of them
    the program calls [reset_cache], which is [reset_cache] above. *)
Definition attr_call (name : string) (args : list pyval) (kw : kwargs)
  : M H pyval :=
  a ← __getattr__ name; call a args kw.

(** A call [self.connection.name(args)] as the executor writes it. *)
Definition call_method (name : string) (args : list pyval) : M H pyval :=
  attr_call name args [].

(** [hasattr(self.connection, name)] on the wrapper. *)
Definition hasattr (name : string) : bool :=
  bool_decide (name ∈ ["connection"; "cache"; "cacheable_methods"; "reset_cache";
                       "_make_cache_key"; "_make_param_value"])
  || bool_decide (is_Some (attribute H name)).

End CachedConnection.
Arguments hasattr H {_} name.

(** ** StepExecutor *)

Record Step : Type := {
  function : string;
  params : gmap string number
}.

(** A step as [json.load] can give it: a dict in which either entry may be
    missing.  A [Step] is such a dict with both entries, which is what
    [add_step] builds; other keys, and entries of other types, are not
    modelled. *)
Record step_dict : Type := {
  entry_function : option string;
  entry_params : option (gmap string number)
}.

Definition dict_of (step : Step) : step_dict :=
  {| entry_function := Some (function step); entry_params := Some (params step) |}.

Record LoopFrame : Type := {
  start_index : nat;
  iterations : Z;
  current_iteration : Z
}.

(** Of the configuration only [config['diameter']] is read here; the GUI
    always holds a value for it. *)
Record Config : Type := { diameter : number }.

(** The number of nanoseconds of a duration fits the clock of CPython, a
    signed 64-bit count: it is at least [-2^63] and below [2^63].  Rounding
    the number to an integer does not change that. *)
Definition fits_clock (d : float) : bool :=
  let ns := (d * 1000000000)%float in
  ((-9223372036854775808 <=? ns) && (ns <? 9223372036854775808))%float.

(** [time.sleep(d)] as CPython has it: the duration is converted to
    nanoseconds, which refuses a NaN and a number that does not fit the
    clock, and then must not be negative; the sleep itself is an event. *)
Definition time_sleep {H} (d : float) : M H unit :=
  if is_nan d then
    raise (Exn ValueError "Invalid value NaN (not a number)")
  else if negb (fits_clock d) then
    raise (Exn OverflowError "timestamp too large to convert to C _PyTime_t")
  else if (d <? 0)%float then
    raise (Exn ValueError "sleep length must be non-negative")
  else emit (Sleep d).

(** [a / b] on floats. *)
Definition py_div (a b : float) : outcome float :=
  if (b =? 0)%float then Raised (Exn ZeroDivisionError "float division by zero")
  else Returned (a / b)%float.

Section StepExecutor.
Context {H : Type} `{Connection H}.

(** The executor object.  [loop_stack] is kept with its last element (the
    innermost loop, [loop_stack[-1]]) at the head.  The connection, always
    the caching wrapper that [toggle_connection] builds, is the one object
    shared with the GUI; it lives in [shared], with the trace. *)
Record StepExecutor : Type := {
  steps : list Step;
  config : Config;
  current_step : nat;
  loop_stack : list LoopFrame;
  stop_event : bool;
  pause_event : bool;
  shared : world H
}.

(** [StepExecutor(steps, connection, config)] *)
Definition new_executor (steps : list Step) (w : world H) (config : Config)
  : StepExecutor :=
  {| steps := steps; config := config; current_step := 0; loop_stack := [];
     stop_event := false; pause_event := false; shared := w |}.

(** The name [actual_volume] is bound nowhere, neither in the function nor
    in the module: reading it raises. *)
Definition actual_volume : M H float :=
  raise (Exn NameError "name 'actual_volume' is not defined").

Definition _execute_pump_operation (cfg : Config) (volume : number) (rate : float)
    (wait_for_completion : bool) : M H unit :=
  call_method "setUnits" [PyStr "mL/min"];;
  call_method "setDiameter" [to_pyval (diameter cfg)];;
  (if lt_zero volume
   then call_method "setMode" [PyInt 1]      (* infuse *)
   else call_method "setMode" [PyInt 0]);;   (* withdraw *)
  setVolume ← __getattr__ "setVolume";
  v ← actual_volume;
  call setVolume [PyFloat v] [];;
  call_method "setRate" [PyFloat (abs rate)];;
  call_method "startPump" [];;
  if wait_for_completion then
    v ← actual_volume;
    if (0 <? v)%float then
      q ← lift (py_div v (abs rate));
      let wait_time := (q * 60)%float in
      time_sleep (wait_time + 1)%float
    else mret tt
  else mret tt.

Definition _pump_volume (cfg : Config) (volume rate : float) : M H unit :=
  _execute_pump_operation cfg (Float volume) rate true.

(** The volume [_pump_time] derives from a duration and a rate. *)
Definition derived_volume (duration rate : float) : float :=
  let volume := (abs rate * duration / 60)%float in
  if (rate <? 0)%float then (- volume)%float else volume.

Definition _pump_time (cfg : Config) (duration rate : float) : M H unit :=
  _execute_pump_operation cfg (Float (derived_volume duration rate)) (abs rate) false;;
  time_sleep (duration + 1)%float.

Definition _wait (duration : float) : M H unit := time_sleep duration.

(** [params.get(key, dflt)] *)
Definition get (ps : gmap string number) (key : string) (dflt : number) : number :=
  default dflt (ps !! key).

(** The body of the [try] in [execute_single_step]; it returns the new
    [current_step] and [loop_stack]. *)
Definition dispatch (ex : StepExecutor) (step : Step)
  : M H (nat * list LoopFrame) :=
  let unchanged := (current_step ex, loop_stack ex) in
  if (function step =? "pump_volume")%string then
    volume ← lift (py_float (get (params step) "volume" (Int 0)));
    rate ← lift (py_float (get (params step) "rate" (Int 1)));
    _pump_volume (config ex) volume rate;;
    mret unchanged
  else if (function step =? "pump_time")%string then
    duration ← lift (py_float (get (params step) "time" (Int 1)));
    rate ← lift (py_float (get (params step) "rate" (Int 1)));
    _pump_time (config ex) duration rate;;
    mret unchanged
  else if (function step =? "wait")%string then
    duration ← lift (py_float (get (params step) "time" (Int 1)));
    _wait duration;;
    mret unchanged
  else if (function step =? "start_loop")%string then
    n ← lift (py_int (get (params step) "iterations" (Int 1)));
    mret (current_step ex,
          {| start_index := current_step ex; iterations := n;
             current_iteration := 0 |} :: loop_stack ex)
  else if (function step =? "end_loop")%string then
    match loop_stack ex with
    | [] => mret unchanged
    | loop :: below =>
        let loop' := {| start_index := start_index loop;
                        iterations := iterations loop;
                        current_iteration := current_iteration loop + 1 |} in
        if (current_iteration loop' <? iterations loop')%Z
        then mret (start_index loop', loop' :: below)
        else mret (current_step ex, below)
    end
  else mret unchanged.

Definition with_shared (ex : StepExecutor) (w : world H) : StepExecutor :=
  {| steps := steps ex; config := config ex; current_step := current_step ex;
     loop_stack := loop_stack ex; stop_event := stop_event ex;
     pause_event := pause_event ex; shared := w |}.

Definition with_position (ex : StepExecutor) (cs : nat) (ls : list LoopFrame)
  : StepExecutor :=
  {| steps := steps ex; config := config ex; current_step := cs;
     loop_stack := ls; stop_event := stop_event ex;
     pause_event := pause_event ex; shared := shared ex |}.

Definition with_events (ex : StepExecutor) (stop_ pause_ : bool) : StepExecutor :=
  {| steps := steps ex; config := config ex; current_step := current_step ex;
     loop_stack := loop_stack ex; stop_event := stop_;
     pause_event := pause_; shared := shared ex |}.

(** A signal emitted by the executor. *)
Definition signal (ev : event) (ex : StepExecutor) : StepExecutor :=
  with_shared ex (fst (emit ev (shared ex))).

(** The text of the error signal of a step. *)
Definition step_error (ex : StepExecutor) (e : exn) : string :=
  "Step " ++ pretty (current_step ex + 1)%nat ++ ": " ++ exn_str e.

(** [execute_single_step] on a step that has its two entries: the reads
    [step['function']] and [step['params']] that come before the [try] give
    the fields of [step], and what follows is the [try] with its handler.
    [execute_single_step_dict] below is the method on a step that may lack
    an entry. *)
Definition execute_single_step (ex : StepExecutor) (step : Step)
  : StepExecutor * bool :=
  match dispatch ex step (shared ex) with
  | (w, Returned (cs, ls)) => (with_position (with_shared ex w) cs ls, true)
  | (w, Raised e) =>
      (signal (error_occurred (step_error ex e)) (with_shared ex w), false)
  end.

(** [step[key]] on a step dict: a missing key is a [KeyError], whose text
    is the key in quotes. *)
Definition subscript {A} (entry : option A) (key : string) : outcome A :=
  match entry with
  | Some a => Returned a
  | None => Raised (Exn KeyError ("'" ++ key ++ "'"))
  end.

(** [execute_single_step] on a step as the list of steps can hold it once a
    program was read from a file: the two entries are read before the
    [try], so that a missing one raises out of the method, with no signal
    and no result. *)
Definition execute_single_step_dict (ex : StepExecutor) (step : step_dict)
  : StepExecutor * outcome bool :=
  match subscript (entry_function step) "function" with
  | Raised e => (ex, Raised e)
  | Returned function =>
      match subscript (entry_params step) "params" with
      | Raised e => (ex, Raised e)
      | Returned params =>
          let '(ex', ok) :=
            execute_single_step ex {| function := function; params := params |} in
          (ex', Returned ok)
      end
  end.

Definition _initialize_pump_state (cfg : Config) : M H unit :=
  (if hasattr H "reset_cache" then reset_cache else mret tt);;
  call_method "setUnits" [PyStr "mL/min"];;
  call_method "setDiameter" [to_pyval (diameter cfg)];;
  mret tt.

(** The methods the GUI thread calls on a running executor.  An exception
    of the hardware call belongs to the calling thread and is dropped
    here. *)
Definition stop (ex : StepExecutor) : StepExecutor :=
  let ex := with_events ex true (pause_event ex) in
  if hasattr H "stopPump"
  then with_shared ex (fst (call_method "stopPump" [] (shared ex)))
  else ex.

Definition pause (ex : StepExecutor) : StepExecutor :=
  let ex := with_events ex (stop_event ex) true in
  if hasattr H "pausePump"
  then with_shared ex (fst (call_method "pausePump" [] (shared ex)))
  else ex.

Definition resume (ex : StepExecutor) : StepExecutor :=
  with_events ex (stop_event ex) false.

Inductive gui_call : Type := call_stop | call_pause | call_resume.

Definition gui (ex : StepExecutor) (c : gui_call) : StepExecutor :=
  match c with
  | call_stop => stop ex
  | call_pause => pause ex
  | call_resume => resume ex
  end.

(** One evaluation of the condition of the [while] loop of [execute_steps],
    with the loop body when the condition holds.  [calls] are the calls the
    GUI thread has made on the executor since the previous evaluation.  The
    outcome is [inl] when the loop is left and [inr] when it goes on.  A set
    pause flag makes [wait()] return at once, so a paused executor comes back
    to the condition. *)
Definition iteration (calls : list gui_call) (ex : StepExecutor)
  : StepExecutor + StepExecutor :=
  let ex := foldl gui ex calls in
  if (current_step ex <? length (steps ex))%nat && negb (stop_event ex) then
    if pause_event ex then inr ex
    else
      match steps ex !! current_step ex with
      | None => inl ex
      | Some step =>
          let ex := signal (step_changed (current_step ex)) ex in
          match execute_single_step ex step with
          | (ex', false) => inl ex'
          | (ex', true) =>
              inr (with_position ex' (current_step ex' + 1)%nat (loop_stack ex'))
          end
      end
  else inl ex.

(** The loop, for at most [fuel] evaluations of its condition, the next one
    being the [n]-th; [calls n] are the GUI calls that precede the [n]-th. *)
Fixpoint run (fuel : nat) (calls : nat -> list gui_call) (n : nat)
    (ex : StepExecutor) : option StepExecutor :=
  match fuel with
  | O => None
  | S fuel' =>
      match iteration (calls n) ex with
      | inl ex' => Some ex'
      | inr ex' => run fuel' calls (S n) ex'
      end
  end.

Definition execute_steps (fuel : nat) (calls : nat -> list gui_call)
    (ex : StepExecutor) : option StepExecutor :=
  match _initialize_pump_state (config ex) (shared ex) with
  | (w, Raised e) =>
      Some (signal execution_finished
              (signal (error_occurred (exn_str e)) (with_shared ex w)))
  | (w, Returned _) =>
      signal execution_finished <$>
        run fuel calls 0 (with_position (with_shared ex w) 0 (loop_stack ex))
  end.

(** [MyChemyxGUI.start_jog] on a connected GUI, [rate] being the value of
    the jog-rate spin box. *)
Definition start_jog (cfg : Config) (fill_direction : bool) (rate : float)
  : M H unit :=
  try_except
    (let volume := if fill_direction then Int (-50) else Int 50 in
     (* a temporary executor: StepExecutor([], connection, config) *)
     _execute_pump_operation cfg volume rate false)
    (fun e => emit (JogError ("Jog error: " ++ exn_str e))).

End StepExecutor.
Arguments StepExecutor H : clear implicits.

(** ** Vocabulary of the statements *)

(** The Qt signals among the events. *)
Definition is_signal (ev : event) : bool :=
  match ev with
  | step_changed _ | execution_finished | error_occurred _ => true
  | _ => false
  end.

Definition signals (evs : list event) : list event :=
  filter (fun ev => is_signal ev = true) evs.

(** The indices announced by the [step_changed] signals, in order. *)
Definition indices (evs : list event) : list nat :=
  omap (fun ev => match ev with step_changed i => Some i | _ => None end) evs.

(** The signals one turn of the loop adds at step [i]: none, or the
    [step_changed] of the step, followed by the error signal when the step
    failed and the loop is left. *)
Definition turn_signals (i : nat) (leaves : bool) (sg : list event) : Prop :=
  sg = [] \/
  (leaves = false /\ sg = [step_changed i]) \/
  (leaves = true /\ exists msg, sg = [step_changed i; error_occurred msg]).

(** A run during which the GUI thread calls nothing on the executor. *)
Definition no_calls : nat -> list gui_call := fun _ => [].

(** *** Programs by their loop structure

    A program whose loops are well nested, as a list of items: a step that is
    no loop marker, or a loop with the parameters of its [start_loop] and
    [end_loop] steps around a body. *)
Inductive item : Type :=
| Plain (s : Step)
| Loop (head : gmap string number) (body : list item) (tail : gmap string number).

Fixpoint flatten_item (it : item) : list Step :=
  match it with
  | Plain s => [s]
  | Loop head body tail =>
      {| function := "start_loop"; params := head |}
        :: (fix flatten_items (l : list item) : list Step :=
              match l with
              | [] => []
              | x :: xs => flatten_item x ++ flatten_items xs
              end) body
        ++ [{| function := "end_loop"; params := tail |}]
  end.

Fixpoint flatten (l : list item) : list Step :=
  match l with
  | [] => []
  | x :: xs => flatten_item x ++ flatten xs
  end.

(** The number of passes a loop makes over its body: [end_loop] counts a
    pass, then compares the count with the target. *)
Definition passes (n : Z) : nat := Z.to_nat (Z.max 1 n).

Definition iterations_of (head : gmap string number) : Z :=
  match py_int (get head "iterations" (Int 1)) with
  | Returned n => n
  | Raised _ => 1
  end.

(** The indices of the steps in the order a run goes through them, for the
    items laid out from index [off] on. *)
Fixpoint unroll_item (off : nat) (it : item) : list nat :=
  match it with
  | Plain s => [off]
  | Loop head body tail =>
      let one_pass :=
        (fix unroll_items (off : nat) (l : list item) : list nat :=
           match l with
           | [] => []
           | x :: xs =>
               unroll_item off x ++ unroll_items (off + length (flatten_item x))%nat xs
           end) (S off) body
        ++ [(S off + length (flatten body))%nat] in
      off :: concat (replicate (passes (iterations_of head)) one_pass)
  end.

Fixpoint unroll (off : nat) (l : list item) : list nat :=
  match l with
  | [] => []
  | x :: xs => unroll_item off x ++ unroll (off + length (flatten_item x))%nat xs
  end.

(** The durations [time.sleep] accepts. *)
Definition sleepable (d : float) : bool :=
  negb (is_nan d) && fits_clock d && negb (d <? 0)%float.

(** How often step [i] occurs among the visited steps. *)
Definition visits (i : nat) (visited : list nat) : nat :=
  count_occ Nat.eq_dec visited i.

Section Clean.
Context {H : Type} `{Connection H}.

(** A step that returns in every state of the executor and leaves the
    position and the loop stack as they are. *)
Definition completes (s : Step) : Prop :=
  forall ex : StepExecutor H, exists w,
    dispatch ex s (shared ex) = (w, Returned (current_step ex, loop_stack ex)).

(** Items all of whose steps return: the plain steps complete, and the
    iteration count of every loop converts to an int. *)
Inductive clean : item -> Prop :=
| clean_plain (s : Step) : completes s -> clean (Plain s)
| clean_loop (head : gmap string number) (body : list item)
    (tail : gmap string number) (n : Z) :
    py_int (get head "iterations" (Int 1)) = Returned n ->
    Forall clean body -> clean (Loop head body tail).
End Clean.

(** *** A bound on the length of a run

    [cost l] bounds the turns of the loop spent on the steps [l] that lie
    ahead: one per step, and for a [start_loop] the passes of its loop over
    what follows it.  A frame on the stack adds the cost of the rewinds it
    may still cause. *)
Definition loop_cost (st : Step) (rest : nat) : nat :=
  if (function st =? "start_loop")%string
  then match py_int (get (params st) "iterations" (Int 1)) with
       | Returned n => (passes n * rest)%nat
       | Raised _ => 0%nat
       end
  else 0%nat.

Fixpoint cost (l : list Step) : nat :=
  match l with
  | [] => 0%nat
  | st :: rest => S (loop_cost st (cost rest) + cost rest)
  end.

(** Where a step that returns leaves the executor: the position (before the
    loop advances it by one) and the loop stack. *)
Definition next_position (pc : nat) (stack : list LoopFrame) (st : Step)
  : nat * list LoopFrame :=
  if (function st =? "start_loop")%string then
    (pc, {| start_index := pc; iterations := iterations_of (params st);
            current_iteration := 0 |} :: stack)
  else if (function st =? "end_loop")%string then
    match stack with
    | [] => (pc, stack)
    | f :: below =>
        if (current_iteration f + 1 <? iterations f)%Z
        then (start_index f,
              {| start_index := start_index f; iterations := iterations f;
                 current_iteration := current_iteration f + 1 |} :: below)
        else (pc, below)
    end
  else (pc, stack).

(** How many more times the frame [f] can send the loop back. *)
Definition rewinds_left (f : LoopFrame) : nat :=
  Z.to_nat (iterations f - current_iteration f - 1).

Definition frames_cost (all : list Step) (stack : list LoopFrame) : nat :=
  foldr (fun f acc => (rewinds_left f * cost (drop (S (start_index f)) all) + acc)%nat)
        0%nat stack.

Section Progress.
Context {H : Type} `{Connection H}.

(** A bound on the turns the loop of [ex] still makes when it is not paused. *)
Definition turns_left (ex : StepExecutor H) : nat :=
  (cost (drop (current_step ex) (steps ex)) + frames_cost (steps ex) (loop_stack ex))%nat.

(** Neither stopped nor paused. *)
Definition running (ex : StepExecutor H) : Prop :=
  stop_event ex = false /\ pause_event ex = false.

(** With no call from the GUI, the loop started in [ex] is in [ex'] after
    [k] evaluations of its condition. *)
Definition advances (k : nat) (ex ex' : StepExecutor H) : Prop :=
  forall fuel, run (k + fuel) no_calls 0 ex = run fuel no_calls 0 ex'.

(** The loop started in [ex] comes to [ex'] after announcing the steps
    [visited], one per evaluation of its condition, and emitting no other
    signal: it is then at step [cs] with the loop stack [ls], and the rest is
    as in [ex]. *)
Definition arrives (ex ex' : StepExecutor H) (cs : nat)
    (ls : list LoopFrame) (visited : list nat) : Prop :=
  advances (length visited) ex ex' /\
  steps ex' = steps ex /\ config ex' = config ex /\ running ex' /\
  current_step ex' = cs /\ loop_stack ex' = ls /\
  signals (trace (shared ex')) =
    signals (trace (shared ex)) ++ map step_changed visited.
End Progress.

(** *** The arguments of two calls

    What the cache takes for the same arguments, said of the arguments
    themselves: as many positional arguments, alike one by one, and the same
    keywords with alike values.  Two values are alike when they are equal by
    [==], a list counting as the tuple of its items. *)
Definition alike (a b : pyval) : bool := py_eq (make_hashable a) (make_hashable b).

Fixpoint all_alike (l1 l2 : list pyval) : bool :=
  match l1, l2 with
  | [], [] => true
  | x :: xs, y :: ys => alike x y && all_alike xs ys
  | _, _ => false
  end.

(** The keyword arguments of a call are a dict: no name comes twice. *)
Definition keywords (kw : kwargs) : gmap string pyval := list_to_map kw.

Definition same_keywords (kw1 kw2 : kwargs) : bool :=
  (length kw1 =? length kw2)%nat &&
  forallb (fun kv => match keywords kw2 !! fst kv with
                     | Some v => alike (snd kv) v
                     | None => false
                     end) kw1.

Definition same_arguments (args1 : list pyval) (kw1 : kwargs)
    (args2 : list pyval) (kw2 : kwargs) : bool :=
  all_alike args1 args2 && same_keywords kw1 kw2.

(** No argument is a NaN or holds one: each is equal to itself. *)
Definition no_nan (args : list pyval) (kw : kwargs) : bool :=
  forallb (fun v => py_eq v v) args && forallb (fun kv => py_eq (snd kv) (snd kv)) kw.

(** The method an event of the connection is about. *)
Definition method_of (ev : event) : option string :=
  match ev with
  | HardwareCall name _ _ | CacheHit name _ | CacheMiss name _ => Some name
  | _ => None
  end.

(** Every event is an event of one of the methods [names]. *)
Definition only_methods (names : list string) (evs : list event) : Prop :=
  Forall (fun ev => exists name, method_of ev = Some name /\ name ∈ names) evs.

(** The three parameter-setting methods the pump operation gets to call. *)
Definition setters : list string := ["setUnits"; "setDiameter"; "setMode"].

(** The events of one call [name(args)] to a cacheable method: a logged hit,
    or a logged miss followed by the underlying call. *)
Definition logged (name : string) (args : list pyval) (evs : list event) : Prop :=
  evs = [CacheHit name args] \/
  evs = [CacheMiss name args; HardwareCall name args []].

(** The underlying method [name] is not entered in [evs]. *)
Definition not_entered (name : string) (evs : list event) : Prop :=
  forall args kw, HardwareCall name args kw ∉ evs.

(** What the trace shows of a pump operation that did not get to the pump:
    events of the three setters only, and so none of the methods that load
    the volume and the rate and start the motion. *)
Definition stops_short (evs : list event) : Prop :=
  only_methods setters evs /\
  not_entered "setVolume" evs /\ not_entered "setRate" evs /\
  not_entered "startPump" evs.

(** [m] adds to the trace only events that satisfy [P]. *)
Definition emits {H A} (P : event -> Prop) (m : M H A) : Prop :=
  forall w w' r, m w = (w', r) ->
    exists evs, trace w' = trace w ++ evs /\ Forall P evs.

(** [m] raises in every state. *)
Definition fails {H A} (m : M H A) : Prop :=
  forall w, exists w' e, m w = (w', Raised e).

Section Assumptions.
Context {H : Type} `{Connection H}.

(** The connection has the methods [names]. *)
Definition exposes (names : list string) : Prop :=
  forall name, name ∈ names -> attribute H name = Some Method.

(** The methods [names] of the connection return, whatever the arguments
    and the state of the hardware. *)
Definition always_return (names : list string) : Prop :=
  forall name args kw h, name ∈ names ->
    exists h' v, invoke name args kw h = (h', Returned v).
End Assumptions.
Arguments exposes H {_} names.
Arguments always_return H {_} names.

(** ** Simulated pumps *)

(** Modelled from the spec: the vendor class
    [python_dist.CHEMYX_python.core.connect.Connection], whose source is
    missing.  The simulated pumps have the methods the specification lists
    for the vendor connection (external interfaces); what the methods do is
    not specified, so the theorems take the connection as a parameter and the
    simulated pumps serve the examples only.  On [sim_pump] every method
    returns [None] and [setPump] selects the current pump; on [dead_pump]
    every method raises, as with a serial link that was lost. *)

Record sim_pump : Type := {
  sim_multipump : bool;
  sim_currentPump : option Z
}.

Definition vendor_methods : list string :=
  [ "openConnection"; "closeConnection"; "setUnits"; "setDiameter"; "setVolume";
    "setMode"; "setRate"; "setDelay"; "setTime"; "setPump"; "startPump";
    "stopPump"; "pausePump"; "getParameters"; "getOpenPorts" ].

Definition vendor_attribute (name : string) : option attr_kind :=
  if bool_decide (name ∈ vendor_methods) then Some Method
  else if bool_decide (name = "multipump") then Some (Data "bool")
  else if bool_decide (name = "currentPump") then Some (Data "int")
  else None.

Definition sim_invoke (name : string) (args : list pyval) (kw : kwargs)
    (h : sim_pump) : sim_pump * outcome pyval :=
  match name, args with
  | "setPump", [PyInt p] =>
      ({| sim_multipump := sim_multipump h; sim_currentPump := Some p |},
       Returned PyNone)
  | _, _ => (h, Returned PyNone)
  end.

#[global] Instance sim_connection : Connection sim_pump := {|
  type_name := "Connection";
  attribute := vendor_attribute;
  multipump := sim_multipump;
  currentPump := sim_currentPump;
  invoke := sim_invoke
|}.

Definition sim_single : sim_pump :=
  {| sim_multipump := false; sim_currentPump := None |}.

Definition sim_multi : sim_pump :=
  {| sim_multipump := true; sim_currentPump := Some 1 |}.

Inductive dead_pump : Type := dead.

#[global] Instance dead_connection : Connection dead_pump := {|
  type_name := "Connection";
  attribute := vendor_attribute;
  multipump := fun _ => false;
  currentPump := fun _ => None;
  invoke := fun _ _ _ h => (h, Raised (Exn VendorError "could not write to port"))
|}.

(** A freshly wrapped connection, nothing cached, nothing on the trace. *)
Definition connected {H} (h : H) : world H :=
  {| conn := {| connection := h; cache := ∅ |}; trace := [] |}.

Definition step (f : string) (ps : list (string * number)) : Step :=
  {| function := f; params := list_to_map ps |}.

Definition default_config : Config := {| diameter := Float 28.6%float |}.

(** A run of a program on a freshly connected simulated pump, with no call
    from the GUI. *)
Definition play (program : list Step) : option (StepExecutor sim_pump) :=
  execute_steps 1000 no_calls (new_executor program (connected sim_single) default_config).

Definition start_loop (n : Z) : Step := step "start_loop" [("iterations", Int n)].
Definition end_loop : Step := step "end_loop" [].
Definition wait (seconds : float) : Step := step "wait" [("time", Float seconds)].

(** ** Vocabulary of the cache invariant *)

(** The pump a cache key is filed under: none on a single-pump connection,
    else [getattr(connection, 'currentPump', 1)]. *)
Definition pump_of {H} `{Connection H} (c : CachedConnection H) : option Z :=
  if multipump (connection c) then Some (default 1%Z (currentPump (connection c)))
  else None.

(** What happened since the cache was last reset. *)
Definition since_reset (evs : list event) : list event :=
  foldl (fun acc ev => match ev with CacheReset => [] | _ => acc ++ [ev] end) [] evs.

(** The cache keys a method name can be filed under. *)
Definition key_of (name key : string) : Prop :=
  key = name \/ exists p : Z, key = (name ++ "_pump_" ++ pretty p)%string.

(** Every cache entry is the parameter value of a call that entered the
    hardware since the last reset, filed under a key of the method called. *)
Definition backed {H} (w : world H) : Prop :=
  forall key v, cache (conn w) !! key = Some v ->
    exists name args kw,
      HardwareCall name args kw ∈ since_reset (trace w) /\
      v = _make_param_value args kw /\ key_of name key.


(** [m] keeps the invariant [I] of the shared state. *)
Definition keeps {H A} (I : world H -> Prop) (m : M H A) : Prop :=
  forall w w' r, I w -> m w = (w', r) -> I w'.

(** ** Vocabulary of the statements on the loop of the executor *)

(** The functions a step can name, as the GUI offers them. *)
Definition known_functions : list string :=
  ["pump_volume"; "pump_time"; "wait"; "start_loop"; "end_loop"].

(** A loop stack in order below the position [bound]: every frame was pushed
    by a [start_loop] step that lies before [bound], and the frames below it
    by steps before that one. *)
Fixpoint tidy (all : list Step) (bound : nat) (stack : list LoopFrame) : bool :=
  match stack with
  | [] => true
  | f :: below =>
      (start_index f <? bound)%nat
      && match all !! start_index f with
         | Some st => (function st =? "start_loop")%string
         | None => false
         end
      && tidy all (start_index f) below
  end.

(** The number of [start_loop] steps of a program. *)
Definition loops_of (all : list Step) : nat :=
  length (filter (fun st => function st = "start_loop") all).

(** A program in which no loop can close: it has no [end_loop] step, or it
    has no [start_loop] step. *)
Definition straight (all : list Step) : Prop :=
  Forall (fun st => function st <> "end_loop") all \/
  Forall (fun st => function st <> "start_loop") all.

(** ** Python lists and integer division *)

(** The position [l[i]] refers to: a negative index counts from the end, and
    an index outside the list is an [IndexError], here [None]. *)
Definition index_of {A} (l : list A) (i : Z) : option nat :=
  let n := Z.of_nat (length l) in
  if (0 <=? i)%Z then (if (i <? n)%Z then Some (Z.to_nat i) else None)
  else if (- n <=? i)%Z then Some (Z.to_nat (n + i)) else None.

(** [l[i]] *)
Definition getitem {A} (l : list A) (i : Z) : option A :=
  n ← index_of l i; l !! n.

(** [l[i] = x] *)
Definition setitem {A} (l : list A) (i : Z) (x : A) : option (list A) :=
  n ← index_of l i; Some (<[n := x]> l).

(** [l.pop(i)], the list that is left *)
Definition pop {A} (l : list A) (i : Z) : option (list A) :=
  n ← index_of l i; Some (delete n l).

(** [a / b] on ints: the quotient rounded once, to the nearest double.  The
    quotient is taken with enough bits and a sticky bit below them, so that
    rounding it is rounding the exact value. *)
Definition py_truediv (a b : Z) : outcome float :=
  if (b =? 0)%Z then Raised (Exn ZeroDivisionError "division by zero")
  else if (a =? 0)%Z then Returned 0%float
  else
    let negative := xorb (a <? 0)%Z (b <? 0)%Z in
    let k := Z.max 0 (56 + Z.log2 (Z.abs b) - Z.log2 (Z.abs a)) in
    let scaled := Z.shiftl (Z.abs a) k in
    let sticky := if (scaled mod Z.abs b =? 0)%Z then 0%Z else 1%Z in
    let mantissa := (2 * (scaled / Z.abs b) + sticky)%Z in
    match binary_normalize prec emax mantissa (- k - 1) false with
    | S754_infinity _ =>
        Raised (Exn OverflowError "integer division result too large for a float")
    | sf => Returned (SF2Prim (if negative then SFopp sf else sf))
    end.

(** ** The window: the program, its table and the progress display *)

Module GUI.

(** The background of the items of a table row: the one a new item has, the
    green of a completed step, or the background of the table. *)
Inductive colour : Type := no_brush | completed_green | table_background.

(** A row of the steps table as [update_steps_table] fills it.  The
    parameters are shown as "k=v, ..."; the row keeps the values. *)
Record Row : Type := {
  number_text : string;
  function_text : string;
  parameters : gmap string number;
  up_enabled : bool;
  down_enabled : bool;
  background : colour
}.

(** The text of the status label: "Ready", "Executing Step k of n: f (...)"
    or "Execution Complete". *)
Inductive status : Type :=
| Ready
| Executing (position total : Z) (function_name : string)
    (shown : gmap string number)
| ExecutionComplete.

(** The format of the progress bar: "Step %v%", "Step k of n (p%)" or
    "Complete: n steps (100%)". *)
Inductive bar_format : Type :=
| step_percent
| step_of (position total percentage : Z)
| complete_of (total : Z).

Inductive caption : Type := caption_play | caption_resume | caption_pause.

(** The window, as far as the program and the display of a run go.
    [selected_row] is the row [highlight_current_step] selected last, and
    [steps_file] holds the programs handed to [json.dump] for the steps
    file, oldest first. *)
Record MyChemyxGUI : Type := {
  steps : list Step;
  current_step_index : Z;
  completed_steps : gset Z;
  is_running : bool;
  is_paused : bool;
  steps_table : list Row;
  selected_row : option Z;
  execution_status_label : status;
  progress_value : Z;
  progress_format : bar_format;
  progress_visible : bool;
  play_btn : caption;
  pause_btn : caption;
  steps_file : list (list Step)
}.

Definition with_steps (g : MyChemyxGUI) (l : list Step) : MyChemyxGUI :=
  {| steps := l; current_step_index := current_step_index g;
     completed_steps := completed_steps g; is_running := is_running g;
     is_paused := is_paused g; steps_table := steps_table g;
     selected_row := selected_row g;
     execution_status_label := execution_status_label g;
     progress_value := progress_value g; progress_format := progress_format g;
     progress_visible := progress_visible g; play_btn := play_btn g;
     pause_btn := pause_btn g; steps_file := steps_file g |}.

Definition with_table (g : MyChemyxGUI) (t : list Row) : MyChemyxGUI :=
  {| steps := steps g; current_step_index := current_step_index g;
     completed_steps := completed_steps g; is_running := is_running g;
     is_paused := is_paused g; steps_table := t;
     selected_row := selected_row g;
     execution_status_label := execution_status_label g;
     progress_value := progress_value g; progress_format := progress_format g;
     progress_visible := progress_visible g; play_btn := play_btn g;
     pause_btn := pause_btn g; steps_file := steps_file g |}.

Definition with_marks (g : MyChemyxGUI) (index : Z) (completed : gset Z)
    (selected : option Z) : MyChemyxGUI :=
  {| steps := steps g; current_step_index := index;
     completed_steps := completed; is_running := is_running g;
     is_paused := is_paused g; steps_table := steps_table g;
     selected_row := selected;
     execution_status_label := execution_status_label g;
     progress_value := progress_value g; progress_format := progress_format g;
     progress_visible := progress_visible g; play_btn := play_btn g;
     pause_btn := pause_btn g; steps_file := steps_file g |}.

Definition with_progress (g : MyChemyxGUI) (label : status) (value : Z)
    (format : bar_format) : MyChemyxGUI :=
  {| steps := steps g; current_step_index := current_step_index g;
     completed_steps := completed_steps g; is_running := is_running g;
     is_paused := is_paused g; steps_table := steps_table g;
     selected_row := selected_row g;
     execution_status_label := label;
     progress_value := value; progress_format := format;
     progress_visible := progress_visible g; play_btn := play_btn g;
     pause_btn := pause_btn g; steps_file := steps_file g |}.

Definition row_of (total : nat) (i : nat) (st : Step) : Row :=
  {| number_text := pretty (Z.of_nat i + 1)%Z;
     function_text := function st;
     parameters := params st;
     up_enabled := (0 <? Z.of_nat i)%Z;
     down_enabled := (Z.of_nat i <? Z.of_nat total - 1)%Z;
     background := no_brush |}.

(** The table gets one row per step, with new items. *)
Definition update_steps_table (g : MyChemyxGUI) : MyChemyxGUI :=
  with_table g (imap (row_of (length (steps g))) (steps g)).

(** A failure to write the file is logged and nothing else. *)
Definition auto_save_steps (g : MyChemyxGUI) : MyChemyxGUI :=
  {| steps := steps g; current_step_index := current_step_index g;
     completed_steps := completed_steps g; is_running := is_running g;
     is_paused := is_paused g; steps_table := steps_table g;
     selected_row := selected_row g;
     execution_status_label := execution_status_label g;
     progress_value := progress_value g; progress_format := progress_format g;
     progress_visible := progress_visible g; play_btn := play_btn g;
     pause_btn := pause_btn g; steps_file := steps_file g ++ [steps g] |}.

Definition changed (g : MyChemyxGUI) (l : list Step) : MyChemyxGUI :=
  auto_save_steps (update_steps_table (with_steps g l)).

(** [function] is the entry chosen in the combo box; [dialog] is what the
    parameter dialog gave, [None] when it was cancelled. *)
Definition add_step (function : string) (dialog : option (gmap string number))
    (g : MyChemyxGUI) : MyChemyxGUI :=
  match dialog with
  | Some ps => changed g (steps g ++ [{| function := function; params := ps |}])
  | None => g
  end.

(** [current_row] is the current row of the table, -1 when there is none.
    The editing methods give [None] for an [IndexError]. *)
Definition remove_step (current_row : Z) (g : MyChemyxGUI) : option MyChemyxGUI :=
  if (0 <=? current_row)%Z && (current_row <? Z.of_nat (length (steps g)))%Z then
    l ← pop (steps g) current_row;
    Some (changed g l)
  else Some g.

Definition edit_step (row : Z) (dialog : option (gmap string number))
    (g : MyChemyxGUI) : option MyChemyxGUI :=
  if (0 <=? row)%Z && (row <? Z.of_nat (length (steps g)))%Z then
    st ← getitem (steps g) row;
    match dialog with
    | Some ps =>
        l ← setitem (steps g) row {| function := function st; params := ps |};
        Some (changed g l)
    | None => Some g
    end
  else Some g.

Definition move_step_up (row : Z) (g : MyChemyxGUI) : option MyChemyxGUI :=
  if (0 <? row)%Z && (row <? Z.of_nat (length (steps g)))%Z then
    above ← getitem (steps g) (row - 1);
    this ← getitem (steps g) row;
    l ← setitem (steps g) row above;
    l ← setitem l (row - 1) this;
    Some (changed g l)
  else Some g.

Definition move_step_down (row : Z) (g : MyChemyxGUI) : option MyChemyxGUI :=
  if (0 <=? row)%Z && (row <? Z.of_nat (length (steps g)) - 1)%Z then
    below ← getitem (steps g) (row + 1);
    this ← getitem (steps g) row;
    l ← setitem (steps g) row below;
    l ← setitem l (row + 1) this;
    Some (changed g l)
  else Some g.

Definition recolour (r : Row) (c : colour) : Row :=
  {| number_text := number_text r; function_text := function_text r;
     parameters := parameters r; up_enabled := up_enabled r;
     down_enabled := down_enabled r; background := c |}.

Definition _update_row_colors (g : MyChemyxGUI) : MyChemyxGUI :=
  with_table g
    (imap (fun i r => recolour r (if bool_decide (Z.of_nat i ∈ completed_steps g)
                                  then completed_green else table_background))
          (steps_table g)).

(** [range(n)] as a set *)
Definition range (n : nat) : gset Z := list_to_set (Z.of_nat <$> seq 0 n).

(** The slot of [step_changed]; [None] stands for an exception ([IndexError]
    when the table has a row that the program has not, or one of the
    division). *)
Definition highlight_current_step (step_index : Z) (g : MyChemyxGUI)
    : option MyChemyxGUI :=
  let completed :=
    if (0 <=? current_step_index g)%Z && (current_step_index g <? step_index)%Z
    then {[ current_step_index g ]} ∪ completed_steps g
    else completed_steps g in
  let g := _update_row_colors (with_marks g step_index completed None) in
  if (0 <=? step_index)%Z && (step_index <? Z.of_nat (length (steps_table g)))%Z then
    let g := with_marks g step_index completed (Some step_index) in
    st ← getitem (steps g) step_index;
    let total_steps := Z.of_nat (length (steps g)) in
    match py_truediv (step_index + 1) total_steps with
    | Raised _ => None
    | Returned q =>
        match py_int (Float (q * 100)%float) with
        | Raised _ => None
        | Returned progress_percentage =>
            Some (with_progress g
                    (Executing (step_index + 1) total_steps (function st) (params st))
                    progress_percentage
                    (step_of (step_index + 1) total_steps progress_percentage))
        end
    end
  else if (step_index =? -1)%Z then
    Some (with_marks (with_progress g Ready 0 step_percent) step_index ∅ None)
  else
    let total_steps := length (steps g) in
    let g := with_progress g ExecutionComplete 100 (complete_of (Z.of_nat total_steps)) in
    Some (_update_row_colors
            (with_marks g step_index (completed ∪ range total_steps) None)).

(** The slot of [execution_finished]. *)
Definition execution_finished (g : MyChemyxGUI) : option MyChemyxGUI :=
  highlight_current_step (-1)
    {| steps := steps g; current_step_index := current_step_index g;
       completed_steps := completed_steps g; is_running := false;
       is_paused := false; steps_table := steps_table g;
       selected_row := selected_row g;
       execution_status_label := execution_status_label g;
       progress_value := progress_value g; progress_format := progress_format g;
       progress_visible := false; play_btn := caption_play;
       pause_btn := caption_pause; steps_file := steps_file g |}.

(** The [step_changed] signals of a run, delivered in order. *)
Definition deliver (announced : list nat) (g : MyChemyxGUI) : option MyChemyxGUI :=
  foldl (fun g i => g ≫= highlight_current_step (Z.of_nat i)) (Some g) announced.

(** The window as [__init__] leaves it when no program is loaded. *)
Definition initial : MyChemyxGUI :=
  {| steps := []; current_step_index := -1; completed_steps := ∅;
     is_running := false; is_paused := false; steps_table := [];
     selected_row := None; execution_status_label := Ready;
     progress_value := 0; progress_format := step_percent;
     progress_visible := false; play_btn := caption_play;
     pause_btn := caption_pause; steps_file := [] |}.

(** The table has one row per step of the program. *)
Definition in_step (g : MyChemyxGUI) : Prop :=
  length (steps_table g) = length (steps g).

End GUI.

(** The steps at [n] and [n + 1] have changed places between [l] and [l']. *)
Definition swapped (n : nat) (l l' : list Step) : Prop :=
  l' !! n = l !! S n /\ l' !! S n = l !! n /\
  (forall i, i <> n -> i <> S n -> l' !! i = l !! i).

(** ** Strings *)

Fixpoint drop_spaces (l : list Ascii.ascii) : list Ascii.ascii :=
  match l with
  | c :: l' => if Ascii.eqb c Ascii.Space then drop_spaces l' else l
  | [] => []
  end.

(** [s.strip(' ')] *)
Definition strip (s : string) : string :=
  string_of_list_ascii
    (rev (drop_spaces (rev (drop_spaces (list_ascii_of_string s))))).

Fixpoint until_space (l : list Ascii.ascii) : list Ascii.ascii :=
  match l with
  | c :: l' => if Ascii.eqb c Ascii.Space then [] else c :: until_space l'
  | [] => []
  end.

(** [s.split(' ')[-1]]: what follows the last space. *)
Definition last_field (s : string) : string :=
  string_of_list_ascii (rev (until_space (rev (list_ascii_of_string s)))).

(** ** The vendor's window ([gui_dev.py])

    [ChemyxPumpGUI] talks to the vendor connection directly, without the
    caching wrapper.  Its state is the connection, two flags and the texts
    of its widgets; what it sends to the connection, logs and prints is kept
    in [log], oldest first. *)

Module Dev.

Inductive failure : Type :=
| AssertionError (msg : string)
| IndexError (msg : string)
| Builtin (e : exn).   (* the classes modelled above, the vendor's among them *)

Inductive result (A : Type) : Type :=
| Done (a : A)
| Failed (f : failure).
Arguments Done {A} a.
Arguments Failed {A} f.

Inductive action : Type :=
| Sent (name : string) (args : list pyval)   (* a method of the connection was entered *)
| Info (text : string)                      (* logger.info *)
| Printed (text : string).                  (* print *)

(** The calls on the connection among the actions, in order. *)
Definition sent (l : list action) : list (string * list pyval) :=
  omap (fun a => match a with Sent name args => Some (name, args) | _ => None end) l.

(** The labels of the five run variables, and the methods that send them. *)
Definition names : list string :=
  ["Units"; "Syringe Diameter"; "Volume"; "Flow Rate"; "Delay"].

Definition setter_names : list string :=
  ["setUnits"; "setDiameter"; "setVolume"; "setRate"; "setDelay"].

(** [readout[x]] for a constant index [x] that is not negative. *)
Definition subscript (readout : pyval) (x : nat) : result pyval :=
  match readout with
  | PyList items =>
      match items !! x with
      | Some v => Done v
      | None => Failed (IndexError "list index out of range")
      end
  | PyTuple items =>
      match items !! x with
      | Some v => Done v
      | None => Failed (IndexError "tuple index out of range")
      end
  | PyStr s =>
      match String.get x s with
      | Some c => Done (PyStr (String c EmptyString))
      | None => Failed (IndexError "string index out of range")
      end
  | PyNone => Failed (Builtin (Exn TypeError "'NoneType' object is not subscriptable"))
  | PyInt _ => Failed (Builtin (Exn TypeError "'int' object is not subscriptable"))
  | PyFloat _ => Failed (Builtin (Exn TypeError "'float' object is not subscriptable"))
  end.

(** [item.strip(' ').split(' ')[-1]] *)
Definition field_of (item : pyval) : result string :=
  match item with
  | PyStr s => Done (last_field (strip s))
  | PyNone => Failed (Builtin (Exn AttributeError "'NoneType' object has no attribute 'strip'"))
  | PyInt _ => Failed (Builtin (Exn AttributeError "'int' object has no attribute 'strip'"))
  | PyFloat _ => Failed (Builtin (Exn AttributeError "'float' object has no attribute 'strip'"))
  | PyTuple _ => Failed (Builtin (Exn AttributeError "'tuple' object has no attribute 'strip'"))
  | PyList _ => Failed (Builtin (Exn AttributeError "'list' object has no attribute 'strip'"))
  end.

(** The parameters read back from the pump, for the indices
    [map_readparam]. *)
Fixpoint read_params (readout : pyval) (map_readparam : list nat)
    : result (list string) :=
  match map_readparam with
  | [] => Done []
  | x :: rest =>
      match subscript readout x with
      | Failed f => Failed f
      | Done item =>
          match field_of item with
          | Failed f => Failed f
          | Done p =>
              match read_params readout rest with
              | Failed f => Failed f
              | Done ps => Done (p :: ps)
              end
          end
      end
  end.

Section ChemyxPumpGUI.
Context {H : Type} `{Connection H}.

(** [float(text)], the conversion of a string by CPython. *)
Variable float_of_str : string -> outcome float.

Record ChemyxPumpGUI : Type := {
  CONNECTION : H;
  connected : bool;
  isRunning : bool;
  serportCBox : string;          (* currentText() *)
  baudCBox : string;
  serportCBox_enabled : bool;
  scanBtn_enabled : bool;
  baudCBox_enabled : bool;
  connectLbl : string;
  connectLbl_style : string;
  connectBtn : string;
  unitsCBox : string;
  diameterLineEdit : string;     (* text() *)
  volumeLineEdit : string;
  flowRateLineEdit : string;
  delayLineEdit : string;
  pauseBtn : string;
  log : list action
}.

Definition D (A : Type) : Type := ChemyxPumpGUI -> ChemyxPumpGUI * result A.

#[global] Instance D_ret : MRet D := fun A a s => (s, Done a).
#[global] Instance D_bind : MBind D := fun A B k m s =>
  match m s with
  | (s', Done a) => k a s'
  | (s', Failed f) => (s', Failed f)
  end.

Definition fail {A} (f : failure) : D A := fun s => (s, Failed f).

Definition with_connection (s : ChemyxPumpGUI) (h : H) (l : list action)
    : ChemyxPumpGUI :=
  {| CONNECTION := h; connected := connected s; isRunning := isRunning s;
     serportCBox := serportCBox s; baudCBox := baudCBox s;
     serportCBox_enabled := serportCBox_enabled s;
     scanBtn_enabled := scanBtn_enabled s; baudCBox_enabled := baudCBox_enabled s;
     connectLbl := connectLbl s; connectLbl_style := connectLbl_style s;
     connectBtn := connectBtn s; unitsCBox := unitsCBox s;
     diameterLineEdit := diameterLineEdit s; volumeLineEdit := volumeLineEdit s;
     flowRateLineEdit := flowRateLineEdit s; delayLineEdit := delayLineEdit s;
     pauseBtn := pauseBtn s; log := l |}.

Definition note (a : action) : D unit :=
  fun s => (with_connection s (CONNECTION s) (log s ++ [a]), Done tt).

(** [self.isRunning = running] followed by [self.setPauseBtn(val)], which
    shows ['Unpause', 'Pause'][val]. *)
Definition with_run (s : ChemyxPumpGUI) (running : bool) (text : string)
    : ChemyxPumpGUI :=
  {| CONNECTION := CONNECTION s; connected := connected s; isRunning := running;
     serportCBox := serportCBox s; baudCBox := baudCBox s;
     serportCBox_enabled := serportCBox_enabled s;
     scanBtn_enabled := scanBtn_enabled s; baudCBox_enabled := baudCBox_enabled s;
     connectLbl := connectLbl s; connectLbl_style := connectLbl_style s;
     connectBtn := connectBtn s; unitsCBox := unitsCBox s;
     diameterLineEdit := diameterLineEdit s; volumeLineEdit := volumeLineEdit s;
     flowRateLineEdit := flowRateLineEdit s; delayLineEdit := delayLineEdit s;
     pauseBtn := text; log := log s |}.

Definition setPauseBtn (val : bool) : D unit :=
  fun s => (with_run s (isRunning s) (if val then "Pause" else "Unpause"), Done tt).

Definition set_isRunning (running : bool) : D unit :=
  fun s => (with_run s running (pauseBtn s), Done tt).

(** The display of the link and the lock on its parameters. *)
Definition with_link (s : ChemyxPumpGUI) (label style button : string)
    (enabled link : bool) : ChemyxPumpGUI :=
  {| CONNECTION := CONNECTION s; connected := link; isRunning := isRunning s;
     serportCBox := serportCBox s; baudCBox := baudCBox s;
     serportCBox_enabled := enabled;
     scanBtn_enabled := enabled; baudCBox_enabled := enabled;
     connectLbl := label; connectLbl_style := style;
     connectBtn := button; unitsCBox := unitsCBox s;
     diameterLineEdit := diameterLineEdit s; volumeLineEdit := volumeLineEdit s;
     flowRateLineEdit := flowRateLineEdit s; delayLineEdit := delayLineEdit s;
     pauseBtn := pauseBtn s; log := log s |}.

(** [self.CONNECTION.name]: the attribute is looked up. *)
Definition getattr (name : string) : D attr_kind :=
  match attribute H name with
  | Some k => mret k
  | None =>
      fail (Builtin (Exn AttributeError
                       ("'" ++ type_name H ++ "' object has no attribute '"
                        ++ name ++ "'")))
  end.

(** The attribute found under [name] is called. *)
Definition call (name : string) (k : attr_kind) (args : list pyval) : D pyval :=
  match k with
  | Method =>
      fun s =>
        let '(h', r) := invoke name args [] (CONNECTION s) in
        (with_connection s h' (log s ++ [Sent name args]),
         match r with
         | Returned v => Done v
         | Raised e => Failed (Builtin e)
         end)
  | Data ty => fail (Builtin (Exn TypeError ("'" ++ ty ++ "' object is not callable")))
  end.

Definition method (name : string) (args : list pyval) : D pyval :=
  k ← getattr name; call name k args.

(** [self.CONNECTION.name = value]: the assignment is an operation of the
    class of the connection, [__setattr__]. *)
Definition assign (name : string) (value : pyval) : D unit :=
  call "__setattr__" Method [PyStr name; value];; mret tt.

(** The bound methods [funcref], looked up one after the other. *)
Fixpoint lookup_all (l : list string) : D (list attr_kind) :=
  match l with
  | [] => mret []
  | name :: rest => k ← getattr name; ks ← lookup_all rest; mret (k :: ks)
  end.

Definition widget_texts (s : ChemyxPumpGUI) : list string :=
  [unitsCBox s; diameterLineEdit s; volumeLineEdit s; flowRateLineEdit s;
   delayLineEdit s].

(** The first loop of [sendFromGUI]: the text of each widget must not be
    empty, and is sent with the method of its place; the values sent are
    collected.  A combo box gives [currentText()] and a line edit [text()],
    with the same check. *)
Fixpoint send (funcs : list string) (funcref : list attr_kind) (texts : list string)
    : D (list string) :=
  match funcs, funcref, texts with
  | name :: funcs', k :: funcref', text :: texts' =>
      if (text =? "")%string then
        fail (AssertionError "ERROR: Must enter all pump variables before starting run.")
      else
        call name k [PyStr text];;
        values ← send funcs' funcref' texts';
        mret (text :: values)
  | _, _, _ => mret []
  end.

Definition of_outcome {A} (o : outcome A) : result A :=
  match o with
  | Returned a => Done a
  | Raised e => Failed (Builtin e)
  end.

(** The second loop: what the pump reports is compared with the magnitude
    of what was sent. *)
Fixpoint validate (labels params values : list string) : result unit :=
  match labels, params, values with
  | label :: labels', paramVal :: params', value :: values' =>
      match of_outcome (float_of_str paramVal) with
      | Failed f => Failed f
      | Done reported =>
          match of_outcome (float_of_str value) with
          | Failed f => Failed f
          | Done given =>
              if (reported =? abs given)%float then validate labels' params' values'
              else Failed (AssertionError
                             ("ERROR: " ++ label ++ " value outside of operational range"))
          end
      end
  | _, _, _ => Done tt
  end.

(** A computation that touches nothing. *)
Definition pure {A} (r : result A) : D A := fun s => (s, r).

Definition sendFromGUI : D unit :=
  funcref ← lookup_all setter_names;
  values ← (fun s => send setter_names funcref (widget_texts s) s) : D (list string);
  readout ← method "getParameters" [];
  params ← pure (read_params readout [1; 2; 6; 3; 7]%nat);
  (* the units are skipped *)
  pure (validate (tail names) (tail params) (tail values)).

Definition start : D unit :=
  fun s =>
    if connected s then
      (note (Info "Sending Pump Variables from GUI");;
       sendFromGUI;;
       method "startPump" [];;
       set_isRunning true;;
       setPauseBtn true;;
       note (Info "Started Run")) s
    else (s, Done tt).

Definition stop : D unit :=
  fun s =>
    if connected s then
      (method "stopPump" [];;
       set_isRunning false;;
       setPauseBtn true;;
       note (Info "Stopped Run")) s
    else (s, Done tt).

Definition pause : D unit :=
  fun s =>
    if connected s then
      if isRunning s then
        (method "pausePump" [];;
         setPauseBtn false;;
         note (Info "Paused Run")) s
      else
        (method "startPump" [];;
         setPauseBtn true;;
         note (Info "Unpaused Run")) s
    else (s, Done tt).

Definition connect : D unit :=
  fun s =>
    if negb (connected s) && negb (serportCBox s =? "")%string then
      let com := serportCBox s in
      let baud := baudCBox s in
      match (assign "baudrate" (PyStr baud);;
             assign "port" (PyStr com);;
             method "openConnection" [];;
             ((fun s => (with_link s "CONNECTED" "color:green" "Disconnect" false true,
                         Done tt)) : D unit);;
             note (Info "Connected to pump")) s with
      | (s', Failed (Builtin e)) =>
          match exn_type e with
          | TypeError => note (Printed (exn_str e)) s'
          | _ => (s', Failed (Builtin e))
          end
      | other => other
      end
    else
      let s' := fst (method "closeConnection" [] s) in   (* whatever it raises is dropped *)
      note (Info "Disconnected from pump")
        (with_link s' "DISCONNECTED" "color:red" "Connect" true false).

(** [m] leaves the flags and the widgets as they are, and calls on the
    connection only methods among [allowed]. *)
Definition calls_only {A} (allowed : list string) (m : D A) : Prop :=
  forall s s' r, m s = (s', r) ->
    connected s' = connected s /\ isRunning s' = isRunning s /\
    pauseBtn s' = pauseBtn s /\ widget_texts s' = widget_texts s /\
    exists calls, sent (log s') = sent (log s) ++ calls /\
                  Forall (fun c => fst c ∈ allowed) calls.

End ChemyxPumpGUI.
Arguments ChemyxPumpGUI H : clear implicits.
Arguments D H A : clear implicits.

End Dev.

(** The methods [names] of the connection leave the selection of the pump
    as it is. *)
Definition keep_pump (H : Type) `{Connection H} (names : list string) : Prop :=
  forall name args kw h, name ∈ names ->
    multipump (fst (invoke name args kw h)) = multipump h /\
    currentPump (fst (invoke name args kw h)) = currentPump h.

(** ** Program files *)

(** The values a JSON text has, which are the values Python takes them
    for: a number is an [int] or a [float], an array a list, an object a
    dict. *)
Inductive json : Type :=
| JNull
| JBool (b : bool)
| JNumber (n : number)
| JString (s : string)
| JArray (items : list json)
| JObject (members : list (string * json)).

(** The value of a program: the list of dicts that [self.steps] is. *)
Definition params_to_json (ps : gmap string number) : json :=
  JObject ((fun kv => (fst kv, JNumber (snd kv))) <$> map_to_list ps).

Definition step_to_json (st : Step) : json :=
  JObject [("function", JString (function st)); ("params", params_to_json (params st))].

Definition to_json (program : list Step) : json := JArray (step_to_json <$> program).

(** The dict of the members of an object: of two members with one name the
    later one counts. *)
Definition members_dict {A} (members : list (string * A)) : gmap string A :=
  list_to_map (reverse members).

Definition as_string (v : json) : option string :=
  match v with JString s => Some s | _ => None end.

Definition as_number (v : json) : option number :=
  match v with JNumber n => Some n | _ => None end.

Definition as_params (v : json) : option (gmap string number) :=
  match v with
  | JObject members =>
      members_dict <$> mapM (fun m => pair (fst m) <$> as_number (snd m)) members
  | _ => None
  end.

(** A value that is a step: a dict with the entries [function], a string,
    and [params], a dict of numbers, and no other entry. *)
Definition as_step (v : json) : option Step :=
  match v with
  | JObject members =>
      let d := members_dict members in
      if bool_decide (dom d = ({[ "function"; "params" ]} : gset string)) then
        function ← d !! "function" ≫= as_string;
        params ← d !! "params" ≫= as_params;
        Some {| function := function; params := params |}
      else None
  | _ => None
  end.

(** A value that is a program: a list of steps. *)
Definition as_program (v : json) : option (list Step) :=
  match v with
  | JArray items => mapM as_step items
  | _ => None
  end.

(** What a file holds: a JSON text, known by its value, or another text. *)
Inductive content : Type :=
| Document (value : json)
| Garbage.

(** Modelled from the spec: [json.dump(value, f, indent=2)] of CPython's
    library.  The spec has the program file written verbatim: the file
    holds the value that was dumped.  The text itself (its indentation, the
    syntax of its numbers) is not modelled. *)
Definition json_dump (value : json) : content := Document value.

(** Modelled from the spec: [json.load(f)] of CPython's library.  The spec
    has the program file read verbatim: loading gives the value of the
    file; a text that is no JSON is refused ([None]). *)
Definition json_load (c : content) : option json :=
  match c with
  | Document value => Some value
  | Garbage => None
  end.

(** What goes wrong with a file: [open] refuses the path, or [json.load]
    refuses the text. *)
Inductive file_error : Type :=
| open_failed (path : string)
| decode_failed (path : string).

(** A message box.  [critical] has the text before [str(e)] and the
    exception itself. *)
Inductive box : Type :=
| information (title text : string)
| critical (title text : string) (e : file_error).

(** The window with the files around it.  [steps_path] is where the disk
    has the steps file, [denied] are the paths that [open] refuses to write
    to, and a path that [disk] does not know cannot be opened for reading.
    [boxes] are the message boxes shown, oldest first. *)
Record Desk : Type := {
  window : GUI.MyChemyxGUI;
  steps_path : string;
  disk : gmap string content;
  denied : gset string;
  boxes : list box
}.

Definition show (b : box) (d : Desk) : Desk :=
  {| window := window d; steps_path := steps_path d; disk := disk d;
     denied := denied d; boxes := boxes d ++ [b] |}.

(** [with open(path, 'w') as f: json.dump(program, f, indent=2)], when
    [open] does not refuse. *)
Definition write (path : string) (program : list Step) (d : Desk) : Desk :=
  {| window := window d; steps_path := steps_path d;
     disk := <[path := json_dump (to_json program)]> (disk d);
     denied := denied d; boxes := boxes d |}.

(** [file_path] is what the dialog gave, the empty string when it was
    cancelled. *)
Definition save_program (file_path : string) (d : Desk) : Desk :=
  if (file_path =? "")%string then d
  else if bool_decide (file_path ∈ denied d) then
    show (critical "Error" "Failed to save program: " (open_failed file_path)) d
  else
    show (information "Success" "Program saved successfully!")
         (write file_path (GUI.steps (window d)) d).

(** [self.steps = program], [update_steps_table()] and [auto_save_steps()],
    whose failure to write is logged and nothing else. *)
Definition take_program (program : list Step) (d : Desk) : Desk :=
  let d' := if bool_decide (steps_path d ∈ denied d) then d
            else write (steps_path d) program d in
  {| window := GUI.changed (window d) program; steps_path := steps_path d';
     disk := disk d'; denied := denied d'; boxes := boxes d' |}.

(** [None] when the file holds a JSON value that is no program:
    [self.steps] is that value from then on, and what the window does with
    it is not modelled. *)
Definition load_program (file_path : string) (d : Desk) : option Desk :=
  if (file_path =? "")%string then Some d
  else
    match disk d !! file_path with
    | None =>
        Some (show (critical "Error" "Failed to load program: "
                      (open_failed file_path)) d)
    | Some f =>
        match json_load f with
        | None =>
            Some (show (critical "Error" "Failed to load program: "
                          (decode_failed file_path)) d)
        | Some v =>
            match as_program v with
            | Some program =>
                Some (show (information "Success" "Program loaded successfully!")
                           (take_program program d))
            | None => None
            end
        end
    end.

(** ** Examples *)

(** A stand-in for [float(text)] on the texts of the examples: a decimal
    integer, with a sign or without. *)
Fixpoint decimal (s : string) (acc : Z) : option Z :=
  match s with
  | EmptyString => Some acc
  | String c s' =>
      let n := Z.of_nat (Ascii.nat_of_ascii c) in
      if (48 <=? n)%Z && (n <=? 57)%Z then decimal s' (10 * acc + (n - 48))%Z else None
  end.

Definition decimal_float (s : string) : outcome float :=
  let refused :=
    Raised (Exn ValueError ("could not convert string to float: '" ++ s ++ "'")) in
  match s with
  | EmptyString => refused
  | String c s' =>
      if Ascii.eqb c (Ascii.ascii_of_nat 45) then  (* a minus sign *)
        match s' with
        | EmptyString => refused
        | _ => match decimal s' 0 with
               | Some z => py_float (Int (- z))
               | None => refused
               end
        end
      else match decimal s 0 with
           | Some z => py_float (Int z)
           | None => refused
           end
  end.

(** The vendor's window on a simulated pump: connected or not, with the
    five run variables filled in but for the delay. *)
Definition dev_window (link : bool) (delay : string) : Dev.ChemyxPumpGUI sim_pump :=
  {| Dev.CONNECTION := sim_single; Dev.connected := link; Dev.isRunning := false;
     Dev.serportCBox := "COM4"; Dev.baudCBox := "9600";
     Dev.serportCBox_enabled := negb link; Dev.scanBtn_enabled := negb link;
     Dev.baudCBox_enabled := negb link;
     Dev.connectLbl := if link then "CONNECTED" else "DISCONNECTED";
     Dev.connectLbl_style := if link then "color:green" else "color:red";
     Dev.connectBtn := if link then "Disconnect" else "Connect";
     Dev.unitsCBox := "mL/min"; Dev.diameterLineEdit := "28";
     Dev.volumeLineEdit := "-5"; Dev.flowRateLineEdit := "2";
     Dev.delayLineEdit := delay; Dev.pauseBtn := "Pause"; Dev.log := [] |}.

(** The window with a program loaded. *)
Definition window_of (program : list Step) : GUI.MyChemyxGUI :=
  GUI.update_steps_table (GUI.with_steps GUI.initial program).

(** The window with a program loaded, and a disk that has no file yet and
    refuses none. *)
Definition desk (program : list Step) : Desk :=
  {| window := window_of program; steps_path := "chemyx_steps.json";
     disk := ∅; denied := ∅; boxes := [] |}.
(** * Properties *)

(** ** The conversions and comparisons on examples *)

Example py_eq_int_float : py_eq (PyInt 1) (PyFloat 1%float) = true.
Proof. reflexivity. Qed.

Example py_eq_zeros : py_eq (PyFloat 0%float) (PyFloat (-0)%float) = true.
Proof. reflexivity. Qed.

Example py_eq_nan : py_eq (PyFloat nan) (PyFloat nan) = false.
Proof. reflexivity. Qed.

Example py_eq_halves : py_eq (PyFloat 0.5%float) (PyFloat (1 / 2)%float) = true.
Proof. reflexivity. Qed.

Example py_eq_tuple_list : py_eq (PyTuple [PyInt 1]) (PyList [PyInt 1]) = false.
Proof. reflexivity. Qed.

Example py_float_3 : py_float (Int 3) = Returned 3%float.
Proof. reflexivity. Qed.

Example py_int_trunc : py_int (Float (-3.75)%float) = Returned (-3).
Proof. reflexivity. Qed.

Example py_int_small : py_int (Float 0.5%float) = Returned 0.
Proof. reflexivity. Qed.


(** ** Value equality is a partial equivalence *)

Lemma exact_eqb_eq (x y : exact) : exact_eqb x y = true -> x = y.
Proof.
  destruct x, y; simpl; try discriminate; try reflexivity; intros E.
  - apply Bool.eqb_prop in E. congruence.
  - apply andb_prop in E as [E E3]. apply andb_prop in E as [E1 E2].
    apply Bool.eqb_prop in E1. apply Pos.eqb_eq in E2. apply Z.eqb_eq in E3.
    congruence.
Qed.

Lemma exact_eqb_sym (x y : exact) : exact_eqb x y = exact_eqb y x.
Proof.
  destruct x, y; simpl; auto.
  - apply eq_true_iff_eq. rewrite !Bool.eqb_true_iff. split; congruence.
  - rewrite (Pos.eqb_sym m), (Z.eqb_sym e). f_equal. f_equal.
    destruct negative, negative0; reflexivity.
Qed.

Lemma exact_eqb_trans (x y z : exact) :
  exact_eqb x y = true -> exact_eqb y z = true -> exact_eqb x z = true.
Proof. intros E1 E2. apply exact_eqb_eq in E1. subst. exact E2. Qed.

Lemma py_eq_tuple (l1 l2 : list pyval) : py_eq (PyTuple l1) (PyTuple l2) = all_eq l1 l2.
Proof.
  simpl. revert l2. induction l1 as [|x xs IH]; intros [|y ys]; simpl; auto.
Qed.

Lemma py_eq_list (l1 l2 : list pyval) : py_eq (PyList l1) (PyList l2) = all_eq l1 l2.
Proof.
  simpl. revert l2. induction l1 as [|x xs IH]; intros [|y ys]; simpl; auto.
Qed.

Lemma pyval_nested_ind (P : pyval -> Prop) :
  P PyNone -> (forall z, P (PyInt z)) -> (forall f, P (PyFloat f)) ->
  (forall s, P (PyStr s)) ->
  (forall l, Forall P l -> P (PyTuple l)) ->
  (forall l, Forall P l -> P (PyList l)) ->
  forall v, P v.
Proof.
  intros P_none P_int P_float P_str P_tuple P_list.
  fix IH 1.
  intros [ | z | f | s | l | l ];
    [ apply P_none | apply P_int | apply P_float | apply P_str
    | apply P_tuple | apply P_list ];
    induction l as [|x xs IHl]; constructor; solve [ apply IH | exact IHl ].
Qed.

Lemma all_eq_sym (l1 : list pyval) :
  Forall (fun a => forall b, py_eq a b = py_eq b a) l1 ->
  forall l2, all_eq l1 l2 = all_eq l2 l1.
Proof.
  induction 1 as [|x xs Hx _ IH]; intros [|y ys]; simpl; auto.
  now rewrite Hx, IH.
Qed.

Lemma py_eq_sym (a b : pyval) : py_eq a b = py_eq b a.
Proof.
  revert b. induction a using pyval_nested_ind; intros [];
    try reflexivity; try apply exact_eqb_sym.
  - simpl. apply eq_true_iff_eq. rewrite !String.eqb_eq. split; congruence.
  - rewrite !py_eq_tuple. now apply all_eq_sym.
  - rewrite !py_eq_list. now apply all_eq_sym.
Qed.

Lemma all_eq_trans (l1 : list pyval) :
  Forall (fun a => forall b c, py_eq a b = true -> py_eq b c = true ->
                               py_eq a c = true) l1 ->
  forall l2 l3, all_eq l1 l2 = true -> all_eq l2 l3 = true -> all_eq l1 l3 = true.
Proof.
  induction 1 as [|x xs Hx _ IH]; intros [|y ys] [|z zs]; simpl;
    try discriminate; auto.
  intros E1 E2. apply andb_prop in E1 as [E1 E1']. apply andb_prop in E2 as [E2 E2'].
  rewrite (Hx _ _ E1 E2), (IH _ _ E1' E2'). reflexivity.
Qed.

Lemma py_eq_trans (a b c : pyval) :
  py_eq a b = true -> py_eq b c = true -> py_eq a c = true.
Proof.
  revert b c. induction a using pyval_nested_ind; intros b c;
    destruct b; try (simpl; discriminate);
    destruct c; try (simpl; intros; discriminate);
    try (simpl; apply exact_eqb_trans).
  - reflexivity.
  - simpl. rewrite !String.eqb_eq. congruence.
  - rewrite !py_eq_tuple. now apply all_eq_trans.
  - rewrite !py_eq_list. now apply all_eq_trans.
Qed.

(** A value that equals a first one equals a second exactly when the two do. *)
Lemma py_eq_congr (v a b : pyval) :
  py_eq v a = true -> py_eq v b = py_eq a b.
Proof.
  intros E. apply eq_true_iff_eq. split; intros E'.
  - apply py_eq_trans with v; [now rewrite py_eq_sym|exact E'].
  - now apply py_eq_trans with a.
Qed.

(** ** The parameter cache *)

(** *** The order of keyword arguments *)

Lemma string_leb_trans (a b c : string) :
  String.leb a b = true -> String.leb b c = true -> String.leb a c = true.
Proof.
  unfold String.leb. revert b c.
  induction a as [|x a IH]; intros [|y b] [|z c]; simpl; try congruence.
  unfold Ascii.compare.
  destruct (N.compare_spec (Ascii.N_of_ascii x) (Ascii.N_of_ascii y)) as [E1|L1|G1];
    destruct (N.compare_spec (Ascii.N_of_ascii y) (Ascii.N_of_ascii z)) as [E2|L2|G2];
    destruct (N.compare_spec (Ascii.N_of_ascii x) (Ascii.N_of_ascii z)) as [E3|L3|G3];
    try congruence; try lia.
  apply IH.
Qed.

Lemma string_leb_false (a b : string) :
  a <> b -> String.leb a b = true -> String.leb b a = false.
Proof.
  intros Hne Hab. destruct (String.leb b a) eqn:Hba; [|reflexivity].
  destruct Hne. now apply String.leb_antisym.
Qed.

Lemma string_leb_flip (a b : string) : String.leb a b = false -> String.leb b a = true.
Proof. intros Hab. destruct (String.leb_total a b); congruence. Qed.

(** Two items with different keys can be inserted in either order. *)
Lemma insert_item_comm (a b : string * pyval) (l : kwargs) :
  fst a <> fst b -> insert_item a (insert_item b l) = insert_item b (insert_item a l).
Proof.
  intros Hne.
  assert (Hord : String.leb (fst a) (fst b) = negb (String.leb (fst b) (fst a))).
  { destruct (String.leb (fst a) (fst b)) eqn:Hab.
    - now rewrite (string_leb_false _ _ Hne Hab).
    - now rewrite (string_leb_flip _ _ Hab). }
  induction l as [|x l IH]; simpl.
  - rewrite Hord. now destruct (String.leb (fst b) (fst a)).
  - destruct (String.leb (fst b) (fst x)) eqn:Hbx;
      destruct (String.leb (fst a) (fst x)) eqn:Hax; simpl;
      rewrite ?Hbx, ?Hax.
    + rewrite Hord. destruct (String.leb (fst b) (fst a)); simpl;
        now rewrite ?Hbx, ?Hax.
    + destruct (String.leb (fst a) (fst b)) eqn:Hab; [|reflexivity].
      now rewrite (string_leb_trans _ _ _ Hab Hbx) in Hax.
    + destruct (String.leb (fst b) (fst a)) eqn:Hba; [|reflexivity].
      now rewrite (string_leb_trans _ _ _ Hba Hax) in Hbx.
    + now rewrite IH.
Qed.

Lemma sorted_permutation (kw1 kw2 : kwargs) :
  NoDup kw1.*1 -> kw1 ≡ₚ kw2 -> sorted kw1 = sorted kw2.
Proof.
  intros Hnd Hp. unfold sorted.
  apply (foldr_permutation eq insert_item []); [|exact Hp].
  intros j1 a1 j2 a2 l Hj H1 H2. apply insert_item_comm.
  intros Heq. apply Hj.
  apply (NoDup_lookup _ j1 j2 (fst a1) Hnd); rewrite list_lookup_fmap.
  - now rewrite H1.
  - now rewrite H2, Heq.
Qed.

(** *** The same arguments *)

(** Sorting keeps the items. *)
Lemma insert_item_perm (kv : string * pyval) (l : kwargs) :
  insert_item kv l ≡ₚ kv :: l.
Proof.
  induction l as [|x l IH]; simpl; [reflexivity|].
  destruct (String.leb (fst kv) (fst x)); [reflexivity|].
  rewrite IH. apply Permutation_swap.
Qed.

Lemma sorted_perm (kw : kwargs) : sorted kw ≡ₚ kw.
Proof.
  induction kw as [|kv kw IH]; [reflexivity|].
  unfold sorted in *. simpl. rewrite insert_item_perm. now rewrite IH.
Qed.

(** The items with their values blanked: what is left is the names. *)
Definition blank (l : kwargs) : kwargs := (fun kv => (fst kv, PyNone)) <$> l.

Lemma blank_insert_item (kv : string * pyval) (l : kwargs) :
  blank (insert_item kv l) = insert_item (fst kv, PyNone) (blank l).
Proof.
  induction l as [|x l IH]; simpl; [reflexivity|].
  destruct (String.leb (fst kv) (fst x)); [reflexivity|].
  change (blank (x :: insert_item kv l)) with ((fst x, PyNone) :: blank (insert_item kv l)).
  now rewrite IH.
Qed.

Lemma blank_sorted (l : kwargs) : blank (sorted l) = sorted (blank l).
Proof.
  induction l as [|x l IH]; [reflexivity|].
  unfold sorted in *. simpl. now rewrite blank_insert_item, IH.
Qed.

Lemma blank_names (l : kwargs) : (blank l).*1 = l.*1.
Proof. unfold blank. rewrite <- list_fmap_compose. reflexivity. Qed.

Lemma blank_of_names (l : kwargs) : blank l = (fun k => (k, PyNone)) <$> l.*1.
Proof. unfold blank. rewrite <- list_fmap_compose. reflexivity. Qed.

(** The order of the sorted items is the order of the names alone. *)
Lemma sorted_names (kw1 kw2 : kwargs) :
  NoDup kw1.*1 -> kw1.*1 ≡ₚ kw2.*1 -> (sorted kw1).*1 = (sorted kw2).*1.
Proof.
  intros Hnd Hp.
  rewrite <- (blank_names (sorted kw1)), <- (blank_names (sorted kw2)), !blank_sorted.
  f_equal. apply sorted_permutation.
  - now rewrite blank_names.
  - rewrite !blank_of_names. now apply fmap_Permutation.
Qed.

Lemma all_eq_lookup (l1 l2 : list pyval) :
  all_eq l1 l2 = true <->
  length l1 = length l2 /\
  forall i x y, l1 !! i = Some x -> l2 !! i = Some y -> py_eq x y = true.
Proof.
  revert l2. induction l1 as [|a l1 IH]; intros [|b l2]; simpl.
  - split; [intros _; split; [reflexivity|]; intros i x y Hx; discriminate Hx|reflexivity].
  - split; [discriminate|]. intros [Hl _]. discriminate Hl.
  - split; [discriminate|]. intros [Hl _]. discriminate Hl.
  - rewrite andb_true_iff, IH. split.
    + intros (Hab & Hl & Hi). split; [now rewrite Hl|].
      intros [|i] x y Hx Hy; simpl in *; [congruence|]. eauto.
    + intros (Hl & Hi). split; [exact (Hi 0%nat a b eq_refl eq_refl)|].
      split; [congruence|]. intros i x y Hx Hy. exact (Hi (S i) x y Hx Hy).
Qed.

Lemma all_alike_all_eq (l1 l2 : list pyval) :
  all_alike l1 l2 = all_eq (make_hashable <$> l1) (make_hashable <$> l2).
Proof.
  revert l2. induction l1 as [|a l1 IH]; intros [|b l2]; simpl; try reflexivity.
  now rewrite IH.
Qed.

(** A keyword item as [_make_param_value] stores it. *)
Definition stored_item (kv : string * pyval) : pyval :=
  PyTuple [PyStr (fst kv); make_hashable (snd kv)].

Lemma stored_item_eq (kv1 kv2 : string * pyval) :
  py_eq (stored_item kv1) (stored_item kv2) = true <->
  fst kv1 = fst kv2 /\ alike (snd kv1) (snd kv2) = true.
Proof.
  unfold stored_item, alike. rewrite py_eq_tuple. simpl.
  rewrite !andb_true_iff, String.eqb_eq. tauto.
Qed.

Lemma keywords_lookup (kw : kwargs) (k : string) (v : pyval) :
  NoDup kw.*1 -> (k, v) ∈ kw <-> keywords kw !! k = Some v.
Proof. intros Hnd. unfold keywords. now apply elem_of_list_to_map. Qed.

Lemma same_keywords_names (kw1 kw2 : kwargs) :
  NoDup kw1.*1 -> NoDup kw2.*1 -> same_keywords kw1 kw2 = true ->
  kw1.*1 ≡ₚ kw2.*1.
Proof.
  intros Hnd1 Hnd2 Hs. unfold same_keywords in Hs.
  apply andb_true_iff in Hs as [Hl Hs]. apply Nat.eqb_eq in Hl.
  apply submseteq_length_Permutation; [|rewrite !length_fmap; lia].
  apply NoDup_submseteq; [exact Hnd1|].
  intros k Hk. apply list_elem_of_fmap in Hk as ([k' v] & -> & Hin).
  rewrite forallb_forall in Hs. apply list_elem_of_In in Hin.
  specialize (Hs _ Hin). simpl in *.
  destruct (keywords kw2 !! k') as [v'|] eqn:E; [|discriminate].
  apply keywords_lookup in E; [|exact Hnd2].
  apply list_elem_of_fmap. exists (k', v'). split; [reflexivity|exact E].
Qed.

Lemma sorted_items_eq (kw1 kw2 : kwargs) :
  NoDup kw1.*1 -> NoDup kw2.*1 ->
  all_eq (stored_item <$> sorted kw1) (stored_item <$> sorted kw2)
  = same_keywords kw1 kw2.
Proof.
  intros Hnd1 Hnd2. apply eq_true_iff_eq. rewrite all_eq_lookup. split.
  - intros [Hl Hi]. rewrite !length_fmap in Hl.
    unfold same_keywords. apply andb_true_iff. split.
    + apply Nat.eqb_eq. now rewrite <- (sorted_perm kw1), <- (sorted_perm kw2).
    + apply forallb_forall. intros [k v] Hin. simpl.
      apply list_elem_of_In in Hin. rewrite <- (sorted_perm kw1) in Hin.
      apply list_elem_of_lookup in Hin as [i Hi1].
      assert (Hlt : (i < length (sorted kw2))%nat).
      { rewrite <- Hl. eapply lookup_lt_Some. exact Hi1. }
      destruct (lookup_lt_is_Some_2 _ _ Hlt) as [[k' v'] Hi2].
      assert (Hs : py_eq (stored_item (k, v)) (stored_item (k', v')) = true).
      { apply (Hi i).
        - rewrite list_lookup_fmap, Hi1. reflexivity.
        - rewrite list_lookup_fmap, Hi2. reflexivity. }
      apply stored_item_eq in Hs as [Hk Ha].
      simpl in Hk, Ha. subst k'.
      assert (Hin2 : (k, v') ∈ kw2).
      { rewrite <- (sorted_perm kw2). eapply list_elem_of_lookup_2. exact Hi2. }
      apply keywords_lookup in Hin2; [|exact Hnd2]. now rewrite Hin2.
  - intros Hs. pose proof (same_keywords_names _ _ Hnd1 Hnd2 Hs) as Hp.
    pose proof (sorted_names _ _ Hnd1 Hp) as Hn.
    unfold same_keywords in Hs. apply andb_true_iff in Hs as [Hl Hs].
    apply Nat.eqb_eq in Hl. rewrite forallb_forall in Hs.
    split.
    + rewrite !length_fmap. now rewrite (sorted_perm kw1), (sorted_perm kw2).
    + intros i x y Hx Hy. rewrite list_lookup_fmap in Hx, Hy.
      apply fmap_Some in Hx as ([k v] & Hi1 & ->).
      apply fmap_Some in Hy as ([k' v'] & Hi2 & ->).
      apply stored_item_eq. simpl.
      assert (Hk : k = k').
      { assert (E1 : (sorted kw1).*1 !! i = Some k) by now rewrite list_lookup_fmap, Hi1.
        assert (E2 : (sorted kw2).*1 !! i = Some k') by now rewrite list_lookup_fmap, Hi2.
        rewrite Hn in E1. congruence. }
      subst k'. split; [reflexivity|].
      assert (Hin1 : (k, v) ∈ kw1).
      { rewrite <- (sorted_perm kw1). eapply list_elem_of_lookup_2. exact Hi1. }
      assert (Hin2 : (k, v') ∈ kw2).
      { rewrite <- (sorted_perm kw2). eapply list_elem_of_lookup_2. exact Hi2. }
      apply list_elem_of_In in Hin1. specialize (Hs _ Hin1). simpl in Hs.
      apply keywords_lookup in Hin2; [|exact Hnd2]. now rewrite Hin2 in Hs.
Qed.

(** The comparison the cache makes is the comparison of the arguments. *)
Lemma param_value_eq (args1 args2 : list pyval) (kw1 kw2 : kwargs) :
  NoDup kw1.*1 -> NoDup kw2.*1 ->
  py_eq (_make_param_value args1 kw1) (_make_param_value args2 kw2)
  = same_arguments args1 kw1 args2 kw2.
Proof.
  intros Hnd1 Hnd2. unfold _make_param_value, same_arguments.
  rewrite py_eq_tuple. cbn [all_eq]. rewrite !py_eq_tuple, andb_true_r.
  rewrite all_alike_all_eq. f_equal.
  rewrite <- (sorted_items_eq kw1 kw2 Hnd1 Hnd2). reflexivity.
Qed.

Section CacheProperties.
Context {H : Type} `{Connection H}.

Lemma attr_call_cacheable (name : string) (args : list pyval) (kw : kwargs) :
  name ∈ cacheable_methods -> attribute H name = Some Method ->
  attr_call name args kw = cached_method name args kw.
Proof.
  intros Hin Hattr. unfold attr_call, __getattr__.
  rewrite Hattr, bool_decide_true by exact Hin. reflexivity.
Qed.

(** A hit: nothing but the log line happens. *)
Lemma cached_method_hit (name : string) (args : list pyval) (kw : kwargs)
    (w : world H) (v : pyval) :
  cache (conn w) !! _make_cache_key (conn w) name = Some v ->
  py_eq v (_make_param_value args kw) = true ->
  cached_method name args kw w =
    ({| conn := conn w; trace := trace w ++ [CacheHit name args] |}, Returned PyNone).
Proof.
  intros Hlook Heq. unfold cached_method. rewrite Hlook, Heq. reflexivity.
Qed.

(** A miss: the underlying method runs with the very arguments of the call;
    its result is passed on, and the value is recorded when it returns. *)
Lemma cached_method_miss (name : string) (args : list pyval) (kw : kwargs)
    (w : world H) :
  match cache (conn w) !! _make_cache_key (conn w) name with
  | Some v => py_eq v (_make_param_value args kw)
  | None => false
  end = false ->
  cached_method name args kw w =
    let '(h', r) := invoke name args kw (connection (conn w)) in
    ({| conn := {| connection := h';
                   cache := match r with
                            | Returned _ =>
                                <[_make_cache_key (conn w) name :=
                                    _make_param_value args kw]> (cache (conn w))
                            | Raised _ => cache (conn w)
                            end |};
        trace := trace w ++ [CacheMiss name args; HardwareCall name args kw] |}, r).
Proof.
  intros Hmiss. unfold cached_method. rewrite Hmiss.
  unfold mbind, M_bind, emit, original_method, store, mret, M_ret. simpl.
  destruct (invoke name args kw (connection (conn w))) as [h' [r|e]]; simpl;
    rewrite <- app_assoc; reflexivity.
Qed.

(** After a call that returned, the cache holds, under the key of the call,
    a value equal to the one of the call. *)
Lemma cached_after_return (name : string) (args : list pyval) (kw : kwargs)
    (w w1 : world H) (r : pyval) :
  cached_method name args kw w = (w1, Returned r) ->
  exists v, cache (conn w1) !! _make_cache_key (conn w) name = Some v /\
            forall b, py_eq v b = py_eq (_make_param_value args kw) b.
Proof.
  intros Hcall.
  destruct (cache (conn w) !! _make_cache_key (conn w) name) as [v|] eqn:Hlook.
  - destruct (py_eq v (_make_param_value args kw)) eqn:Heq.
    + rewrite (cached_method_hit _ _ _ _ _ Hlook Heq) in Hcall.
      injection Hcall as <- _. exists v. split; [exact Hlook|].
      intros b. now apply py_eq_congr.
    + rewrite cached_method_miss in Hcall by now rewrite Hlook.
      destruct (invoke name args kw (connection (conn w))) as [h' [r'|e]];
        [|discriminate].
      injection Hcall as <- _. simpl. rewrite lookup_insert_eq. eauto.
  - rewrite cached_method_miss in Hcall by now rewrite Hlook.
    destruct (invoke name args kw (connection (conn w))) as [h' [r'|e]];
      [|discriminate].
    injection Hcall as <- _. simpl. rewrite lookup_insert_eq. eauto.
Qed.

(** C8. Right after [reset_cache], a call to a cacheable method enters the
    underlying hardware method with the arguments of the call, whatever the
    cache held before the reset: the call is logged as a miss, the result
    of the hardware method is the result of the call and, when it returns,
    the value of the call is the only cache entry. *)
Theorem reset_cache_forces_hardware_call (name : string) (args : list pyval)
    (kw : kwargs) (w : world H) :
  name ∈ cacheable_methods -> attribute H name = Some Method ->
  (reset_cache;; attr_call name args kw) w =
    let '(h', r) := invoke name args kw (connection (conn w)) in
    ({| conn := {| connection := h';
                   cache := match r with
                            | Returned _ =>
                                {[ _make_cache_key (conn w) name :=
                                     _make_param_value args kw ]}
                            | Raised _ => ∅
                            end |};
        trace := trace w ++ [CacheReset; CacheMiss name args;
                             HardwareCall name args kw] |}, r).
Proof.
  intros Hin Hattr. rewrite attr_call_cacheable by assumption.
  unfold mbind, M_bind, reset_cache.
  rewrite cached_method_miss by (simpl; now rewrite lookup_empty).
  simpl. destruct (invoke name args kw (connection (conn w))) as [h' [r|e]];
    simpl; rewrite <- app_assoc; reflexivity.
Qed.


End CacheProperties.

Ltac in_set :=
  match goal with |- ?P => apply (bool_decide_unpack P); vm_compute; exact I end.

(** C8 on an example: the value cached for [setRate] is the one asked for
    again after the reset, and the hardware is called all the same. *)
Lemma reset_cache_forces_hardware_call_witness :
  let w := {| conn := {| connection := sim_single;
                         cache := {[ "setRate" := _make_param_value [PyFloat 5%float] [] ]} |};
              trace := [] |} in
  (reset_cache;; attr_call "setRate" [PyFloat 5%float] []) w =
    ({| conn := {| connection := sim_single;
                   cache := {[ "setRate" := _make_param_value [PyFloat 5%float] [] ]} |};
        trace := [CacheReset; CacheMiss "setRate" [PyFloat 5%float];
                  HardwareCall "setRate" [PyFloat 5%float] []] |}, Returned PyNone).
Proof.
  intros w.
  assert (Hin : "setRate" ∈ cacheable_methods) by in_set.
  assert (Hattr : attribute sim_pump "setRate" = Some Method) by (vm_compute; reflexivity).
  rewrite (reset_cache_forces_hardware_call "setRate" [PyFloat 5%float] [] w
             Hin Hattr).
  vm_compute; reflexivity.
Defined.



(** ** The pump operation *)

Section MonadLemmas.
Context {H : Type}.

Lemma bind_inv {A B} (m : M H A) (k : A -> M H B) w w' r :
  (m ≫= k) w = (w', r) ->
  (exists w1 a, m w = (w1, Returned a) /\ k a w1 = (w', r)) \/
  (exists e, m w = (w', Raised e) /\ r = Raised e).
Proof.
  unfold mbind, M_bind. destruct (m w) as [w1 [a|e]]; intros E.
  - left. eauto.
  - right. injection E as <- <-. eauto.
Qed.

Lemma emits_bind (P : event -> Prop) {A B} (m : M H A) (k : A -> M H B) :
  emits P m -> (forall a, emits P (k a)) -> emits P (m ≫= k).
Proof.
  intros Hm Hk w w' r E. apply bind_inv in E as [(w1 & a & E1 & E2)|(e & E1 & _)].
  - destruct (Hm _ _ _ E1) as (evs1 & T1 & F1).
    destruct (Hk _ _ _ _ E2) as (evs2 & T2 & F2).
    exists (evs1 ++ evs2). rewrite T2, T1, app_assoc. split; [reflexivity|].
    apply Forall_app; auto.
  - eauto.
Qed.

Lemma emits_ret (P : event -> Prop) {A} (a : A) : emits P (mret a : M H A).
Proof.
  intros w w' r E. injection E as <- _. exists []. rewrite app_nil_r. auto.
Qed.

Lemma emits_raise (P : event -> Prop) {A} (e : exn) : emits P (raise e : M H A).
Proof.
  intros w w' r E. injection E as <- _. exists []. rewrite app_nil_r. auto.
Qed.

Lemma emits_lift (P : event -> Prop) {A} (o : outcome A) : emits P (lift o : M H A).
Proof.
  intros w w' r E. injection E as <- _. exists []. rewrite app_nil_r. auto.
Qed.

Lemma emits_emit (P : event -> Prop) (ev : event) : P ev -> emits P (emit ev : M H unit).
Proof.
  intros HP w w' r E. injection E as <- _. exists [ev]. simpl. auto.
Qed.

Lemma emits_weaken (P Q : event -> Prop) {A} (m : M H A) :
  (forall ev, P ev -> Q ev) -> emits P m -> emits Q m.
Proof.
  intros HPQ Hm w w' r E. destruct (Hm _ _ _ E) as (evs & T & F).
  exists evs. split; [exact T|]. eapply Forall_impl; eauto.
Qed.

Lemma emits_try_except (P : event -> Prop) {A} (m : M H A) (h : exn -> M H A) :
  emits P m -> (forall e, emits P (h e)) -> emits P (try_except m h).
Proof.
  intros Hm Hh w w' r. unfold try_except.
  destruct (m w) as [w1 [a|e]] eqn:E1; intros E.
  - injection E as <- <-. eauto.
  - destruct (Hm _ _ _ E1) as (evs1 & T1 & F1).
    destruct (Hh _ _ _ _ E) as (evs2 & T2 & F2).
    exists (evs1 ++ evs2). rewrite T2, T1, app_assoc. split; [reflexivity|].
    apply Forall_app; auto.
Qed.

Lemma fails_bind_l {A B} (m : M H A) (k : A -> M H B) : fails m -> fails (m ≫= k).
Proof.
  intros Hm w. destruct (Hm w) as (w' & e & E). exists w', e.
  unfold mbind, M_bind. now rewrite E.
Qed.

Lemma fails_bind_r {A B} (m : M H A) (k : A -> M H B) :
  (forall a, fails (k a)) -> fails (m ≫= k).
Proof.
  intros Hk w. unfold mbind, M_bind. destruct (m w) as [w1 [a|e]].
  - apply Hk.
  - eauto.
Qed.

Lemma emits_time_sleep (P : event -> Prop) (d : float) :
  P (Sleep d) -> emits P (time_sleep d : M H unit).
Proof.
  intros HP. unfold time_sleep.
  repeat match goal with |- context [if ?c then _ else _] => destruct c end;
    auto using emits_raise, emits_emit.
Qed.
End MonadLemmas.

Section PumpOperation.
Context {H : Type} `{Connection H}.

Lemma bind_returned {A B} (m : M H A) (k : A -> M H B) w w1 a :
  m w = (w1, Returned a) -> (m ≫= k) w = k a w1.
Proof. intros E. unfold mbind, M_bind. now rewrite E. Qed.

Lemma bind_raised {A B} (m : M H A) (k : A -> M H B) w w1 e :
  m w = (w1, Raised e) -> (m ≫= k) w = (w1, Raised e).
Proof. intros E. unfold mbind, M_bind. now rewrite E. Qed.

Lemma emits_bind_fails (P : event -> Prop) {A B} (m : M H A) (k : A -> M H B) :
  emits P m -> fails m -> emits P (m ≫= k).
Proof.
  intros Hm Hf w w' r E. destruct (Hf w) as (w1 & e & E1).
  rewrite (bind_raised _ _ _ _ _ E1) in E. injection E as <- _. eauto.
Qed.

Lemma emits_original_method (name : string) args kw :
  emits (fun ev => method_of ev = Some name) (original_method name args kw).
Proof.
  intros w w' r. unfold original_method.
  destruct (invoke name args kw (connection (conn w))) as [h' o].
  intros E. injection E as <- _. simpl. eexists. split; [reflexivity|].
  repeat constructor.
Qed.

Lemma emits_cached_method (name : string) args kw :
  emits (fun ev => method_of ev = Some name) (cached_method name args kw).
Proof.
  intros w w' r. unfold cached_method.
  match goal with |- context [if ?c then _ else _] => destruct c end.
  - apply emits_bind; [now apply emits_emit | intros; apply emits_ret].
  - apply emits_bind; [now apply emits_emit | intros _].
    apply emits_bind; [apply emits_original_method | intros result].
    apply emits_bind; [| intros; apply emits_ret].
    intros w0 w0' r0 E. injection E as <- _. exists []. simpl.
    rewrite app_nil_r. auto.
Qed.

Lemma emits_getattr (P : event -> Prop) (name : string) : emits P (__getattr__ name).
Proof.
  unfold __getattr__. destruct (attribute H name) as [[|ty]|];
    [destruct (bool_decide _)|..]; auto using emits_ret, emits_raise.
Qed.

Lemma emits_attr_call (name : string) args kw :
  emits (fun ev => method_of ev = Some name) (attr_call name args kw).
Proof.
  unfold attr_call, __getattr__.
  destruct (attribute H name) as [[|ty]|].
  - destruct (bool_decide _).
    + intros w w' r E. apply (emits_cached_method name args kw w w' r E).
    + intros w w' r E. apply (emits_original_method name args kw w w' r E).
  - intros w w' r E. apply (emits_raise _ _ w w' r E).
  - apply emits_bind_fails; [apply emits_raise|]. intros w. eexists _, _. reflexivity.
Qed.

(** A call to a cacheable method whose underlying method returns: it
    returns, and its events are those of a hit or of a miss. *)
Lemma call_method_returns (name : string) (args : list pyval) :
  name ∈ cacheable_methods -> attribute H name = Some Method ->
  (forall h, exists h' v, invoke name args [] h = (h', Returned v)) ->
  forall w, exists w1 v evs,
    call_method name args w = (w1, Returned v) /\
    trace w1 = trace w ++ evs /\ logged name args evs.
Proof.
  intros Hin Hattr Hret w. unfold call_method.
  rewrite attr_call_cacheable by assumption.
  destruct (match cache (conn w) !! _make_cache_key (conn w) name with
            | Some v => py_eq v (_make_param_value args [])
            | None => false
            end) eqn:Hhit.
  - destruct (cache (conn w) !! _make_cache_key (conn w) name) as [v|] eqn:Hlook;
      [|discriminate].
    rewrite (cached_method_hit _ _ _ _ _ Hlook Hhit).
    eexists _, _, _. split; [reflexivity|]. split; [reflexivity|]. now left.
  - rewrite (cached_method_miss _ _ _ _ Hhit).
    destruct (Hret (connection (conn w))) as (h' & v & E). rewrite E.
    eexists _, _, _. split; [reflexivity|]. split; [reflexivity|]. now right.
Qed.

Lemma emits_call_setter (name : string) args :
  name ∈ setters ->
  emits (fun ev => exists n, method_of ev = Some n /\ n ∈ setters)
        (call_method name args).
Proof.
  intros Hin. eapply emits_weaken; [|apply emits_attr_call].
  intros ev Hev. exists name. auto.
Qed.

Lemma actual_volume_fails : fails (H:=H) actual_volume.
Proof. intros w. eexists _, _. reflexivity. Qed.

Lemma pump_operation_fails cfg volume rate wait_for_completion :
  fails (_execute_pump_operation cfg volume rate wait_for_completion).
Proof.
  unfold _execute_pump_operation.
  do 4 (apply fails_bind_r; intros ?).
  apply fails_bind_l, actual_volume_fails.
Qed.

Lemma pump_operation_emits cfg volume rate wait_for_completion :
  emits (fun ev => exists n, method_of ev = Some n /\ n ∈ setters)
        (_execute_pump_operation cfg volume rate wait_for_completion).
Proof.
  unfold _execute_pump_operation.
  apply emits_bind; [apply emits_call_setter; set_solver | intros _].
  apply emits_bind; [apply emits_call_setter; set_solver | intros _].
  apply emits_bind;
    [destruct (lt_zero volume); apply emits_call_setter; set_solver | intros _].
  apply emits_bind; [apply emits_getattr | intros setVolume].
  apply emits_bind_fails; [apply emits_raise | apply actual_volume_fails].
Qed.

Lemma only_setters_stop_short (evs : list event) :
  Forall (fun ev => exists n, method_of ev = Some n /\ n ∈ setters) evs ->
  stops_short evs.
Proof.
  intros Hall. split; [exact Hall|].
  assert (Hno : forall name, name ∉ setters -> not_entered name evs).
  { intros name Hname args kw Hin.
    rewrite Forall_forall in Hall. destruct (Hall _ Hin) as (n & Hn & Hs).
    injection Hn as <-. contradiction. }
  repeat split; apply Hno; unfold setters; set_solver.
Qed.

Lemma pump_operation_stops_short cfg volume rate wait_for_completion w :
  exists w' e evs,
    _execute_pump_operation cfg volume rate wait_for_completion w = (w', Raised e) /\
    trace w' = trace w ++ evs /\ stops_short evs.
Proof.
  destruct (pump_operation_fails cfg volume rate wait_for_completion w)
    as (w' & e & E).
  destruct (pump_operation_emits _ _ _ _ _ _ _ E) as (evs & T & F).
  exists w', e, evs. auto using only_setters_stop_short.
Qed.

Lemma pump_operation_name_error cfg volume rate wait_for_completion w :
  exposes H ["setUnits"; "setDiameter"; "setMode"; "setVolume"] ->
  always_return H setters ->
  exists w' evs1 evs2 evs3,
    _execute_pump_operation cfg volume rate wait_for_completion w =
      (w', Raised (Exn NameError "name 'actual_volume' is not defined")) /\
    trace w' = trace w ++ evs1 ++ evs2 ++ evs3 /\
    logged "setUnits" [PyStr "mL/min"] evs1 /\
    logged "setDiameter" [to_pyval (diameter cfg)] evs2 /\
    logged "setMode" [PyInt (if lt_zero volume then 1 else 0)] evs3.
Proof.
  intros Hexp Hret.
  assert (Hcall : forall name args w0, name ∈ setters ->
            exists w1 v evs, call_method name args w0 = (w1, Returned v) /\
                             trace w1 = trace w0 ++ evs /\ logged name args evs).
  { intros name args w0 Hname. apply call_method_returns.
    - revert Hname. unfold setters, cacheable_methods. set_solver.
    - apply Hexp. revert Hname. unfold setters. set_solver.
    - intros h. now apply Hret. }
  destruct (Hcall "setUnits" [PyStr "mL/min"] w) as (w1 & v1 & evs1 & E1 & T1 & L1);
    [unfold setters; set_solver|].
  destruct (Hcall "setDiameter" [to_pyval (diameter cfg)] w1)
    as (w2 & v2 & evs2 & E2 & T2 & L2); [unfold setters; set_solver|].
  destruct (Hcall "setMode" [PyInt (if lt_zero volume then 1 else 0)] w2)
    as (w3 & v3 & evs3 & E3 & T3 & L3); [unfold setters; set_solver|].
  exists w3, evs1, evs2, evs3. repeat split; auto.
  - unfold _execute_pump_operation.
    rewrite (bind_returned _ _ _ _ _ E1), (bind_returned _ _ _ _ _ E2).
    assert (E3' : (if lt_zero volume then call_method "setMode" [PyInt 1]
                   else call_method "setMode" [PyInt 0]) w2 = (w3, Returned v3))
      by (destruct (lt_zero volume); exact E3).
    rewrite (bind_returned _ _ _ _ _ E3').
    unfold __getattr__. rewrite (Hexp "setVolume") by set_solver.
    rewrite bool_decide_true by (unfold cacheable_methods; set_solver).
    reflexivity.
  - rewrite T3, T2, T1, <- !app_assoc. reflexivity.
Qed.

Lemma dispatch_pump_fails (ex : StepExecutor H) (st : Step) :
  function st = "pump_volume" \/ function st = "pump_time" ->
  fails (dispatch ex st) /\
  emits (fun ev => exists n, method_of ev = Some n /\ n ∈ setters) (dispatch ex st).
Proof.
  intros [E|E]; unfold dispatch; rewrite E; simpl; split.
  - do 2 (apply fails_bind_r; intros ?). apply fails_bind_l, pump_operation_fails.
  - do 2 (apply emits_bind; [apply emits_lift | intros ?]).
    apply emits_bind_fails; [apply pump_operation_emits | apply pump_operation_fails].
  - do 2 (apply fails_bind_r; intros ?). apply fails_bind_l.
    apply fails_bind_l, pump_operation_fails.
  - do 2 (apply emits_bind; [apply emits_lift | intros ?]).
    apply emits_bind_fails; unfold _pump_time.
    + apply emits_bind_fails; [apply pump_operation_emits | apply pump_operation_fails].
    + apply fails_bind_l, pump_operation_fails.
Qed.

(** C2. The pump operation never gets to the pump.  Whatever the volume,
    the rate and the state: it raises, and the trace shows events of
    [setUnits], [setDiameter] and [setMode] only, so that [setVolume],
    [setRate] and [startPump] are not entered.  On a connection that has
    the methods and whose three setters return, the exception is the
    [NameError] of [actual_volume], raised after the three calls were made,
    in this order and with these arguments.  Hence a [pump_volume] step and
    a [pump_time] step fail, with an error signal, and a jog ends in the
    error log, none having started the pump. *)
Theorem pump_operation_always_raises :
  (forall cfg volume rate wait_for_completion (w : world H),
      exists w' e evs,
        _execute_pump_operation cfg volume rate wait_for_completion w
          = (w', Raised e) /\
        trace w' = trace w ++ evs /\ stops_short evs) /\
  (exposes H ["setUnits"; "setDiameter"; "setMode"; "setVolume"] ->
   always_return H setters ->
   forall cfg volume rate wait_for_completion (w : world H),
      exists w' evs1 evs2 evs3,
        _execute_pump_operation cfg volume rate wait_for_completion w =
          (w', Raised (Exn NameError "name 'actual_volume' is not defined")) /\
        trace w' = trace w ++ evs1 ++ evs2 ++ evs3 /\
        logged "setUnits" [PyStr "mL/min"] evs1 /\
        logged "setDiameter" [to_pyval (diameter cfg)] evs2 /\
        logged "setMode" [PyInt (if lt_zero volume then 1 else 0)] evs3) /\
  (forall (ex : StepExecutor H) (st : Step),
      function st = "pump_volume" \/ function st = "pump_time" ->
      exists ex' evs msg,
        execute_single_step ex st = (ex', false) /\
        trace (shared ex') = trace (shared ex) ++ evs ++ [error_occurred msg] /\
        stops_short evs) /\
  (forall cfg fill_direction rate (w : world H),
      exists w' evs msg,
        start_jog cfg fill_direction rate w = (w', Returned tt) /\
        trace w' = trace w ++ evs ++ [JogError msg] /\
        stops_short evs).
Proof.
  split; [exact pump_operation_stops_short|].
  split; [intros; now apply pump_operation_name_error|].
  split.
  - intros ex st Hfn. destruct (dispatch_pump_fails ex st Hfn) as [Hf He].
    destruct (Hf (shared ex)) as (w' & e & E).
    destruct (He _ _ _ E) as (evs & T & F).
    unfold execute_single_step. rewrite E.
    eexists _, evs, _. split; [reflexivity|]. split.
    + simpl. rewrite T, <- app_assoc. reflexivity.
    + now apply only_setters_stop_short.
  - intros cfg fill_direction rate w.
    destruct (pump_operation_stops_short cfg
                (if fill_direction then Int (-50) else Int 50) rate false w)
      as (w' & e & evs & E & T & S).
    unfold start_jog, try_except. rewrite E.
    eexists _, evs, _. split; [reflexivity|]. split; [|exact S].
    simpl. rewrite T, <- app_assoc. reflexivity.
Qed.
End PumpOperation.

Lemma sim_exposes (names : list string) :
  (forall name, name ∈ names -> name ∈ vendor_methods) -> exposes sim_pump names.
Proof.
  intros Hsub name Hin. simpl. unfold vendor_attribute.
  now rewrite bool_decide_true by auto.
Qed.

Lemma sim_setters_return : always_return sim_pump setters.
Proof.
  intros name args kw h Hin. unfold setters in Hin.
  repeat (apply elem_of_cons in Hin as [->|Hin]; [simpl; eauto|]).
  now apply elem_of_nil in Hin.
Qed.

(** C2 on an example: an infusion of 2 mL at 10 mL/min on the simulated
    pump. *)
Lemma pump_operation_always_raises_witness :
  exists w' evs1 evs2 evs3,
    _execute_pump_operation default_config (Float (-2)%float) 10%float true
      (connected sim_single) =
      (w', Raised (Exn NameError "name 'actual_volume' is not defined")) /\
    trace w' = [] ++ evs1 ++ evs2 ++ evs3 /\
    logged "setUnits" [PyStr "mL/min"] evs1 /\
    logged "setDiameter" [to_pyval (diameter default_config)] evs2 /\
    logged "setMode" [PyInt (if lt_zero (Float (-2)%float) then 1 else 0)] evs3.
Proof.
  assert (Hexp : exposes sim_pump ["setUnits"; "setDiameter"; "setMode"; "setVolume"]).
  { apply sim_exposes. intros name Hin.
    repeat (apply elem_of_cons in Hin as [->|Hin]; [in_set|]).
    now apply elem_of_nil in Hin. }
  exact (proj1 (proj2 (pump_operation_always_raises (H:=sim_pump)))
           Hexp sim_setters_return
           default_config (Float (-2)%float) 10%float true (connected sim_single)).
Defined.

(** C1, at [pump_volume{volume: 1, rate: 2}] on a fresh connection: the mode
    is set to withdraw (0), then the step fails with the [NameError]; the
    hardware is sent no rate at all, although the code means to send
    [abs(rate)]. *)
Theorem pump_volume_sends_no_rate :
  let st := step "pump_volume" [("volume", Float 1%float); ("rate", Float 2%float)] in
  let ex := new_executor [st] (connected sim_single) default_config in
  snd (execute_single_step ex st) = false /\
  trace (shared (fst (execute_single_step ex st))) =
    [ CacheMiss "setUnits" [PyStr "mL/min"];
      HardwareCall "setUnits" [PyStr "mL/min"] [];
      CacheMiss "setDiameter" [to_pyval (diameter default_config)];
      HardwareCall "setDiameter" [to_pyval (diameter default_config)] [];
      CacheMiss "setMode" [PyInt 0];
      HardwareCall "setMode" [PyInt 0] [];
      error_occurred "Step 1: name 'actual_volume' is not defined" ].
Proof. vm_compute. split; reflexivity. Qed.

(** ** The volume of a timed step *)

Lemma Prim2SF_zero : Prim2SF 0%float = S754_zero false.
Proof. reflexivity. Qed.

(** Negating a float above zero gives one below zero. *)
Lemma opp_below_zero (m : float) :
  (0 <? m)%float = true -> (- m <? 0)%float = true.
Proof.
  rewrite !ltb_spec, opp_spec, Prim2SF_zero.
  destruct (Prim2SF m) as [s|s| |s mm e]; try destruct s;
    cbv [SFltb SFcompare SFopp negb]; congruence.
Qed.

Lemma above_zero_not_below (m : float) :
  (0 <? m)%float = true -> (m <? 0)%float = false.
Proof.
  rewrite !ltb_spec, Prim2SF_zero.
  destruct (Prim2SF m) as [s|s| |s mm e]; try destruct s;
    cbv [SFltb SFcompare]; congruence.
Qed.

Section PumpTime.
Context {H : Type} `{Connection H}.

(** C5, amended. A [pump_time] step whose time is [T] and whose rate is [R] runs
    the pump operation on the volume [abs(R)*T/60], negated when [R < 0],
    at the rate [abs(R)] and without a completion wait, then sleeps
    [T + 1] seconds.  Whenever [abs(R)*T/60] is above zero, the volume is
    below zero exactly when [R] is. *)
Theorem pump_time_volume (ex : StepExecutor H) (st : Step) (T R : float) :
  function st = "pump_time" ->
  py_float (get (params st) "time" (Int 1)) = Returned T ->
  py_float (get (params st) "rate" (Int 1)) = Returned R ->
  let m := (abs R * T / 60)%float in
  let volume := if (R <? 0)%float then (- m)%float else m in
  dispatch ex st =
    (_pump_time (config ex) T R;; mret (current_step ex, loop_stack ex)) /\
  _pump_time (config ex) T R =
    (_execute_pump_operation (config ex) (Float volume) (abs R) false;;
     time_sleep (T + 1)%float) /\
  ((0 <? m)%float = true -> (volume <? 0)%float = (R <? 0)%float).
Proof.
  intros Hfn HT HR m volume. split; [|split].
  - unfold dispatch. rewrite Hfn. simpl. rewrite HT, HR. reflexivity.
  - reflexivity.
  - intros Hm. unfold volume. destruct (R <? 0)%float.
    + now apply opp_below_zero.
    + now apply above_zero_not_below.
Qed.
End PumpTime.

(** C5 on an example: 30 seconds at -4 mL/min, a volume of -2 mL. *)
Lemma pump_time_volume_witness :
  let st := step "pump_time" [("time", Float 30%float); ("rate", Float (-4)%float)] in
  let ex := new_executor [st] (connected sim_single) default_config in
  let m := (abs (-4) * 30 / 60)%float in
  let volume := if (-4 <? 0)%float then (- m)%float else m in
  dispatch ex st =
    (_pump_time (config ex) 30%float (-4)%float;;
     mret (current_step ex, loop_stack ex)) /\
  _pump_time (H:=sim_pump) (config ex) 30%float (-4)%float =
    (_execute_pump_operation (config ex) (Float volume) (abs (-4)) false;;
     time_sleep (30 + 1)%float) /\
  ((0 <? m)%float = true -> (volume <? 0)%float = (-4 <? 0)%float).
Proof.
  intros st ex.
  assert (HT : py_float (get (params st) "time" (Int 1)) = Returned 30%float)
    by (vm_compute; reflexivity).
  assert (HR : py_float (get (params st) "rate" (Int 1)) = Returned (-4)%float)
    by (vm_compute; reflexivity).
  exact (pump_time_volume ex st 30%float (-4)%float eq_refl HT HR).
Defined.

(** C5 as stated fails where the time is not positive.  With a negative
    time and a positive rate the volume handed to the pump
    operation is negative, and the mode set is infuse; with a zero time and
    a negative rate the volume is not below zero, and the mode set is
    withdraw. *)
Lemma pump_time_sign_counterexample :
  ((1 <? 0)%float = false /\
   derived_volume (-60)%float 1%float = (-1)%float /\
   (0 <=? derived_volume (-60)%float 1%float)%float = false /\
   let st := step "pump_time" [("time", Float (-60)%float); ("rate", Float 1%float)] in
   let ex := new_executor [st] (connected sim_single) default_config in
   CacheMiss "setMode" [PyInt 1] ∈ trace (shared (fst (execute_single_step ex st)))) /\
  ((-1 <? 0)%float = true /\
   (derived_volume 0%float (-1)%float <? 0)%float = false /\
   let st := step "pump_time" [("time", Float 0%float); ("rate", Float (-1)%float)] in
   let ex := new_executor [st] (connected sim_single) default_config in
   CacheMiss "setMode" [PyInt 0] ∈ trace (shared (fst (execute_single_step ex st)))).
Proof.
  repeat split; try reflexivity.
  - vm_compute. repeat constructor.
  - vm_compute. repeat constructor.
Qed.

(** ** The step interpreter: signals and failure *)

Lemma method_not_signal (ev : event) (name : string) :
  method_of ev = Some name -> is_signal ev = false.
Proof. destruct ev; simpl; congruence. Qed.

Lemma signals_app (l1 l2 : list event) : signals (l1 ++ l2) = signals l1 ++ signals l2.
Proof. apply filter_app. Qed.

Lemma signals_cons (ev : event) (evs : list event) :
  is_signal ev = true -> signals (ev :: evs) = ev :: signals evs.
Proof. intros E. unfold signals. now rewrite filter_cons_True by exact E. Qed.

Lemma signals_none (evs : list event) :
  Forall (fun ev => is_signal ev = false) evs -> signals evs = [].
Proof.
  induction 1 as [|ev evs Hev _ IH]; [reflexivity|].
  unfold signals. rewrite filter_cons_False by congruence. exact IH.
Qed.

Section Interpreter.
Context {H : Type} `{Connection H}.

Lemma call_method_no_signal (name : string) (args : list pyval) :
  emits (fun ev => is_signal ev = false) (call_method name args).
Proof.
  eapply emits_weaken; [|apply emits_attr_call].
  intros ev. apply method_not_signal.
Qed.

Lemma pump_operation_no_signal cfg volume rate wait_for_completion :
  emits (fun ev => is_signal ev = false)
        (_execute_pump_operation cfg volume rate wait_for_completion).
Proof.
  eapply emits_weaken; [|apply pump_operation_emits].
  intros ev (n & Hn & _). now apply method_not_signal with n.
Qed.

Lemma dispatch_no_signal (ex : StepExecutor H) (st : Step) :
  emits (fun ev => is_signal ev = false) (dispatch ex st).
Proof.
  unfold dispatch.
  destruct (function st =? "pump_volume")%string.
  { do 2 (apply emits_bind; [apply emits_lift|intros ?]).
    apply emits_bind; [apply pump_operation_no_signal|intros; apply emits_ret]. }
  destruct (function st =? "pump_time")%string.
  { do 2 (apply emits_bind; [apply emits_lift|intros ?]).
    apply emits_bind; [|intros; apply emits_ret].
    apply emits_bind; [apply pump_operation_no_signal|intros _].
    apply emits_time_sleep; reflexivity. }
  destruct (function st =? "wait")%string.
  { apply emits_bind; [apply emits_lift|intros ?].
    apply emits_bind; [|intros; apply emits_ret].
    apply emits_time_sleep; reflexivity. }
  destruct (function st =? "start_loop")%string.
  { apply emits_bind; [apply emits_lift|intros ?]. apply emits_ret. }
  destruct (function st =? "end_loop")%string; [|apply emits_ret].
  destruct (loop_stack ex); [apply emits_ret|].
  match goal with |- context [if ?c then _ else _] => destruct c end;
    apply emits_ret.
Qed.

(** What [execute_single_step] leaves alone, and what it adds to the trace:
    no signal when it returns [True], the error signal alone when it returns
    [False]. *)
Lemma execute_single_step_frame (ex ex' : StepExecutor H) (st : Step) (ok : bool) :
  execute_single_step ex st = (ex', ok) ->
  steps ex' = steps ex /\ config ex' = config ex /\
  stop_event ex' = stop_event ex /\ pause_event ex' = pause_event ex /\
  exists evs, trace (shared ex') = trace (shared ex) ++ evs /\
    ((ok = true /\ signals evs = []) \/
     (ok = false /\ exists msg, signals evs = [error_occurred msg])).
Proof.
  unfold execute_single_step.
  destruct (dispatch ex st (shared ex)) as [w [[cs ls]|e]] eqn:E;
    intros Hx; injection Hx as <- <-; simpl; repeat split;
    destruct (dispatch_no_signal _ _ _ _ _ E) as (evs & T & F).
  - exists evs. split; [exact T|]. left. split; [reflexivity|].
    now apply signals_none.
  - exists (evs ++ [error_occurred (step_error ex e)]).
    rewrite T, app_assoc. split; [reflexivity|]. right. split; [reflexivity|].
    eexists. rewrite signals_app, (signals_none _ F). reflexivity.
Qed.

Lemma gui_frame (ex : StepExecutor H) (c : gui_call) :
  steps (gui ex c) = steps ex /\ config (gui ex c) = config ex /\
  current_step (gui ex c) = current_step ex /\
  loop_stack (gui ex c) = loop_stack ex /\
  (stop_event ex = true \/ c = call_stop -> stop_event (gui ex c) = true) /\
  exists evs, trace (shared (gui ex c)) = trace (shared ex) ++ evs /\
              signals evs = [].
Proof.
  assert (Hcall : forall name ex0, exists evs,
            trace (fst (call_method name [] (shared ex0))) =
              trace (shared ex0) ++ evs /\ signals evs = []).
  { intros name ex0.
    destruct (call_method name [] (shared ex0)) as [w r] eqn:E.
    destruct (call_method_no_signal _ _ _ _ _ E) as (evs & T & F).
    exists evs. split; [exact T|]. now apply signals_none. }
  assert (Hnil : forall ex0 : StepExecutor H, exists evs,
            trace (shared ex0) = trace (shared ex0) ++ evs /\ signals evs = []).
  { intros ex0. exists []. now rewrite app_nil_r. }
  destruct c; simpl; unfold stop, pause, resume.
  - destruct (hasattr H "stopPump"); simpl; repeat split; auto;
      first [ apply (Hcall "stopPump" (with_events ex true (pause_event ex)))
            | apply (Hnil (with_events ex true (pause_event ex))) ].
  - destruct (hasattr H "pausePump"); simpl; repeat split; auto;
      try (now intros [?|?]);
      first [ apply (Hcall "pausePump" (with_events ex (stop_event ex) true))
            | apply (Hnil (with_events ex (stop_event ex) true)) ].
  - simpl; repeat split; auto; try (now intros [?|?]);
      apply (Hnil (with_events ex (stop_event ex) false)).
Qed.

Lemma gui_calls_frame (cs : list gui_call) (ex : StepExecutor H) :
  steps (foldl gui ex cs) = steps ex /\ config (foldl gui ex cs) = config ex /\
  current_step (foldl gui ex cs) = current_step ex /\
  loop_stack (foldl gui ex cs) = loop_stack ex /\
  (stop_event ex = true \/ call_stop ∈ cs -> stop_event (foldl gui ex cs) = true) /\
  exists evs, trace (shared (foldl gui ex cs)) = trace (shared ex) ++ evs /\
              signals evs = [].
Proof.
  revert ex. induction cs as [|c cs IH]; intros ex; simpl.
  - repeat split; auto.
    + intros [?|Hin]; [assumption|]. now apply elem_of_nil in Hin.
    + exists []. now rewrite app_nil_r.
  - destruct (gui_frame ex c) as (S1 & C1 & P1 & L1 & E1 & evs1 & T1 & N1).
    destruct (IH (gui ex c)) as (S2 & C2 & P2 & L2 & E2 & evs2 & T2 & N2).
    repeat split; try congruence.
    + intros [Hs|Hin]; apply E2.
      * left. apply E1. now left.
      * apply elem_of_cons in Hin as [Hc|Hin]; [left; apply E1; right; congruence|].
        right. exact Hin.
    + exists (evs1 ++ evs2). rewrite T2, T1, app_assoc, signals_app, N1, N2. auto.
Qed.

Lemma finished_in_signals (evs : list event) :
  execution_finished ∈ evs -> execution_finished ∈ signals evs.
Proof. intros Hin. apply list_elem_of_filter. now split. Qed.

Lemma indices_app (l1 l2 : list event) : indices (l1 ++ l2) = indices l1 ++ indices l2.
Proof. apply omap_app. Qed.

Lemma indices_signals (evs : list event) : indices (signals evs) = indices evs.
Proof.
  induction evs as [|ev evs IH]; [reflexivity|].
  unfold signals. destruct (is_signal ev) eqn:E.
  - rewrite filter_cons_True by exact E. destruct ev; simpl; try discriminate;
      fold (signals evs); now rewrite IH.
  - rewrite filter_cons_False by congruence. destruct ev; simpl; try discriminate;
      exact IH.
Qed.

Lemma iteration_frame (cs : list gui_call) (ex : StepExecutor H) :
  exists ex' (leaves : bool) evs,
    iteration cs ex = (if leaves then inl ex' else inr ex') /\
    steps ex' = steps ex /\ config ex' = config ex /\
    trace (shared ex') = trace (shared ex) ++ evs /\
    turn_signals (current_step ex) leaves (signals evs).
Proof.
  destruct (gui_calls_frame cs ex) as (S0 & C0 & P0 & L0 & E0 & evs0 & T0 & N0).
  unfold iteration. set (ex0 := foldl gui ex cs) in *.
  destruct ((current_step ex0 <? length (steps ex0))%nat && negb (stop_event ex0));
    [|exists ex0, true, evs0; repeat split; auto; left; exact N0].
  destruct (pause_event ex0);
    [exists ex0, false, evs0; repeat split; auto; left; exact N0|].
  destruct (steps ex0 !! current_step ex0) as [st|];
    [|exists ex0, true, evs0; repeat split; auto; left; exact N0].
  set (ex1 := signal (step_changed (current_step ex0)) ex0).
  destruct (execute_single_step ex1 st) as [ex2 ok] eqn:E.
  destruct (execute_single_step_frame _ _ _ _ E)
    as (S2 & C2 & _ & _ & evs2 & T2 & Hsig).
  assert (T : trace (shared ex2) =
              trace (shared ex) ++ evs0 ++ [step_changed (current_step ex)] ++ evs2).
  { rewrite T2. unfold ex1. simpl. rewrite T0, P0, <- !app_assoc. reflexivity. }
  destruct Hsig as [[-> N2]|[-> (msg & N2)]].
  - exists (with_position ex2 (current_step ex2 + 1)%nat (loop_stack ex2)), false,
      (evs0 ++ [step_changed (current_step ex)] ++ evs2).
    simpl. split; [reflexivity|]. split; [rewrite S2; exact S0|].
    split; [rewrite C2; exact C0|]. split; [exact T|].
    right. left. split; [reflexivity|].
    rewrite signals_app, N0. simpl. rewrite signals_cons, N2; reflexivity.
  - exists ex2, true, (evs0 ++ [step_changed (current_step ex)] ++ evs2).
    split; [reflexivity|]. split; [rewrite S2; exact S0|].
    split; [rewrite C2; exact C0|]. split; [exact T|].
    right. right. split; [reflexivity|]. exists msg.
    rewrite signals_app, N0. simpl. rewrite signals_cons, N2; reflexivity.
Qed.

Lemma turn_signals_facts (i : nat) (leaves : bool) (sg : list event) :
  turn_signals i leaves sg ->
  (execution_finished ∉ sg) /\ (length (indices sg) <= 1)%nat.
Proof.
  intros [->|[[_ ->]|[_ (msg & ->)]]]; simpl; split; auto; set_solver.
Qed.

(** What a run of the loop adds to the trace: no [execution_finished], and
    at most one [step_changed] per evaluation of the loop condition. *)
Lemma run_frame (fuel : nat) (calls : nat -> list gui_call) (n : nat)
    (ex ex' : StepExecutor H) :
  run fuel calls n ex = Some ex' ->
  steps ex' = steps ex /\ config ex' = config ex /\
  exists evs, trace (shared ex') = trace (shared ex) ++ evs /\
    (execution_finished ∉ evs) /\ (length (indices evs) <= fuel)%nat.
Proof.
  revert n ex. induction fuel as [|fuel IH]; intros n ex; simpl; [discriminate|].
  destruct (iteration_frame (calls n) ex) as (ex1 & leaves & evs1 & -> & S1 & C1 & T1 & G1).
  apply turn_signals_facts in G1 as [F1 I1]. rewrite indices_signals in I1.
  assert (F1' : execution_finished ∉ evs1)
    by (intros Hin; now apply F1, finished_in_signals).
  destruct leaves.
  - intros Hx. injection Hx as <-. repeat split; auto.
    exists evs1. repeat split; auto. lia.
  - intros Hx. destruct (IH _ _ Hx) as (S2 & C2 & evs2 & T2 & F2 & I2).
    repeat split; try congruence.
    exists (evs1 ++ evs2). rewrite T2, T1, app_assoc. repeat split.
    + rewrite elem_of_app. tauto.
    + rewrite indices_app, length_app. lia.
Qed.

Lemma initialize_no_signal (cfg : Config) :
  emits (H:=H) (fun ev => is_signal ev = false) (_initialize_pump_state cfg).
Proof.
  unfold _initialize_pump_state.
  apply emits_bind; [|intros _].
  { destruct (hasattr H "reset_cache"); [|apply emits_ret].
    intros w0 w0' r0 E0. injection E0 as <- _. exists [CacheReset]. simpl. auto. }
  apply emits_bind; [apply call_method_no_signal|intros _].
  apply emits_bind; [apply call_method_no_signal|intros _]. apply emits_ret.
Qed.

Lemma no_signal_facts (evs : list event) :
  Forall (fun ev => is_signal ev = false) evs ->
  (execution_finished ∉ evs) /\ indices evs = [].
Proof.
  intros F. split.
  - intros Hin. rewrite Forall_forall in F. now apply F in Hin.
  - now rewrite <- indices_signals, (signals_none _ F).
Qed.

(** The frame of a whole run: what it adds to the trace ends with the one
    [execution_finished], and holds at most one [step_changed] per
    evaluation of the loop condition. *)
Lemma execute_steps_frame (fuel : nat) (calls : nat -> list gui_call)
    (ex ex' : StepExecutor H) :
  execute_steps fuel calls ex = Some ex' ->
  exists evs, trace (shared ex') = trace (shared ex) ++ evs ++ [execution_finished] /\
    (execution_finished ∉ evs) /\ (length (indices evs) <= fuel)%nat.
Proof.
  unfold execute_steps.
  destruct (_initialize_pump_state (config ex) (shared ex)) as [w [[]|e]] eqn:E;
    destruct (initialize_no_signal _ _ _ _ E) as (evs0 & T0 & F0);
    apply no_signal_facts in F0 as [F0 I0].
  - destruct (run fuel calls 0 _) as [ex1|] eqn:R; [|discriminate].
    intros Hx. injection Hx as <-.
    destruct (run_frame _ _ _ _ _ R) as (_ & _ & evs1 & T1 & F1 & I1).
    exists (evs0 ++ evs1). simpl in *. rewrite T1, T0, <- !app_assoc.
    split; [reflexivity|]. split.
    + rewrite elem_of_app. tauto.
    + rewrite indices_app, length_app, I0. simpl. lia.
  - intros Hx. injection Hx as <-.
    exists (evs0 ++ [error_occurred (exn_str e)]). simpl. rewrite T0, <- !app_assoc.
    split; [reflexivity|]. split.
    + rewrite elem_of_app. intros [Hin|Hin]; [tauto|].
      apply list_elem_of_singleton in Hin. discriminate.
    + rewrite indices_app, length_app, I0. simpl. lia.
Qed.

Lemma iteration_after_stop (cs : list gui_call) (ex : StepExecutor H) :
  call_stop ∈ cs ->
  iteration cs ex = inl (foldl gui ex cs) /\
  exists evs, trace (shared (foldl gui ex cs)) = trace (shared ex) ++ evs /\
              signals evs = [].
Proof.
  intros Hin.
  destruct (gui_calls_frame cs ex) as (_ & _ & _ & _ & E0 & Hevs).
  split; [|exact Hevs].
  unfold iteration. rewrite E0 by now right.
  now rewrite andb_false_r.
Qed.

Lemma run_stops (calls : nat -> list gui_call) (k n : nat) (ex : StepExecutor H) :
  call_stop ∈ calls (n + k)%nat ->
  exists ex' evs, run (S k) calls n ex = Some ex' /\
    trace (shared ex') = trace (shared ex) ++ evs /\
    (execution_finished ∉ evs) /\ (length (indices evs) <= k)%nat.
Proof.
  revert n ex. induction k as [|k IH]; intros n ex Hin.
  - rewrite Nat.add_0_r in Hin.
    destruct (iteration_after_stop _ ex Hin) as (E & evs & T & N).
    exists (foldl gui ex (calls n)), evs. simpl. rewrite E.
    split; [reflexivity|]. split; [exact T|]. split.
    + intros Hf. apply finished_in_signals in Hf. rewrite N in Hf.
      now apply elem_of_nil in Hf.
    + rewrite <- indices_signals, N. simpl. lia.
  - destruct (iteration_frame (calls n) ex)
      as (ex1 & leaves & evs1 & E1 & S1 & C1 & T1 & G1).
    apply turn_signals_facts in G1 as [F1 I1]. rewrite indices_signals in I1.
    assert (F1' : execution_finished ∉ evs1)
      by (intros Hf; now apply F1, finished_in_signals).
    change (run (S (S k)) calls n ex)
      with (match iteration (calls n) ex with
            | inl ex' => Some ex'
            | inr ex' => run (S k) calls (S n) ex'
            end).
    rewrite E1. destruct leaves.
    + exists ex1, evs1. repeat split; auto. lia.
    + destruct (IH (S n) ex1) as (ex2 & evs2 & R2 & T2 & F2 & I2).
      { now replace (S n + k)%nat with (n + S k)%nat by lia. }
      exists ex2, (evs1 ++ evs2). rewrite R2, T2, T1, app_assoc.
      repeat split.
      * rewrite elem_of_app. tauto.
      * rewrite indices_app, length_app. lia.
Qed.

(** C7. Once [stop] has been called, the next evaluation of the loop
    condition leaves the loop: nothing is emitted there, the step that was
    running having run to its end before.  So a run in which [stop] is called
    before the [k]-th evaluation ends within [k+1] evaluations, with at most
    [k] [step_changed] signals, and [execution_finished] emitted once, as
    the last event. *)
Theorem stop_halts_run :
  (forall (cs : list gui_call) (ex : StepExecutor H),
      call_stop ∈ cs ->
      iteration cs ex = inl (foldl gui ex cs) /\
      exists evs, trace (shared (foldl gui ex cs)) = trace (shared ex) ++ evs /\
                  signals evs = []) /\
  (forall (calls : nat -> list gui_call) (k : nat) (ex : StepExecutor H),
      call_stop ∈ calls k ->
      exists ex' evs,
        execute_steps (S k) calls ex = Some ex' /\
        trace (shared ex') = trace (shared ex) ++ evs ++ [execution_finished] /\
        (execution_finished ∉ evs) /\ (length (indices evs) <= k)%nat).
Proof.
  split; [exact iteration_after_stop|].
  intros calls k ex Hin. unfold execute_steps.
  destruct (_initialize_pump_state (config ex) (shared ex)) as [w [[]|e]] eqn:E;
    destruct (initialize_no_signal _ _ _ _ E) as (evs0 & T0 & F0);
    apply no_signal_facts in F0 as [F0 I0].
  - destruct (run_stops calls k 0 (with_position (with_shared ex w) 0 (loop_stack ex)) Hin)
      as (ex1 & evs1 & R & T1 & F1 & I1).
    rewrite R. simpl in *.
    exists (signal execution_finished ex1), (evs0 ++ evs1).
    split; [reflexivity|]. simpl. rewrite T1, T0, <- !app_assoc.
    split; [reflexivity|]. split.
    + rewrite elem_of_app. tauto.
    + rewrite indices_app, length_app, I0. simpl. lia.
  - eexists _, (evs0 ++ [error_occurred (exn_str e)]).
    split; [reflexivity|]. simpl. rewrite T0, <- !app_assoc.
    split; [reflexivity|]. split.
    + rewrite elem_of_app. intros [Hf|Hf]; [tauto|].
      apply list_elem_of_singleton in Hf. discriminate.
    + rewrite indices_app, length_app, I0. simpl. lia.
Qed.
End Interpreter.

(** ** Loops *)

Lemma flatten_item_loop head body tail :
  flatten_item (Loop head body tail) =
    {| function := "start_loop"; params := head |}
      :: flatten body ++ [{| function := "end_loop"; params := tail |}].
Proof.
  reflexivity.
Qed.

Lemma unroll_item_loop off head body tail :
  unroll_item off (Loop head body tail) =
    off :: concat (replicate (passes (iterations_of head))
                     (unroll (S off) body ++ [(S off + length (flatten body))%nat])).
Proof.
  reflexivity.
Qed.

Lemma flatten_app (a b : list item) : flatten (a ++ b) = flatten a ++ flatten b.
Proof.
  induction a as [|x xs IH]; simpl; [reflexivity|]. now rewrite IH, app_assoc.
Qed.

Lemma unroll_app (off : nat) (a b : list item) :
  unroll off (a ++ b) = unroll off a ++ unroll (off + length (flatten a)) b.
Proof.
  revert off. induction a as [|x xs IH]; intros off; simpl.
  - now rewrite Nat.add_0_r.
  - rewrite IH, length_app, <- app_assoc, Nat.add_assoc. reflexivity.
Qed.

Lemma item_nested_ind (P : item -> Prop) :
  (forall s, P (Plain s)) ->
  (forall head body tail, Forall P body -> P (Loop head body tail)) ->
  forall it, P it.
Proof.
  intros P_plain P_loop. fix IH 1.
  intros [s|head body tail]; [apply P_plain|apply P_loop].
  induction body as [|x xs IHl]; constructor; solve [ apply IH | exact IHl ].
Qed.

Lemma passes_pos (n : Z) : (1 <= passes n)%nat.
Proof. unfold passes. lia. Qed.

Lemma passes_3 : passes 3 = 3%nat.
Proof. reflexivity. Qed.

Lemma passes_nonpositive (n : Z) : (n <= 0)%Z -> passes n = 1%nat.
Proof. intros Hn. unfold passes. now rewrite Z.max_l by lia. Qed.

Section Loops.
Context {H : Type} `{Connection H}.

Lemma run_no_calls_shift (fuel n m : nat) (ex : StepExecutor H) :
  run fuel no_calls n ex = run fuel no_calls m ex.
Proof.
  revert n m ex. induction fuel as [|fuel IH]; intros n m ex; simpl; [reflexivity|].
  unfold no_calls at 1 3. destruct (iteration [] ex); [reflexivity|apply IH].
Qed.

Lemma advances_refl (ex : StepExecutor H) : advances 0 ex ex.
Proof. intros fuel. reflexivity. Qed.

Lemma advances_trans (k1 k2 : nat) (a b c : StepExecutor H) :
  advances k1 a b -> advances k2 b c -> advances (k1 + k2) a c.
Proof.
  intros H1 H2 fuel. rewrite <- Nat.add_assoc, H1. apply H2.
Qed.

Lemma advances_step (ex ex' : StepExecutor H) :
  iteration [] ex = inr ex' -> advances 1 ex ex'.
Proof.
  intros E fuel. simpl. unfold no_calls at 1. rewrite E.
  apply run_no_calls_shift.
Qed.

Lemma arrives_refl (ex : StepExecutor H) :
  running ex -> arrives ex ex (current_step ex) (loop_stack ex) [].
Proof.
  intros R. split; [apply advances_refl|].
  repeat split; try apply R. simpl. now rewrite app_nil_r.
Qed.

Lemma arrives_trans (a b c : StepExecutor H) cs1 ls1 v1 cs2 ls2 v2 :
  arrives a b cs1 ls1 v1 -> arrives b c cs2 ls2 v2 ->
  arrives a c cs2 ls2 (v1 ++ v2).
Proof.
  intros (A1 & S1 & C1 & R1 & P1 & L1 & T1) (A2 & S2 & C2 & R2 & P2 & L2 & T2).
  split; [rewrite length_app; now apply advances_trans with b|].
  repeat split; try congruence; try apply R2.
  rewrite T2, T1, map_app, app_assoc. reflexivity.
Qed.

(** One turn of the loop on a step whose dispatch returns. *)
Lemma turn_returned (ex : StepExecutor H) (st : Step) (w : world H) cs ls :
  running ex -> steps ex !! current_step ex = Some st ->
  dispatch ex st (shared (signal (step_changed (current_step ex)) ex))
    = (w, Returned (cs, ls)) ->
  exists ex', arrives ex ex' (cs + 1)%nat ls [current_step ex].
Proof.
  intros [Rs Rp] Hst E.
  set (ex1 := signal (step_changed (current_step ex)) ex).
  assert (E1 : dispatch ex1 st (shared ex1) = (w, Returned (cs, ls))) by exact E.
  destruct (dispatch_no_signal _ _ _ _ _ E1) as (evs & T & F).
  exists (with_position (with_position (with_shared ex1 w) cs ls) (cs + 1)%nat ls).
  split.
  - apply advances_step. unfold iteration. simpl.
    assert (Hlt : (current_step ex <? length (steps ex))%nat = true).
    { apply Nat.ltb_lt. eapply lookup_lt_Some. exact Hst. }
    rewrite Hlt, Rs, Rp, Hst. simpl. fold ex1.
    unfold execute_single_step. rewrite E1. reflexivity.
  - simpl. repeat split; auto.
    rewrite T. unfold ex1. simpl.
    rewrite !signals_app, (signals_none _ F), app_nil_r. reflexivity.
Qed.

Lemma turn_plain (ex : StepExecutor H) (st : Step) :
  completes st -> running ex -> steps ex !! current_step ex = Some st ->
  exists ex', arrives ex ex' (current_step ex + 1)%nat (loop_stack ex)
                [current_step ex].
Proof.
  intros Hc R Hst.
  destruct (Hc (signal (step_changed (current_step ex)) ex)) as (w & E).
  now apply turn_returned with st w.
Qed.

Lemma turn_start_loop (ex : StepExecutor H) head (n : Z) :
  py_int (get head "iterations" (Int 1)) = Returned n ->
  running ex ->
  steps ex !! current_step ex = Some {| function := "start_loop"; params := head |} ->
  exists ex', arrives ex ex' (current_step ex + 1)%nat
                ({| start_index := current_step ex; iterations := n;
                    current_iteration := 0 |} :: loop_stack ex)
                [current_step ex].
Proof.
  intros Hn R Hst. eapply turn_returned; [exact R|exact Hst|].
  unfold dispatch. simpl. rewrite Hn. reflexivity.
Qed.

Lemma turn_end_loop (ex : StepExecutor H) tail (f : LoopFrame) below :
  running ex ->
  steps ex !! current_step ex = Some {| function := "end_loop"; params := tail |} ->
  loop_stack ex = f :: below ->
  exists ex',
    if (current_iteration f + 1 <? iterations f)%Z
    then arrives ex ex' (start_index f + 1)%nat
           ({| start_index := start_index f; iterations := iterations f;
               current_iteration := current_iteration f + 1 |} :: below)
           [current_step ex]
    else arrives ex ex' (current_step ex + 1)%nat below [current_step ex].
Proof.
  intros R Hst Hls.
  destruct (current_iteration f + 1 <? iterations f)%Z eqn:Hlt;
    (eapply turn_returned; [exact R|exact Hst|]);
    unfold dispatch; simpl; rewrite Hls; simpl; rewrite Hlt; reflexivity.
Qed.

(** The loop is left when the position is past the last step. *)
Lemma run_at_end (fuel : nat) (ex : StepExecutor H) :
  current_step ex = length (steps ex) ->
  run (S fuel) no_calls 0 ex = Some ex.
Proof.
  intros Hend. simpl. unfold no_calls, iteration. simpl.
  rewrite Hend, Nat.ltb_irrefl. reflexivity.
Qed.

Lemma arrives_eq (ex ex' : StepExecutor H) cs cs' ls visited visited' :
  cs = cs' -> visited = visited' ->
  arrives ex ex' cs ls visited -> arrives ex ex' cs' ls visited'.
Proof. now intros -> ->. Qed.

(** The passes of one loop.  The executor is at the first step of the body
    with the frame of the loop on top of the stack, [c] passes counted, and
    [r + 1] passes to go: it goes through the body and the [end_loop] that
    many times and leaves the loop with its frame popped. *)
Lemma loop_passes (pre post : list Step) head tail (body : list item) (n : Z)
    (stack : list LoopFrame) (all : list Step) :
  all = pre ++ ({| function := "start_loop"; params := head |}
                  :: flatten body ++ [{| function := "end_loop"; params := tail |}])
            ++ post ->
  (forall ex : StepExecutor H,
      steps ex = all -> current_step ex = S (length pre) -> running ex ->
      exists ex', arrives ex ex' (S (length pre) + length (flatten body))%nat
                    (loop_stack ex) (unroll (S (length pre)) body)) ->
  forall (r : nat) (c : Z) (ex : StepExecutor H),
    (Z.of_nat (S r) + c = Z.max 1 n)%Z -> (0 <= c)%Z ->
    steps ex = all -> current_step ex = S (length pre) ->
    loop_stack ex = {| start_index := length pre; iterations := n;
                       current_iteration := c |} :: stack ->
    running ex ->
    exists ex', arrives ex ex' (length pre + length (flatten body) + 2)%nat stack
                  (concat (replicate (S r)
                     (unroll (S (length pre)) body
                        ++ [(S (length pre) + length (flatten body))%nat]))).
Proof.
  intros Hall Hbody.
  assert (Hend : all !! (S (length pre) + length (flatten body))%nat
                 = Some {| function := "end_loop"; params := tail |}).
  { rewrite Hall.
    replace (pre ++ ({| function := "start_loop"; params := head |}
                       :: flatten body ++ [{| function := "end_loop"; params := tail |}])
                 ++ post)
      with ((pre ++ {| function := "start_loop"; params := head |} :: flatten body)
              ++ {| function := "end_loop"; params := tail |} :: post)
      by (simpl; rewrite <- !app_assoc; reflexivity).
    apply list_lookup_middle. rewrite length_app. simpl. lia. }
  induction r as [|r IH]; intros c ex Hrc Hc Hsteps Hpos Hstack Hrun.
  - destruct (Hbody ex Hsteps Hpos Hrun) as (exm & Am).
    pose proof Am as (_ & Sm & _ & Rm & Pm & Lm & _).
    destruct (turn_end_loop exm tail
                {| start_index := length pre; iterations := n;
                   current_iteration := c |} stack Rm) as (exb & Ab).
    { rewrite Sm, Hsteps, Pm. exact Hend. }
    { rewrite Lm. exact Hstack. }
    simpl in Ab.
    replace (c + 1 <? n)%Z with false in Ab by (symmetry; apply Z.ltb_ge; lia).
    exists exb. eapply arrives_eq; [| |exact (arrives_trans _ _ _ _ _ _ _ _ _ Am Ab)].
    + rewrite Pm. lia.
    + simpl. rewrite app_nil_r, Pm. reflexivity.
  - destruct (Hbody ex Hsteps Hpos Hrun) as (exm & Am).
    pose proof Am as (_ & Sm & _ & Rm & Pm & Lm & _).
    destruct (turn_end_loop exm tail
                {| start_index := length pre; iterations := n;
                   current_iteration := c |} stack Rm) as (exb & Ab).
    { rewrite Sm, Hsteps, Pm. exact Hend. }
    { rewrite Lm. exact Hstack. }
    simpl in Ab.
    replace (c + 1 <? n)%Z with true in Ab by (symmetry; apply Z.ltb_lt; lia).
    pose proof Ab as (_ & Sb & _ & Rb & Pb & Lb & _).
    assert (Sb' : steps exb = all) by congruence.
    assert (Pb' : current_step exb = S (length pre)) by (rewrite Pb; simpl; lia).
    destruct (IH (c + 1)%Z exb ltac:(lia) ltac:(lia) Sb' Pb' Lb Rb) as (ex' & A').
    exists ex'. eapply arrives_eq;
      [reflexivity| |exact (arrives_trans _ _ _ _ _ _ _ _ _
                              (arrives_trans _ _ _ _ _ _ _ _ _ Am Ab) A')].
    rewrite Pm. reflexivity.
Qed.

(** A block of clean items runs from its first step to the step after its
    last one, leaves the loop stack as it found it, and visits the steps in
    the order [unroll] gives. *)
Lemma items_run_from (blk : list item) :
  Forall (fun it => clean it ->
            forall pre post (ex : StepExecutor H),
              steps ex = pre ++ flatten_item it ++ post ->
              current_step ex = length pre -> running ex ->
              exists ex', arrives ex ex' (length pre + length (flatten_item it))%nat
                            (loop_stack ex) (unroll_item (length pre) it)) blk ->
  Forall clean blk ->
  forall pre post (ex : StepExecutor H),
    steps ex = pre ++ flatten blk ++ post ->
    current_step ex = length pre -> running ex ->
    exists ex', arrives ex ex' (length pre + length (flatten blk))%nat
                  (loop_stack ex) (unroll (length pre) blk).
Proof.
  induction 1 as [|x xs Hx _ IH]; intros Hclean pre post ex Hsteps Hpos Hrun.
  - exists ex. eapply arrives_eq; [| |exact (arrives_refl ex Hrun)];
      [simpl; lia|reflexivity].
  - apply Forall_cons in Hclean as [Cx Cxs].
    destruct (Hx Cx pre (flatten xs ++ post) ex) as (ex1 & A1); auto.
    { rewrite Hsteps. simpl. now rewrite <- app_assoc. }
    pose proof A1 as (_ & S1 & _ & R1 & P1 & L1 & _).
    destruct (IH Cxs (pre ++ flatten_item x) post ex1) as (ex2 & A2); auto.
    { rewrite S1, Hsteps. simpl. now rewrite <- !app_assoc. }
    { rewrite P1, length_app. reflexivity. }
    exists ex2. rewrite L1 in A2.
    eapply arrives_eq; [| |exact (arrives_trans _ _ _ _ _ _ _ _ _ A1 A2)].
    + simpl. rewrite !length_app. lia.
    + simpl. rewrite length_app. reflexivity.
Qed.

Lemma item_runs (it : item) :
  clean it ->
  forall pre post (ex : StepExecutor H),
    steps ex = pre ++ flatten_item it ++ post ->
    current_step ex = length pre -> running ex ->
    exists ex', arrives ex ex' (length pre + length (flatten_item it))%nat
                  (loop_stack ex) (unroll_item (length pre) it).
Proof.
  induction it as [s|head body tail IHbody] using item_nested_ind;
    intros Hclean pre post ex Hsteps Hpos Hrun.
  - inversion Hclean as [s' Hc|]; subst.
    destruct (turn_plain ex s Hc Hrun) as (ex' & A).
    { rewrite Hsteps, Hpos. simpl. apply list_lookup_middle. reflexivity. }
    exists ex'. rewrite Hpos in A. simpl. exact A.
  - inversion Hclean as [|head' body' tail' n Hn Cbody]; subst.
    rewrite flatten_item_loop in Hsteps.
    destruct (turn_start_loop ex head n Hn Hrun) as (ex1 & A1).
    { rewrite Hsteps, Hpos. apply list_lookup_middle. reflexivity. }
    pose proof A1 as (_ & S1 & _ & R1 & P1 & L1 & _).
    assert (Hbody : forall ex0 : StepExecutor H,
              steps ex0 = steps ex -> current_step ex0 = S (length pre) ->
              running ex0 ->
              exists ex', arrives ex0 ex' (S (length pre) + length (flatten body))%nat
                            (loop_stack ex0) (unroll (S (length pre)) body)).
    { intros ex0 S0 P0 R0.
      destruct (items_run_from body IHbody Cbody
                  (pre ++ [{| function := "start_loop"; params := head |}])
                  ({| function := "end_loop"; params := tail |} :: post) ex0)
        as (ex0' & A0); auto.
      - rewrite S0, Hsteps. simpl. rewrite <- !app_assoc. reflexivity.
      - rewrite P0, length_app. simpl. lia.
      - exists ex0'. eapply arrives_eq; [| |exact A0];
          rewrite length_app; simpl; rewrite Nat.add_1_r; reflexivity. }
    assert (Hr : (Z.of_nat (S (passes n - 1)) + 0 = Z.max 1 n)%Z)
      by (unfold passes; lia).
    assert (P1' : current_step ex1 = S (length pre)) by (rewrite P1, Hpos; lia).
    assert (L1' : loop_stack ex1 =
                    {| start_index := length pre; iterations := n;
                       current_iteration := 0 |} :: loop_stack ex)
      by (rewrite L1, Hpos; reflexivity).
    destruct (loop_passes pre post head tail body n (loop_stack ex) (steps ex)
                Hsteps Hbody (passes n - 1)%nat 0%Z ex1 Hr ltac:(lia) S1 P1' L1' R1)
      as (ex2 & A2).
    exists ex2. eapply arrives_eq; [| |exact (arrives_trans _ _ _ _ _ _ _ _ _ A1 A2)].
    + rewrite flatten_item_loop. simpl. rewrite length_app. simpl. lia.
    + rewrite unroll_item_loop, Hpos. unfold iterations_of. rewrite Hn.
      replace (S (passes n - 1)) with (passes n) by (pose proof (passes_pos n); lia).
      reflexivity.
Qed.

Lemma items_run (blk : list item) :
  Forall clean blk ->
  forall pre post (ex : StepExecutor H),
    steps ex = pre ++ flatten blk ++ post ->
    current_step ex = length pre -> running ex ->
    exists ex', arrives ex ex' (length pre + length (flatten blk))%nat
                  (loop_stack ex) (unroll (length pre) blk).
Proof.
  intros Hclean. apply items_run_from; [|exact Hclean].
  apply Forall_forall. intros it _. apply item_runs.
Qed.

Lemma time_sleep_sleepable (d : float) (w : world H) :
  sleepable d = true -> time_sleep d w = emit (Sleep d) w.
Proof.
  unfold sleepable, time_sleep. intros E.
  apply andb_prop in E as [E E3]. apply andb_prop in E as [E1 E2].
  apply negb_true_iff in E1, E3. now rewrite E1, E2, E3.
Qed.

(** A [wait] step with an acceptable duration completes. *)
Lemma wait_completes (st : Step) (d : float) :
  function st = "wait" ->
  py_float (get (params st) "time" (Int 1)) = Returned d ->
  sleepable d = true -> completes st.
Proof.
  intros Hfn Hd Hs ex. unfold dispatch. rewrite Hfn. simpl. rewrite Hd.
  unfold _wait, mbind, M_bind, lift. rewrite time_sleep_sleepable by exact Hs.
  eexists. reflexivity.
Qed.

(** A whole program of clean items, run with no call from the GUI on a
    connection whose initialisation returns: the run ends, having announced
    the steps in the order [unroll] gives, then [execution_finished], and no
    other signal. *)
Lemma program_unrolls (blk : list item) (w : world H) (cfg : Config) :
  Forall clean blk ->
  snd (_initialize_pump_state cfg w) = Returned tt ->
  exists ex',
    execute_steps (S (length (unroll 0 blk))) no_calls
      (new_executor (flatten blk) w cfg) = Some ex' /\
    signals (trace (shared ex')) =
      signals (trace w) ++ map step_changed (unroll 0 blk) ++ [execution_finished].
Proof.
  intros Hclean Hinit.
  destruct (_initialize_pump_state cfg w) as [w0 r] eqn:E. simpl in Hinit. subst r.
  destruct (initialize_no_signal _ _ _ _ E) as (evs0 & T0 & F0).
  set (ex0 := with_position (with_shared (new_executor (flatten blk) w cfg) w0) 0 []).
  destruct (items_run blk Hclean [] [] ex0) as (ex1 & A & S1 & _ & R1 & P1 & _ & T1).
  { simpl. now rewrite app_nil_r. }
  { reflexivity. }
  { split; reflexivity. }
  change (length (@nil Step)) with 0%nat in *.
  assert (Hrun : run (S (length (unroll 0 blk))) no_calls 0 ex0 = Some ex1).
  { rewrite <- Nat.add_1_r, (A 1%nat). apply run_at_end.
    rewrite P1, S1. reflexivity. }
  exists (signal execution_finished ex1). split.
  - unfold execute_steps. cbn [new_executor config shared loop_stack].
    rewrite E. fold ex0. rewrite Hrun. reflexivity.
  - cbn [signal with_shared shared emit fst trace].
    rewrite signals_app, T1. cbn [ex0 with_position with_shared shared].
    rewrite T0, signals_app, (signals_none _ F0), app_nil_r.
    rewrite <- app_assoc. reflexivity.
Qed.

(** The steps a block visits lie in the block. *)
Lemma unroll_item_range (it : item) (off : nat) :
  Forall (fun i => off <= i < off + length (flatten_item it))%nat (unroll_item off it).
Proof.
  revert off. induction it as [s|head body tail IHbody] using item_nested_ind;
    intros off.
  - simpl. repeat constructor; lia.
  - rewrite unroll_item_loop, flatten_item_loop. simpl. rewrite length_app. simpl.
    assert (Hb : forall o, Forall (fun i => o <= i < o + length (flatten body))%nat
                             (unroll o body)).
    { clear -IHbody. induction IHbody as [|x xs Hx _ IH]; intros o; simpl;
        [constructor|].
      rewrite length_app. apply Forall_app. split.
      - eapply Forall_impl; [apply Hx|]. simpl. intros i Hi. lia.
      - eapply Forall_impl; [apply IH|]. simpl. intros i Hi. lia. }
    constructor; [lia|].
    induction (passes (iterations_of head)) as [|p IHp]; simpl; [constructor|].
    rewrite <- app_assoc. apply Forall_app. split; [|apply Forall_app; split].
    + eapply Forall_impl; [apply Hb|]. simpl. intros i Hi. lia.
    + repeat constructor; lia.
    + exact IHp.
Qed.

Lemma unroll_range (blk : list item) (off : nat) :
  Forall (fun i => off <= i < off + length (flatten blk))%nat (unroll off blk).
Proof.
  revert off. induction blk as [|x xs IH]; intros off; simpl; [constructor|].
  rewrite length_app. apply Forall_app. split.
  - eapply Forall_impl; [apply unroll_item_range|]. simpl. intros i Hi. lia.
  - eapply Forall_impl; [apply IH|]. simpl. intros i Hi. lia.
Qed.

Lemma visits_app (i : nat) (l1 l2 : list nat) :
  visits i (l1 ++ l2) = (visits i l1 + visits i l2)%nat.
Proof. apply count_occ_app. Qed.

Lemma visits_outside (i : nat) (l : list nat) (P : nat -> Prop) :
  Forall P l -> ~ P i -> visits i l = 0%nat.
Proof.
  intros F Hn. apply count_occ_not_In. intros Hin.
  rewrite Forall_forall in F. apply Hn, F. now apply list_elem_of_In.
Qed.

Lemma visits_concat_replicate (i k : nat) (l : list nat) :
  visits i (concat (replicate k l)) = (k * visits i l)%nat.
Proof.
  induction k as [|k IH]; simpl; [reflexivity|]. now rewrite visits_app, IH.
Qed.

(** A program with a loop that no other loop encloses, all items clean: the
    run ends, and it goes through the body and the [end_loop] of that loop
    [passes n] times in a row, [n] being the iteration count of the loop. *)
Lemma program_with_loop (before body after : list item) head tail (n : Z)
    (w : world H) (cfg : Config) :
  Forall clean before -> Forall clean body -> Forall clean after ->
  py_int (get head "iterations" (Int 1)) = Returned n ->
  snd (_initialize_pump_state cfg w) = Returned tt ->
  let program := flatten (before ++ [Loop head body tail] ++ after) in
  let p := length (flatten before) in
  let e := (S p + length (flatten body))%nat in
  let one_pass := unroll (S p) body ++ [e] in
  let visited := unroll 0 before ++ [p] ++ concat (replicate (passes n) one_pass)
                   ++ unroll (S e) after in
  (exists ex',
      execute_steps (S (length visited)) no_calls (new_executor program w cfg)
        = Some ex' /\
      signals (trace (shared ex')) =
        signals (trace w) ++ map step_changed visited ++ [execution_finished]) /\
  (forall i, (p < i <= e)%nat -> visits i visited = (passes n * visits i one_pass)%nat).
Proof.
  intros Cb Cbody Ca Hn Hinit program p e one_pass visited.
  assert (Hv : unroll 0 (before ++ [Loop head body tail] ++ after) = visited).
  { rewrite unroll_app. cbn [app unroll].
    rewrite unroll_item_loop, flatten_item_loop.
    unfold iterations_of. rewrite Hn. cbn [length]. rewrite length_app.
    cbn [length Nat.add].
    replace (length (flatten before) + S (length (flatten body) + 1))%nat
      with (S (S (length (flatten before)) + length (flatten body))) by lia.
    reflexivity. }
  split.
  - destruct (program_unrolls (before ++ [Loop head body tail] ++ after) w cfg)
      as (ex' & E & T); auto.
    { apply Forall_app. split; [exact Cb|]. apply Forall_app. split; [|exact Ca].
      constructor; [|constructor]. now apply clean_loop with n. }
    rewrite Hv in E, T. eauto.
  - intros i Hi. unfold visited. rewrite !visits_app, visits_concat_replicate.
    rewrite (visits_outside i (unroll 0 before) _ (unroll_range before 0)) by (fold p; lia).
    rewrite (visits_outside i (unroll (S e) after) _ (unroll_range after (S e))) by lia.
    assert (Hp : visits i [p] = 0%nat).
    { unfold visits. simpl. destruct (Nat.eq_dec p i); [lia|reflexivity]. }
    rewrite Hp. lia.
Qed.

(** C3, amended.  A program of well-nested loops whose steps all return, run
    by [execute_steps] with no call from the GUI on a connection whose
    initialisation returns, and in it a [start_loop] with [iterations = 3]
    that no other loop encloses, with its body (of any length) and its
    [end_loop]: the run ends, and it goes through the body and the
    [end_loop] exactly three times in a row; every step of the loop is
    executed, in total, three times as often as in one pass. *)
Theorem loop_of_three (before body after : list item) head tail
    (w : world H) (cfg : Config) :
  Forall clean before -> Forall clean body -> Forall clean after ->
  py_int (get head "iterations" (Int 1)) = Returned 3%Z ->
  snd (_initialize_pump_state cfg w) = Returned tt ->
  let program := flatten (before ++ [Loop head body tail] ++ after) in
  let p := length (flatten before) in
  let e := (S p + length (flatten body))%nat in
  let one_pass := unroll (S p) body ++ [e] in
  let visited := unroll 0 before ++ [p] ++ one_pass ++ one_pass ++ one_pass
                   ++ unroll (S e) after in
  (exists ex',
      execute_steps (S (length visited)) no_calls (new_executor program w cfg)
        = Some ex' /\
      signals (trace (shared ex')) =
        signals (trace w) ++ map step_changed visited ++ [execution_finished]) /\
  (forall i, (p < i <= e)%nat -> visits i visited = (3 * visits i one_pass)%nat).
Proof.
  intros Cb Cbody Ca Hn Hinit.
  pose proof (program_with_loop before body after head tail 3 w cfg
                Cb Cbody Ca Hn Hinit) as Hp.
  rewrite passes_3 in Hp. cbn [replicate concat] in Hp.
  rewrite app_nil_r, <- !app_assoc in Hp.
  intros program p e one_pass visited. subst program p e one_pass visited.
  rewrite <- !app_assoc. exact Hp.
Qed.

(** C10, amended.  The same for a [start_loop] whose iteration count [n] is
    zero or negative: the run goes through the body and the [end_loop]
    exactly once, the frame being popped at the first [end_loop]; every step
    of the loop is executed, in total, as often as in one pass. *)
Theorem loop_of_nonpositive_count (before body after : list item) head tail (n : Z)
    (w : world H) (cfg : Config) :
  Forall clean before -> Forall clean body -> Forall clean after ->
  py_int (get head "iterations" (Int 1)) = Returned n -> (n <= 0)%Z ->
  snd (_initialize_pump_state cfg w) = Returned tt ->
  let program := flatten (before ++ [Loop head body tail] ++ after) in
  let p := length (flatten before) in
  let e := (S p + length (flatten body))%nat in
  let one_pass := unroll (S p) body ++ [e] in
  let visited := unroll 0 before ++ [p] ++ one_pass ++ unroll (S e) after in
  (exists ex',
      execute_steps (S (length visited)) no_calls (new_executor program w cfg)
        = Some ex' /\
      signals (trace (shared ex')) =
        signals (trace w) ++ map step_changed visited ++ [execution_finished]) /\
  (forall i, (p < i <= e)%nat -> visits i visited = visits i one_pass).
Proof.
  intros Cb Cbody Ca Hn Hle Hinit.
  pose proof (program_with_loop before body after head tail n w cfg
                Cb Cbody Ca Hn Hinit) as Hp.
  rewrite (passes_nonpositive n Hle) in Hp. cbn [replicate concat] in Hp.
  rewrite app_nil_r, <- !app_assoc in Hp.
  intros program p e one_pass visited. subst program p e one_pass visited.
  rewrite <- !app_assoc.
  destruct Hp as [Hrun Hcount]. split; [exact Hrun|].
  intros i Hi. rewrite (Hcount i Hi). lia.
Qed.
End Loops.

(** ** Every run that is not paused ends *)

Lemma frames_cost_cons (all : list Step) (f : LoopFrame) (stack : list LoopFrame) :
  frames_cost all (f :: stack) =
    (rewinds_left f * cost (drop (S (start_index f)) all) + frames_cost all stack)%nat.
Proof. reflexivity. Qed.

Lemma next_position_decreases (all : list Step) (pc : nat)
    (stack : list LoopFrame) (st : Step) :
  all !! pc = Some st ->
  (cost (drop (fst (next_position pc stack st) + 1) all)
   + frames_cost all (snd (next_position pc stack st))
   < cost (drop pc all) + frames_cost all stack)%nat.
Proof.
  intros Hst.
  rewrite (drop_S _ _ _ Hst). cbn [cost].
  remember (cost (drop (S pc) all)) as r eqn:Hr.
  unfold next_position.
  destruct (function st =? "start_loop")%string eqn:Hsl.
  - cbn [fst snd]. rewrite Nat.add_1_r, frames_cost_cons, <- Hr.
    unfold loop_cost, iterations_of, rewinds_left. rewrite Hsl.
    cbn [iterations current_iteration start_index].
    generalize (frames_cost all stack). intros fc.
    destruct (py_int (get (params st) "iterations" (Int 1))) as [n|e].
    + assert (Z.to_nat (n - 0 - 1) <= passes n)%nat by (unfold passes; lia).
      nia.
    + simpl. lia.
  - destruct (function st =? "end_loop")%string; [destruct stack as [|f below]|];
      try (cbn [fst snd]; rewrite Nat.add_1_r, <- Hr; lia).
    destruct (current_iteration f + 1 <? iterations f)%Z eqn:Hlt.
    + apply Z.ltb_lt in Hlt. cbn [fst snd].
      rewrite !frames_cost_cons, Nat.add_1_r.
      unfold rewinds_left. cbn [iterations current_iteration start_index].
      generalize (frames_cost all below) (cost (drop (S (start_index f)) all)).
      intros fc X.
      replace (Z.to_nat (iterations f - current_iteration f - 1))
        with (S (Z.to_nat (iterations f - (current_iteration f + 1) - 1))) by lia.
      nia.
    + cbn [fst snd]. rewrite frames_cost_cons, Nat.add_1_r, <- Hr. lia.
Qed.

Section Termination.
Context {H : Type} `{Connection H}.

(** The position a dispatch that returns gives is [next_position]. *)
Lemma dispatch_returned (ex : StepExecutor H) (st : Step) (w w' : world H)
    (p : nat * list LoopFrame) :
  dispatch ex st w = (w', Returned p) ->
  p = next_position (current_step ex) (loop_stack ex) st.
Proof.
  unfold next_position.
  destruct (function st =? "pump_volume")%string eqn:E1.
  { intros Hd. pose proof (proj1 (String.eqb_eq _ _) E1) as N1.
    destruct (proj1 (dispatch_pump_fails ex st (or_introl N1)) w) as (w1 & e & Hf).
    congruence. }
  destruct (function st =? "pump_time")%string eqn:E2.
  { intros Hd. pose proof (proj1 (String.eqb_eq _ _) E2) as N2.
    destruct (proj1 (dispatch_pump_fails ex st (or_intror N2)) w) as (w1 & e & Hf).
    congruence. }
  unfold dispatch. rewrite E1, E2.
  destruct (function st =? "wait")%string eqn:E3.
  { apply String.eqb_eq in E3. rewrite E3. simpl. intros Hd.
    apply bind_inv in Hd as [(w1 & d & _ & Hd)|(e & _ & ?)]; [|discriminate].
    apply bind_inv in Hd as [(w2 & [] & _ & Hd)|(e & _ & ?)]; [|discriminate].
    now injection Hd as _ <-. }
  destruct (function st =? "start_loop")%string eqn:E4.
  { intros Hd.
    apply bind_inv in Hd as [(w1 & n & Hn & Hd)|(e & _ & ?)]; [|discriminate].
    injection Hd as _ <-. unfold iterations_of.
    unfold lift in Hn. injection Hn as _ Hn. now rewrite Hn. }
  destruct (function st =? "end_loop")%string eqn:E5.
  { destruct (loop_stack ex) as [|f below].
    - intros Hd. now injection Hd as _ <-.
    - simpl. destruct (current_iteration f + 1 <? iterations f)%Z;
        intros Hd; now injection Hd as _ <-. }
  intros Hd. now injection Hd as _ <-.
Qed.

Lemma gui_calls_no_pause (cs : list gui_call) (ex : StepExecutor H) :
  call_pause ∉ cs -> pause_event ex = false ->
  pause_event (foldl gui ex cs) = false.
Proof.
  revert ex. induction cs as [|c cs IH]; intros ex Hno Hp; [exact Hp|].
  simpl. apply IH.
  - intros Hin. apply Hno. now right.
  - destruct c; simpl; unfold stop, resume.
    + destruct (hasattr H "stopPump"); exact Hp.
    + exfalso. apply Hno. now left.
    + reflexivity.
Qed.

(** A turn of a loop that is not paused either leaves the loop or uses up
    some of what is left of the run. *)
Lemma iteration_decreases (cs : list gui_call) (ex ex' : StepExecutor H) :
  call_pause ∉ cs -> pause_event ex = false ->
  iteration cs ex = inr ex' ->
  pause_event ex' = false /\ (turns_left ex' < turns_left ex)%nat.
Proof.
  intros Hno Hp.
  destruct (gui_calls_frame cs ex) as (S0 & _ & P0 & L0 & _).
  pose proof (gui_calls_no_pause cs ex Hno Hp) as Hp0.
  unfold iteration. set (ex0 := foldl gui ex cs) in *.
  destruct ((current_step ex0 <? length (steps ex0))%nat && negb (stop_event ex0));
    [|discriminate].
  rewrite Hp0.
  destruct (steps ex0 !! current_step ex0) as [st|] eqn:Hst; [|discriminate].
  set (ex1 := signal (step_changed (current_step ex0)) ex0).
  unfold execute_single_step.
  destruct (dispatch ex1 st (shared ex1)) as [w [[cs' ls']|e]] eqn:Hd; [|discriminate].
  intros Hx. injection Hx as <-.
  apply dispatch_returned in Hd. split; [exact Hp0|].
  unfold turns_left. cbn [with_position with_shared steps current_step loop_stack].
  change (steps ex1) with (steps ex0). rewrite <- S0, <- P0, <- L0.
  change (current_step ex1) with (current_step ex0) in Hd.
  change (loop_stack ex1) with (loop_stack ex0) in Hd.
  pose proof (next_position_decreases _ _ (loop_stack ex0) _ Hst) as Hlt.
  rewrite <- Hd in Hlt. exact Hlt.
Qed.

Lemma run_terminates (calls : nat -> list gui_call) (m n : nat) (ex : StepExecutor H) :
  (forall k, call_pause ∉ calls k) -> pause_event ex = false ->
  (turns_left ex <= m)%nat ->
  exists ex', run (S m) calls n ex = Some ex'.
Proof.
  intros Hno. revert n ex. induction m as [|m IH]; intros n ex Hp Hm;
    cbn [run]; destruct (iteration (calls n) ex) as [ex1|ex1] eqn:E; eauto;
    destruct (iteration_decreases _ _ _ (Hno n) Hp E) as [Hp1 Hlt].
  - lia.
  - apply IH; [exact Hp1|lia].
Qed.

Lemma execute_steps_terminates (calls : nat -> list gui_call) (ex : StepExecutor H) :
  (forall k, call_pause ∉ calls k) -> pause_event ex = false ->
  exists ex',
    execute_steps (S (cost (steps ex) + frames_cost (steps ex) (loop_stack ex)))
      calls ex = Some ex'.
Proof.
  intros Hno Hp. unfold execute_steps.
  destruct (_initialize_pump_state (config ex) (shared ex)) as [w [[]|e]]; [|eauto].
  destruct (run_terminates calls
              (cost (steps ex) + frames_cost (steps ex) (loop_stack ex)) 0
              (with_position (with_shared ex w) 0 (loop_stack ex)) Hno Hp)
    as (ex' & E); [reflexivity|].
  rewrite E. eauto.
Qed.
End Termination.

Section FailurePolicy.
Context {H : Type} `{Connection H}.

End FailurePolicy.



(** A wait of zero seconds completes. *)
Lemma wait_zero_clean : clean (H:=sim_pump) (Plain (wait 0%float)).
Proof.
  constructor. apply wait_completes with 0%float; vm_compute; reflexivity.
Qed.

(** C3 on an example: a loop of three around one wait. *)
Lemma loop_of_three_witness :
  let before : list item := [] in
  let body := [Plain (wait 0%float)] in
  let after : list item := [] in
  let head : gmap string number := {[ "iterations" := Int 3 ]} in
  let tail : gmap string number := ∅ in
  let w := connected sim_single in
  let program := flatten (before ++ [Loop head body tail] ++ after) in
  let p := length (flatten before) in
  let e := (S p + length (flatten body))%nat in
  let one_pass := unroll (S p) body ++ [e] in
  let visited := unroll 0 before ++ [p] ++ one_pass ++ one_pass ++ one_pass
                   ++ unroll (S e) after in
  (exists ex',
      execute_steps (S (length visited)) no_calls
        (new_executor program w default_config) = Some ex' /\
      signals (trace (shared ex')) =
        signals (trace w) ++ map step_changed visited ++ [execution_finished]) /\
  (forall i, (p < i <= e)%nat -> visits i visited = (3 * visits i one_pass)%nat).
Proof.
  intros before body after head tail w.
  assert (Hn : py_int (get head "iterations" (Int 1)) = Returned 3%Z)
    by (vm_compute; reflexivity).
  assert (Hinit : snd (_initialize_pump_state default_config w) = Returned tt)
    by (vm_compute; reflexivity).
  assert (Hnil : Forall (clean (H:=sim_pump)) []) by constructor.
  assert (Hbody : Forall (clean (H:=sim_pump)) body)
    by (constructor; [exact wait_zero_clean|constructor]).
  exact (loop_of_three before body after head tail w default_config
           Hnil Hbody Hnil Hn Hinit).
Defined.

(** C10 on an example: a loop of -2 around one wait. *)
Lemma loop_of_nonpositive_count_witness :
  let before : list item := [] in
  let body := [Plain (wait 0%float)] in
  let after : list item := [] in
  let head : gmap string number := {[ "iterations" := Int (-2) ]} in
  let tail : gmap string number := ∅ in
  let w := connected sim_single in
  let program := flatten (before ++ [Loop head body tail] ++ after) in
  let p := length (flatten before) in
  let e := (S p + length (flatten body))%nat in
  let one_pass := unroll (S p) body ++ [e] in
  let visited := unroll 0 before ++ [p] ++ one_pass ++ unroll (S e) after in
  (exists ex',
      execute_steps (S (length visited)) no_calls
        (new_executor program w default_config) = Some ex' /\
      signals (trace (shared ex')) =
        signals (trace w) ++ map step_changed visited ++ [execution_finished]) /\
  (forall i, (p < i <= e)%nat -> visits i visited = visits i one_pass).
Proof.
  intros before body after head tail w.
  assert (Hn : py_int (get head "iterations" (Int 1)) = Returned (-2)%Z)
    by (vm_compute; reflexivity).
  assert (Hle : (-2 <= 0)%Z) by lia.
  assert (Hinit : snd (_initialize_pump_state default_config w) = Returned tt)
    by (vm_compute; reflexivity).
  assert (Hnil : Forall (clean (H:=sim_pump)) []) by constructor.
  assert (Hbody : Forall (clean (H:=sim_pump)) body)
    by (constructor; [exact wait_zero_clean|constructor]).
  exact (loop_of_nonpositive_count before body after head tail (-2) w default_config
           Hnil Hbody Hnil Hn Hle Hinit).
Defined.

(** What a run announces and how it ends, on examples. *)
Example play_loop_of_three :
  (fun ex => indices (trace (shared ex))) <$>
    play [start_loop 3; wait 0%float; end_loop] = Some [0; 1; 2; 1; 2; 1; 2]%nat.
Proof. vm_compute. reflexivity. Qed.

Example play_loop_of_zero :
  (fun ex => indices (trace (shared ex))) <$>
    play [start_loop 0; wait 0%float; end_loop] = Some [0; 1; 2]%nat.
Proof. vm_compute. reflexivity. Qed.

(** C3 as stated fails on these programs.  A loop of three inside a loop of
    two goes through its body six times in all; a body whose step raises is gone through once, and only as far as
    that step. *)
Lemma loop_of_three_counterexample :
  (exists ex,
      play [start_loop 2; start_loop 3; wait 0%float; end_loop; end_loop] = Some ex /\
      indices (trace (shared ex)) =
        [0; 1; 2; 3; 2; 3; 2; 3; 4; 1; 2; 3; 2; 3; 2; 3; 4]%nat /\
      visits 2 (indices (trace (shared ex))) = 6%nat) /\
  (exists ex,
      play [start_loop 3; wait (-1)%float; wait 0%float; end_loop] = Some ex /\
      signals (trace (shared ex)) =
        [step_changed 0; step_changed 1;
         error_occurred "Step 2: sleep length must be non-negative";
         execution_finished] /\
      visits 1 (indices (trace (shared ex))) = 1%nat /\
      visits 2 (indices (trace (shared ex))) = 0%nat).
Proof.
  split; eexists; (split; [vm_compute; reflexivity|]); vm_compute; repeat split.
Qed.

(** C10 as stated fails on these programs.  A loop of zero inside a loop of
    two goes through its body twice in all;
    a body whose first step raises has its second step never executed. *)
Lemma loop_of_nonpositive_count_counterexample :
  (exists ex,
      play [start_loop 2; start_loop 0; wait 0%float; end_loop; end_loop] = Some ex /\
      indices (trace (shared ex)) = [0; 1; 2; 3; 4; 1; 2; 3; 4]%nat /\
      visits 2 (indices (trace (shared ex))) = 2%nat) /\
  (exists ex,
      play [start_loop 0; wait (-1)%float; wait 0%float; end_loop] = Some ex /\
      signals (trace (shared ex)) =
        [step_changed 0; step_changed 1;
         error_occurred "Step 2: sleep length must be non-negative";
         execution_finished] /\
      visits 2 (indices (trace (shared ex))) = 0%nat).
Proof.
  split; eexists; (split; [vm_compute; reflexivity|]); vm_compute; repeat split.
Qed.

(** C7 on an example: three waits, and a stop before the second evaluation
    of the loop condition. *)
Lemma stop_halts_run_witness :
  let calls := fun n : nat => if (n =? 1)%nat then [call_stop] else [] in
  let ex := new_executor [wait 0%float; wait 0%float; wait 0%float]
              (connected sim_single) default_config in
  exists ex' evs,
    execute_steps 2 calls ex = Some ex' /\
    trace (shared ex') = trace (shared ex) ++ evs ++ [execution_finished] /\
    (execution_finished ∉ evs) /\ (length (indices evs) <= 1)%nat.
Proof.
  intros calls ex.
  assert (Hin : call_stop ∈ calls 1%nat) by (vm_compute; constructor).
  exact (proj2 stop_halts_run calls 1%nat ex Hin).
Defined.

(** ** Further examples *)

(** A stop requested while the first of three waits runs: the wait runs to
    its end, the pump is told to stop, and nothing but
    [execution_finished] follows. *)
Example play_stopped :
  let calls := fun n : nat => if (n =? 1)%nat then [call_stop] else [] in
  (fun ex => trace (shared ex)) <$>
    execute_steps 10 calls
      (new_executor [wait 0%float; wait 0%float; wait 0%float]
         {| conn := {| connection := sim_single; cache := ∅ |}; trace := [] |}
         default_config)
  = Some [ CacheReset;
           CacheMiss "setUnits" [PyStr "mL/min"];
           HardwareCall "setUnits" [PyStr "mL/min"] [];
           CacheMiss "setDiameter" [to_pyval (diameter default_config)];
           HardwareCall "setDiameter" [to_pyval (diameter default_config)] [];
           step_changed 0; Sleep 0%float;
           HardwareCall "stopPump" [] [];
           execution_finished ].
Proof. vm_compute. reflexivity. Qed.

(** A paused executor comes back to the loop condition until it is resumed,
    and announces no step meanwhile. *)
Example play_paused :
  let calls := fun n : nat =>
    if (n =? 1)%nat then [call_pause]
    else if (n =? 4)%nat then [call_resume] else [] in
  (fun ex => signals (trace (shared ex))) <$>
    execute_steps 10 calls
      (new_executor [wait 0%float; wait 0%float] (connected sim_single) default_config)
  = Some [step_changed 0; step_changed 1; execution_finished].
Proof. vm_compute. reflexivity. Qed.

(** On a connection whose methods raise, the initialisation fails: the run
    reports the error without a step number and finishes. *)
Example play_dead_pump :
  (fun ex => signals (trace (shared ex))) <$>
    execute_steps 10 no_calls
      (new_executor [wait 0%float] (connected dead) default_config)
  = Some [error_occurred "could not write to port"; execution_finished].
Proof. vm_compute. reflexivity. Qed.

(** The cache is kept per pump: on a multi-pump connection [setPump] moves
    the key, so the same call made again reaches the hardware again. *)
Example set_pump_twice :
  trace (fst ((attr_call "setPump" [PyInt 2] [];; attr_call "setPump" [PyInt 2] [])
                (connected sim_multi)))
  = [ CacheMiss "setPump" [PyInt 2]; HardwareCall "setPump" [PyInt 2] [];
      CacheMiss "setPump" [PyInt 2]; HardwareCall "setPump" [PyInt 2] [] ].
Proof. vm_compute. reflexivity. Qed.

(** A loop around a pump step is left in its first pass, by the
    [NameError] of the pump operation. *)
Example play_loop_of_pump_steps :
  (fun ex => signals (trace (shared ex))) <$>
    play [start_loop 3;
          step "pump_volume" [("volume", Float 1%float); ("rate", Float 2%float)];
          end_loop]
  = Some [step_changed 0; step_changed 1;
          error_occurred "Step 2: name 'actual_volume' is not defined";
          execution_finished].
Proof. vm_compute. reflexivity. Qed.

(** A jog ends in the error log. *)
Example jog_fill :
  trace (fst (start_jog default_config true 5%float (connected sim_single)))
  = [ CacheMiss "setUnits" [PyStr "mL/min"];
      HardwareCall "setUnits" [PyStr "mL/min"] [];
      CacheMiss "setDiameter" [to_pyval (diameter default_config)];
      HardwareCall "setDiameter" [to_pyval (diameter default_config)] [];
      CacheMiss "setMode" [PyInt 1];
      HardwareCall "setMode" [PyInt 1] [];
      JogError "Jog error: name 'actual_volume' is not defined" ].
Proof. vm_compute. reflexivity. Qed.

(** ** More on the parameter cache *)

(** *** The order of keyword arguments *)

(** X1. The value _make_param_value stores for a call does not depend on the
    order in which the keyword arguments were written: two keyword lists
    with distinct names that are permutations of each other give the same
    cached value. *)
Theorem param_value_keyword_order (args : list pyval) (kw1 kw2 : kwargs) :
  NoDup kw1.*1 -> kw1 ≡ₚ kw2 ->
  _make_param_value args kw1 = _make_param_value args kw2.
Proof.
  intros Hnd Hp. unfold _make_param_value.
  now rewrite (sorted_permutation kw1 kw2 Hnd Hp).
Qed.

Lemma param_value_keyword_order_witness :
  _make_param_value [PyInt 1] [("rate", PyFloat 2%float); ("mode", PyInt 0)] =
  _make_param_value [PyInt 1] [("mode", PyInt 0); ("rate", PyFloat 2%float)].
Proof.
  apply param_value_keyword_order.
  - apply (bool_decide_unpack _). vm_compute. exact I.
  - apply Permutation_swap.
Defined.

Section CacheKeys.
Context {H : Type} `{Connection H}.

Lemma make_cache_key_pump (c : CachedConnection H) (name : string) :
  _make_cache_key c name =
    match pump_of c with
    | Some p => (name ++ "_pump_" ++ pretty p)%string
    | None => name
    end.
Proof. unfold _make_cache_key, pump_of. now destruct (multipump (connection c)). Qed.

Lemma make_cache_key_inj (c1 c2 : CachedConnection H) (name1 name2 : string) :
  name1 ∈ cacheable_methods -> name2 ∈ cacheable_methods ->
  _make_cache_key c1 name1 = _make_cache_key c2 name2 <->
  name1 = name2 /\ pump_of c1 = pump_of c2.
Proof.
  intros H1 H2. rewrite !make_cache_key_pump. split.
  - unfold cacheable_methods in H1, H2. set_unfold.
    destruct (pump_of c1) as [p1|], (pump_of c2) as [p2|];
      intros E; destruct_or!; subst;
      first [ discriminate E
            | split; [reflexivity|];
              first [ reflexivity
                    | do 2 apply (inj (String.append _)) in E;
                      apply (inj pretty) in E; now rewrite E ] ].
  - now intros [-> ->].
Qed.

(** X2. For cacheable method names, _make_cache_key gives two connections
    the same key exactly when the method names are equal and the connections
    are both single-pump, or both multi-pump on the same current pump (a
    missing currentPump counting as pump 1). Values of different methods or
    of different pumps never share a cache entry. *)
Theorem cache_key_injective (c1 c2 : CachedConnection H) (name1 name2 : string) :
  name1 ∈ cacheable_methods -> name2 ∈ cacheable_methods ->
  _make_cache_key c1 name1 = _make_cache_key c2 name2 <->
  name1 = name2 /\ pump_of c1 = pump_of c2.
Proof. apply make_cache_key_inj. Qed.
End CacheKeys.

Section CacheMore.
Context {H : Type} `{Connection H}.

(** X3. A call of a cacheable method that raised leaves the cache as it was,
    so the same call made again on the same pump is a cache miss and enters
    the hardware again; its value is cached only if this second call
    returns. *)
Theorem failed_call_is_sent_again (name : string) (args : list pyval) (kw : kwargs)
    (w w1 : world H) (e : exn) :
  name ∈ cacheable_methods -> attribute H name = Some Method ->
  attr_call name args kw w = (w1, Raised e) ->
  _make_cache_key (conn w1) name = _make_cache_key (conn w) name ->
  cache (conn w1) = cache (conn w) /\
  attr_call name args kw w1 =
    let '(h', r) := invoke name args kw (connection (conn w1)) in
    ({| conn := {| connection := h';
                   cache := match r with
                            | Returned _ =>
                                <[_make_cache_key (conn w1) name :=
                                    _make_param_value args kw]> (cache (conn w1))
                            | Raised _ => cache (conn w1)
                            end |};
        trace := trace w1 ++ [CacheMiss name args; HardwareCall name args kw] |}, r).
Proof.
  intros Hin Hattr Hfirst Hkey.
  rewrite !attr_call_cacheable in * by assumption.
  destruct (match cache (conn w) !! _make_cache_key (conn w) name with
            | Some v => py_eq v (_make_param_value args kw)
            | None => false
            end) eqn:Hmiss.
  { destruct (cache (conn w) !! _make_cache_key (conn w) name) as [v|] eqn:Hlook;
      [|discriminate].
    rewrite (cached_method_hit _ _ _ _ _ Hlook Hmiss) in Hfirst. discriminate. }
  rewrite (cached_method_miss _ _ _ _ Hmiss) in Hfirst.
  destruct (invoke name args kw (connection (conn w))) as [h' [r|e']]; [discriminate|].
  injection Hfirst as Hw _.
  assert (Hc : cache (conn w1) = cache (conn w)) by now rewrite <- Hw.
  split; [exact Hc|].
  apply cached_method_miss. rewrite Hc, Hkey. exact Hmiss.
Qed.

End CacheMore.

(** *** What the cache holds *)

Lemma since_reset_snoc (evs : list event) (ev : event) :
  since_reset (evs ++ [ev]) =
    match ev with CacheReset => [] | _ => since_reset evs ++ [ev] end.
Proof. unfold since_reset. now rewrite foldl_app. Qed.

Lemma since_reset_app (evs more : list event) :
  CacheReset ∉ more -> since_reset (evs ++ more) = since_reset evs ++ more.
Proof.
  induction more as [|ev more IH] using rev_ind; intros Hno.
  - now rewrite !app_nil_r.
  - rewrite !app_assoc, since_reset_snoc, IH by set_solver.
    destruct ev; try reflexivity. set_solver.
Qed.

Lemma key_of_make_cache_key {H} `{Connection H} (c : CachedConnection H) (name : string) :
  key_of name (_make_cache_key c name).
Proof.
  unfold key_of, _make_cache_key. destruct (multipump (connection c)); eauto.
Qed.

Section Backed.
Context {H : Type} `{Connection H}.

(** More events, none of them a reset, and the same cache. *)
Lemma backed_later (w w' : world H) (more : list event) :
  backed w -> CacheReset ∉ more ->
  trace w' = trace w ++ more -> cache (conn w') = cache (conn w) -> backed w'.
Proof.
  intros Hb Hno Ht Hc key v Hlook. rewrite Hc in Hlook.
  destruct (Hb key v Hlook) as (name & args & kw & Hin & Hv & Hk).
  exists name, args, kw. rewrite Ht, since_reset_app by exact Hno.
  rewrite elem_of_app. auto.
Qed.

Lemma keeps_bind (I : world H -> Prop) {A B} (m : M H A) (k : A -> M H B) :
  keeps I m -> (forall a, keeps I (k a)) -> keeps I (m ≫= k).
Proof.
  intros Hm Hk w w' r Hw E.
  apply bind_inv in E as [(w1 & a & E1 & E2)|(e & E1 & _)].
  - eapply Hk; [|exact E2]. eapply Hm; eauto.
  - eapply Hm; eauto.
Qed.

Lemma keeps_ret (I : world H -> Prop) {A} (a : A) : keeps I (mret a : M H A).
Proof. intros w w' r Hw E. now injection E as <- _. Qed.

Lemma keeps_raise (I : world H -> Prop) {A} (e : exn) : keeps I (raise e : M H A).
Proof. intros w w' r Hw E. now injection E as <- _. Qed.

Lemma keeps_lift (I : world H -> Prop) {A} (o : outcome A) : keeps I (lift o : M H A).
Proof. intros w w' r Hw E. now injection E as <- _. Qed.

Lemma keeps_try_except (I : world H -> Prop) {A} (m : M H A) (h : exn -> M H A) :
  keeps I m -> (forall e, keeps I (h e)) -> keeps I (try_except m h).
Proof.
  intros Hm Hh w w' r Hw. unfold try_except.
  destruct (m w) as [w1 [a|e]] eqn:E.
  - intros Hx. injection Hx as <- _. eapply Hm; eauto.
  - intros Hx. eapply Hh; [|exact Hx]. eapply Hm; eauto.
Qed.

Lemma backed_emit (ev : event) : ev <> CacheReset -> keeps backed (emit ev : M H unit).
Proof.
  intros Hne w w' r Hw E. injection E as <- _.
  apply backed_later with w [ev]; auto. set_solver.
Qed.

Lemma backed_time_sleep (d : float) : keeps backed (time_sleep d : M H unit).
Proof.
  unfold time_sleep. repeat (case_match; [apply keeps_raise|]).
  now apply backed_emit.
Qed.

Lemma backed_getattr (name : string) : keeps backed (__getattr__ name).
Proof.
  unfold __getattr__. repeat case_match;
    first [apply keeps_raise | apply keeps_ret].
Qed.

Lemma backed_original_method (name : string) args kw :
  keeps backed (original_method name args kw).
Proof.
  intros w w' r Hw. unfold original_method.
  destruct (invoke name args kw (connection (conn w))) as [h' r'].
  intros E. injection E as <- _.
  apply backed_later with w [HardwareCall name args kw]; auto. set_solver.
Qed.

Lemma backed_cached_method (name : string) args kw :
  keeps backed (cached_method name args kw).
Proof.
  intros w w' r Hw E.
  destruct (match cache (conn w) !! _make_cache_key (conn w) name with
            | Some v => py_eq v (_make_param_value args kw)
            | None => false
            end) eqn:Hit.
  - destruct (cache (conn w) !! _make_cache_key (conn w) name) as [v|] eqn:Hlook;
      [|discriminate].
    rewrite (cached_method_hit _ _ _ _ _ Hlook Hit) in E. injection E as <- _.
    apply backed_later with w [CacheHit name args]; auto. set_solver.
  - rewrite (cached_method_miss _ _ _ _ Hit) in E.
    destruct (invoke name args kw (connection (conn w))) as [h' [v|e]];
      injection E as <- _.
    + intros key v' Hlook. simpl in Hlook |- *.
      rewrite since_reset_app by set_solver.
      destruct (decide (key = _make_cache_key (conn w) name)) as [->|Hne].
      * rewrite lookup_insert_eq in Hlook. injection Hlook as <-.
        exists name, args, kw. split; [set_solver|].
        split; [reflexivity|apply key_of_make_cache_key].
      * rewrite lookup_insert_ne in Hlook by congruence.
        destruct (Hw key v' Hlook) as (n & a & k & Hin & Hv & Hk).
        exists n, a, k. rewrite elem_of_app. auto.
    + apply backed_later with w [CacheMiss name args; HardwareCall name args kw];
        auto. set_solver.
Qed.

Lemma backed_attr_call (name : string) args kw : keeps backed (attr_call name args kw).
Proof.
  apply keeps_bind; [apply backed_getattr|].
  intros [n|n|ty]; simpl;
    [apply backed_cached_method|apply backed_original_method|apply keeps_raise].
Qed.

Lemma backed_reset (w : world H) : backed (fst (reset_cache w)).
Proof. intros key v Hlook. simpl in Hlook. now rewrite lookup_empty in Hlook. Qed.

(** X5. The cache only holds what was sent: on a new cached connection,
    after reset_cache, and after any call through the connection from a
    state with this property, every cache entry is the parameter value of a
    call that entered the hardware since the last reset, filed under a key
    of the method called. *)
Theorem cache_entries_were_sent :
  (forall h : H, backed (connected h)) /\
  (forall w : world H, backed (fst (reset_cache w))) /\
  (forall name args kw (w : world H),
      backed w -> backed (fst (attr_call name args kw w))).
Proof.
  split; [|split].
  - intros h key v Hlook. simpl in Hlook. now rewrite lookup_empty in Hlook.
  - exact backed_reset.
  - intros name args kw w Hw.
    destruct (attr_call name args kw w) as [w' r] eqn:E.
    exact (backed_attr_call name args kw w w' r Hw E).
Qed.

End Backed.

Section BackedRun.
Context {H : Type} `{Connection H}.

Lemma backed_pump_operation cfg volume rate wait_for_completion :
  keeps backed (_execute_pump_operation cfg volume rate wait_for_completion).
Proof.
  unfold _execute_pump_operation, call_method.
  do 2 (apply keeps_bind; [apply backed_attr_call|intros _]).
  apply keeps_bind; [destruct (lt_zero volume); apply backed_attr_call|intros _].
  apply keeps_bind; [apply backed_getattr|intros a].
  apply keeps_bind; [apply keeps_raise|intros v].
  apply keeps_bind.
  { destruct a; simpl;
      [apply backed_cached_method|apply backed_original_method|apply keeps_raise]. }
  intros _. do 2 (apply keeps_bind; [apply backed_attr_call|intros _]).
  destruct wait_for_completion; [|apply keeps_ret].
  apply keeps_bind; [apply keeps_raise|intros v'].
  case_match; [|apply keeps_ret].
  apply keeps_bind; [apply keeps_lift|intros q]. apply backed_time_sleep.
Qed.

Lemma backed_dispatch (ex : StepExecutor H) (st : Step) : keeps backed (dispatch ex st).
Proof.
  unfold dispatch, _pump_volume, _pump_time, _wait.
  repeat case_match;
    repeat first
      [ apply keeps_ret
      | apply keeps_lift
      | apply backed_pump_operation
      | apply backed_time_sleep
      | apply keeps_bind; [|intros ?] ].
Qed.

Lemma backed_signal (ev : event) (ex : StepExecutor H) :
  ev <> CacheReset -> backed (shared ex) -> backed (shared (signal ev ex)).
Proof.
  intros Hne Hb. unfold signal. simpl.
  apply (backed_emit ev Hne (shared ex) _ (Returned tt) Hb). reflexivity.
Qed.

Lemma backed_execute_single_step (ex : StepExecutor H) (st : Step) :
  backed (shared ex) -> backed (shared (fst (execute_single_step ex st))).
Proof.
  intros Hb. unfold execute_single_step.
  destruct (dispatch ex st (shared ex)) as [w [[cs ls]|e]] eqn:E;
    pose proof (backed_dispatch ex st _ _ _ Hb E) as Hw; simpl.
  - exact Hw.
  - apply (backed_signal (error_occurred (step_error ex e)) (with_shared ex w));
      [discriminate|exact Hw].
Qed.

Lemma backed_gui (ex : StepExecutor H) (c : gui_call) :
  backed (shared ex) -> backed (shared (gui ex c)).
Proof.
  intros Hb. destruct c; simpl; unfold stop, pause, resume; try exact Hb.
  - destruct (hasattr H "stopPump"); [|exact Hb]. simpl.
    destruct (call_method "stopPump" [] (shared ex)) as [w r] eqn:E.
    exact (backed_attr_call _ _ _ _ _ _ Hb E).
  - destruct (hasattr H "pausePump"); [|exact Hb]. simpl.
    destruct (call_method "pausePump" [] (shared ex)) as [w r] eqn:E.
    exact (backed_attr_call _ _ _ _ _ _ Hb E).
Qed.

Lemma backed_gui_calls (cs : list gui_call) (ex : StepExecutor H) :
  backed (shared ex) -> backed (shared (foldl gui ex cs)).
Proof.
  revert ex. induction cs as [|c cs IH]; intros ex Hb; [exact Hb|].
  simpl. apply IH. now apply backed_gui.
Qed.

Lemma backed_iteration (cs : list gui_call) (ex ex' : StepExecutor H) :
  backed (shared ex) ->
  iteration cs ex = inl ex' \/ iteration cs ex = inr ex' -> backed (shared ex').
Proof.
  intros Hb. apply (backed_gui_calls cs) in Hb.
  unfold iteration. set (ex0 := foldl gui ex cs) in *.
  destruct ((current_step ex0 <? length (steps ex0))%nat && negb (stop_event ex0));
    [|intros [E|E]; now inversion E].
  destruct (pause_event ex0); [intros [E|E]; now inversion E|].
  destruct (steps ex0 !! current_step ex0) as [st|];
    [|intros [E|E]; now inversion E].
  pose proof (backed_execute_single_step
                (signal (step_changed (current_step ex0)) ex0) st
                (backed_signal (step_changed (current_step ex0)) ex0
                   ltac:(discriminate) Hb)) as Hs.
  destruct (execute_single_step _ st) as [ex2 [|]];
    intros [E|E]; inversion E; subst; exact Hs.
Qed.

Lemma backed_run (fuel : nat) (calls : nat -> list gui_call) (n : nat)
    (ex ex' : StepExecutor H) :
  backed (shared ex) -> run fuel calls n ex = Some ex' -> backed (shared ex').
Proof.
  revert n ex. induction fuel as [|fuel IH]; intros n ex Hb; simpl; [discriminate|].
  destruct (iteration (calls n) ex) as [ex1|ex1] eqn:E.
  - intros Hx. injection Hx as <-. eapply backed_iteration; eauto.
  - apply IH. eapply backed_iteration; eauto.
Qed.

(** X6. Whatever the cache held before, a run of execute_steps that ends
    leaves a cache in which every entry is the parameter value of a call
    that entered the hardware since the last reset of the cache; this holds
    for any program and any calls of the window during the run. *)
Theorem run_leaves_cache_backed (fuel : nat) (calls : nat -> list gui_call)
    (ex ex' : StepExecutor H) :
  execute_steps fuel calls ex = Some ex' -> backed (shared ex').
Proof.
  unfold execute_steps.
  assert (Hinit : forall w r,
             _initialize_pump_state (config ex) (shared ex) = (w, r) -> backed w).
  { intros w r. unfold _initialize_pump_state.
    change (hasattr H "reset_cache") with true. cbv iota.
    intros E. apply bind_inv in E as [(w1 & [] & E1 & E2)|(e & E1 & _)].
    - assert (Hb1 : backed w1).
      { replace w1 with (fst (reset_cache (shared ex))) by now rewrite E1.
        apply backed_reset. }
      revert E2. apply keeps_bind; [apply backed_attr_call|intros _|exact Hb1].
      apply keeps_bind; [apply backed_attr_call|intros _]. apply keeps_ret.
    - discriminate E1. }
  destruct (_initialize_pump_state (config ex) (shared ex)) as [w [[]|e]] eqn:E;
    pose proof (Hinit _ _ eq_refl) as Hw.
  - destruct (run fuel calls 0 _) as [ex1|] eqn:R; [|discriminate].
    intros Hx. injection Hx as <-.
    apply backed_signal; [discriminate|].
    eapply backed_run; [|exact R]. exact Hw.
  - intros Hx. injection Hx as <-.
    apply backed_signal; [discriminate|].
    apply (backed_signal _ (with_shared ex w)); [discriminate|]. exact Hw.
Qed.

End BackedRun.

(** ** More on the loop of the executor *)

Lemma indices_step_changed (i : nat) (evs : list event) :
  indices (step_changed i :: evs) = i :: indices evs.
Proof. reflexivity. Qed.

Section Turns.
Context {H : Type} `{Connection H}.

(** One evaluation of the loop condition, by cases: no step is run (the loop
    is left, or the executor is paused), or the step at the position is
    announced and run; when it returns the loop goes on from
    [next_position], when it raises the loop is left where it is. *)
Lemma iteration_cases (cs : list gui_call) (ex : StepExecutor H) :
  exists ex' evs (leaves : bool),
    iteration cs ex = (if leaves then inl ex' else inr ex') /\
    steps ex' = steps ex /\
    trace (shared ex') = trace (shared ex) ++ evs /\
    ((indices evs = [] /\ current_step ex' = current_step ex /\
      loop_stack ex' = loop_stack ex) \/
     (exists st, steps ex !! current_step ex = Some st /\
        indices evs = [current_step ex] /\
        if leaves
        then current_step ex' = current_step ex /\ loop_stack ex' = loop_stack ex
        else current_step ex' =
               (fst (next_position (current_step ex) (loop_stack ex) st) + 1)%nat /\
             loop_stack ex' =
               snd (next_position (current_step ex) (loop_stack ex) st))).
Proof.
  destruct (gui_calls_frame cs ex) as (S0 & C0 & P0 & L0 & E0 & evs0 & T0 & N0).
  assert (I0 : indices evs0 = []) by now rewrite <- indices_signals, N0.
  unfold iteration. set (ex0 := foldl gui ex cs) in *.
  destruct ((current_step ex0 <? length (steps ex0))%nat && negb (stop_event ex0));
    [|exists ex0, evs0, true; repeat split; auto].
  destruct (pause_event ex0);
    [exists ex0, evs0, false; repeat split; auto|].
  destruct (steps ex0 !! current_step ex0) as [st|] eqn:Hst;
    [|exists ex0, evs0, true; repeat split; auto].
  set (ex1 := signal (step_changed (current_step ex0)) ex0).
  unfold execute_single_step.
  destruct (dispatch ex1 st (shared ex1)) as [w [[cs' ls']|e]] eqn:Hd;
    destruct (dispatch_no_signal _ _ _ _ _ Hd) as (evs2 & T2 & F2);
    apply no_signal_facts in F2 as [_ I2].
  - apply dispatch_returned in Hd.
    change (current_step ex1) with (current_step ex0) in Hd.
    change (loop_stack ex1) with (loop_stack ex0) in Hd.
    rewrite P0, L0 in Hd.
    eexists _, (evs0 ++ [step_changed (current_step ex)] ++ evs2), false.
    split; [reflexivity|]. simpl. split; [exact S0|]. split.
    { rewrite T2. unfold ex1. simpl. rewrite T0, P0, <- !app_assoc. reflexivity. }
    right. exists st. rewrite <- S0, <- P0. split; [exact Hst|]. rewrite P0.
    split; [rewrite indices_app, I0, indices_step_changed, I2; reflexivity|].
    rewrite <- Hd. split; reflexivity.
  - eexists _, (evs0 ++ [step_changed (current_step ex)] ++ evs2
                  ++ [error_occurred (step_error ex1 e)]), true.
    split; [reflexivity|]. simpl. split; [exact S0|]. split.
    { rewrite T2. unfold ex1. simpl. rewrite T0, P0, <- !app_assoc. reflexivity. }
    right. exists st. rewrite <- S0, <- P0. split; [exact Hst|]. rewrite P0.
    split; [|auto].
    rewrite indices_app, I0, indices_step_changed, indices_app, I2. reflexivity.
Qed.

End Turns.

Section RunInvariant.
Context {H : Type} `{Connection H}.

(** An invariant of the position, the loop stack and the steps announced so
    far that every returning step keeps holds after any run of the loop; a
    step that raises is announced and leaves the rest as it is. *)
Lemma run_invariant (J : nat -> list LoopFrame -> list nat -> Prop) (all : list Step) :
  (forall pc stack seen st, J pc stack seen -> all !! pc = Some st ->
     J (fst (next_position pc stack st) + 1)%nat (snd (next_position pc stack st))
       (seen ++ [pc])) ->
  forall fuel calls n (ex ex' : StepExecutor H) seen,
    steps ex = all -> J (current_step ex) (loop_stack ex) seen ->
    run fuel calls n ex = Some ex' ->
    exists evs, trace (shared ex') = trace (shared ex) ++ evs /\
      steps ex' = all /\
      (J (current_step ex') (loop_stack ex') (seen ++ indices evs) \/
       exists before, J (current_step ex') (loop_stack ex') before /\
         is_Some (all !! current_step ex') /\
         seen ++ indices evs = before ++ [current_step ex']).
Proof.
  intros Hstep fuel calls. induction fuel as [|fuel IH]; intros n ex ex' seen HS HJ;
    simpl; [discriminate|].
  destruct (iteration_cases (calls n) ex)
    as (ex1 & evs1 & leaves & -> & S1 & T1 & Hcase).
  rewrite HS in S1, Hcase.
  destruct leaves.
  - intros Hx. injection Hx as <-. exists evs1. split; [exact T1|]. split; [exact S1|].
    destruct Hcase as [(I1 & P1 & L1)|(st & Hst & I1 & P1 & L1)]; rewrite I1, P1, L1.
    + left. now rewrite app_nil_r.
    + right. exists seen. eauto.
  - intros Hx.
    assert (HJ1 : J (current_step ex1) (loop_stack ex1) (seen ++ indices evs1)).
    { destruct Hcase as [(I1 & P1 & L1)|(st & Hst & I1 & P1 & L1)]; rewrite I1, P1, L1.
      - now rewrite app_nil_r.
      - now apply Hstep. }
    destruct (IH _ _ _ _ S1 HJ1 Hx) as (evs2 & T2 & S2 & Hfin).
    exists (evs1 ++ evs2). rewrite T2, T1, <- app_assoc. split; [reflexivity|].
    split; [exact S2|]. now rewrite indices_app, app_assoc.
Qed.

(** The same for a whole run, which starts at step 0 after an
    initialisation that announces nothing. *)
Lemma execute_steps_invariant (J : nat -> list LoopFrame -> list nat -> Prop)
    (fuel : nat) (calls : nat -> list gui_call) (ex ex' : StepExecutor H) :
  (forall pc stack seen st, J pc stack seen -> steps ex !! pc = Some st ->
     J (fst (next_position pc stack st) + 1)%nat (snd (next_position pc stack st))
       (seen ++ [pc])) ->
  J 0%nat (loop_stack ex) [] ->
  execute_steps fuel calls ex = Some ex' ->
  exists evs, trace (shared ex') = trace (shared ex) ++ evs /\
    steps ex' = steps ex /\
    ((indices evs = [] /\ loop_stack ex' = loop_stack ex) \/
     J (current_step ex') (loop_stack ex') (indices evs) \/
     exists before, J (current_step ex') (loop_stack ex') before /\
       is_Some (steps ex !! current_step ex') /\
       indices evs = before ++ [current_step ex']).
Proof.
  intros Hstep Hstart. unfold execute_steps.
  destruct (_initialize_pump_state (config ex) (shared ex)) as [w [[]|e]] eqn:E;
    destruct (initialize_no_signal _ _ _ _ E) as (evs0 & T0 & F0);
    apply no_signal_facts in F0 as [_ I0].
  - destruct (run fuel calls 0 _) as [ex1|] eqn:R; [|discriminate].
    intros Hx. injection Hx as <-.
    destruct (run_invariant J (steps ex) Hstep fuel calls 0%nat
                (with_position (with_shared ex w) 0 (loop_stack ex)) ex1 []
                eq_refl Hstart R)
      as (evs1 & T1 & S1 & Hfin).
    exists (evs0 ++ evs1 ++ [execution_finished]). simpl in *.
    rewrite T1, T0, <- !app_assoc. split; [reflexivity|]. split; [exact S1|].
    rewrite !indices_app, I0. simpl. rewrite app_nil_r. right. exact Hfin.
  - intros Hx. injection Hx as <-.
    exists (evs0 ++ [error_occurred (exn_str e); execution_finished]). simpl.
    rewrite T0, <- !app_assoc. split; [reflexivity|]. split; [reflexivity|].
    left. rewrite indices_app, I0. split; reflexivity.
Qed.

End RunInvariant.

Lemma next_position_straight (all : list Step) (pc : nat) (stack : list LoopFrame)
    (st : Step) :
  function st <> "end_loop" \/ stack = [] ->
  fst (next_position pc stack st) = pc.
Proof.
  intros Hs. unfold next_position.
  destruct (function st =? "start_loop")%string; [reflexivity|].
  destruct (function st =? "end_loop")%string eqn:E; [|reflexivity].
  apply String.eqb_eq in E. destruct Hs as [Hs| ->]; [congruence|reflexivity].
Qed.

Lemma next_position_no_push (pc : nat) (st : Step) :
  function st <> "start_loop" -> snd (next_position pc [] st) = [].
Proof.
  intros Hs. unfold next_position.
  destruct (function st =? "start_loop")%string eqn:E;
    [apply String.eqb_eq in E; congruence|].
  now destruct (function st =? "end_loop")%string.
Qed.

Lemma tidy_weaken (all : list Step) (b b' : nat) (stack : list LoopFrame) :
  (b <= b')%nat -> tidy all b stack = true -> tidy all b' stack = true.
Proof.
  destruct stack as [|f below]; [reflexivity|]. simpl. intros Hle Ht.
  apply andb_prop in Ht as [Ht T3]. apply andb_prop in Ht as [T1 T2].
  rewrite T2, T3. apply Nat.ltb_lt in T1.
  replace (start_index f <? b')%nat with true; [reflexivity|].
  symmetry. apply Nat.ltb_lt. lia.
Qed.

Lemma tidy_next_position (all : list Step) (pc : nat) (stack : list LoopFrame)
    (st : Step) :
  all !! pc = Some st -> tidy all pc stack = true ->
  tidy all (fst (next_position pc stack st) + 1) (snd (next_position pc stack st)) = true.
Proof.
  intros Hst Ht. unfold next_position.
  destruct (function st =? "start_loop")%string eqn:E1.
  { cbn [fst snd tidy start_index]. rewrite Hst, E1, Ht.
    replace (pc <? pc + 1)%nat with true; [reflexivity|].
    symmetry. apply Nat.ltb_lt. lia. }
  destruct (function st =? "end_loop")%string;
    [|cbn [fst snd]; apply tidy_weaken with pc; [lia|exact Ht]].
  destruct stack as [|f below]; [reflexivity|].
  simpl in Ht. apply andb_prop in Ht as [Ht T3]. apply andb_prop in Ht as [T1 T2].
  apply Nat.ltb_lt in T1.
  destruct (current_iteration f + 1 <? iterations f)%Z; cbn [fst snd].
  - cbn [tidy start_index]. rewrite T2, T3.
    replace (start_index f <? start_index f + 1)%nat with true; [reflexivity|].
    symmetry. apply Nat.ltb_lt. lia.
  - apply tidy_weaken with (start_index f); [lia|exact T3].
Qed.

Lemma loops_of_app (l1 l2 : list Step) : loops_of (l1 ++ l2) = (loops_of l1 + loops_of l2)%nat.
Proof. unfold loops_of. now rewrite filter_app, length_app. Qed.

Lemma tidy_depth (all : list Step) (b : nat) (stack : list LoopFrame) :
  tidy all b stack = true -> (length stack <= loops_of (take b all))%nat.
Proof.
  revert b. induction stack as [|f below IH]; intros b Ht; simpl; [lia|].
  simpl in Ht. apply andb_prop in Ht as [Ht T3]. apply andb_prop in Ht as [T1 T2].
  apply Nat.ltb_lt in T1. apply IH in T3.
  destruct (all !! start_index f) as [st|] eqn:Hst; [|discriminate].
  apply String.eqb_eq in T2.
  assert (Hsplit : take b all =
            take (start_index f) all ++ st :: drop (S (start_index f)) (take b all)).
  { rewrite <- (take_drop (start_index f) (take b all)) at 1.
    rewrite take_take, Nat.min_l by lia. f_equal.
    apply drop_S. now rewrite lookup_take_lt by lia. }
  rewrite Hsplit, loops_of_app.
  change (st :: ?l) with ([st] ++ l). rewrite loops_of_app.
  unfold loops_of at 2. rewrite filter_cons_True by exact T2. simpl. lia.
Qed.

Lemma loops_of_take (all : list Step) (b : nat) : (loops_of (take b all) <= loops_of all)%nat.
Proof.
  rewrite <- (take_drop b all) at 2. rewrite loops_of_app. lia.
Qed.

Section LoopFacts.
Context {H : Type} `{Connection H}.

Lemma run_announces_steps (fuel : nat) (calls : nat -> list gui_call)
    (ex ex' : StepExecutor H) :
  execute_steps fuel calls ex = Some ex' ->
  exists evs, trace (shared ex') = trace (shared ex) ++ evs /\
    Forall (fun i => (i < length (steps ex))%nat) (indices evs).
Proof.
  intros Hx.
  destruct (execute_steps_invariant
              (fun _ _ seen => Forall (fun i => (i < length (steps ex))%nat) seen)
              fuel calls ex ex') as (evs & T & _ & Hfin); auto.
  { intros pc stack seen st Hseen Hst. apply Forall_app. split; [exact Hseen|].
    constructor; [|constructor]. eapply lookup_lt_Some. exact Hst. }
  exists evs. split; [exact T|].
  destruct Hfin as [[-> _]|[Hfin|(before & Hb & [st Hst] & ->)]]; auto.
  apply Forall_app. split; [exact Hb|].
  constructor; [|constructor]. eapply lookup_lt_Some. exact Hst.
Qed.

(** X7. Every step_changed signal that a run of execute_steps emits carries
    the index of an existing step: all announced indices are below
    len(steps). *)
Theorem announced_steps_exist (fuel : nat) (calls : nat -> list gui_call)
    (ex ex' : StepExecutor H) :
  execute_steps fuel calls ex = Some ex' ->
  exists evs, trace (shared ex') = trace (shared ex) ++ evs /\
    Forall (fun i => (i < length (steps ex))%nat) (indices evs).
Proof. apply run_announces_steps. Qed.

(** X8. A program with no end_loop step, or with no start_loop step, run
    from an empty loop stack announces its steps in order and each at most
    once: the indices of the step_changed signals of a run that ends are 0,
    1, ..., k-1 for some k not above len(steps). *)
Theorem straight_program_runs_once (fuel : nat) (calls : nat -> list gui_call)
    (ex ex' : StepExecutor H) :
  straight (steps ex) -> loop_stack ex = [] ->
  execute_steps fuel calls ex = Some ex' ->
  exists evs k, trace (shared ex') = trace (shared ex) ++ evs /\
    indices evs = seq 0 k /\ (k <= length (steps ex))%nat.
Proof.
  intros Hs Hls Hx.
  assert (Hgoal : exists evs, trace (shared ex') = trace (shared ex) ++ evs /\
            ((indices evs = [] /\ loop_stack ex' = loop_stack ex) \/
             (indices evs = seq 0 (current_step ex') /\
              (current_step ex' <= length (steps ex))%nat) \/
             exists before, (before = seq 0 (current_step ex') /\
                             (current_step ex' <= length (steps ex))%nat) /\
               is_Some (steps ex !! current_step ex') /\
               indices evs = before ++ [current_step ex'])).
  { destruct Hs as [Hno|Hno]; rewrite Forall_forall in Hno.
    - destruct (execute_steps_invariant
                  (fun pc stack seen =>
                     seen = seq 0 pc /\ (pc <= length (steps ex))%nat)
                  fuel calls ex ex') as (evs & T & _ & Hfin); eauto.
      + intros pc stack seen st (-> & Hpc) Hst.
        rewrite (next_position_straight (steps ex)), Nat.add_1_r, seq_S.
        * split; [reflexivity|]. eapply lookup_lt_Some. exact Hst.
        * left. apply Hno. eapply list_elem_of_lookup_2. exact Hst.
      + split; [reflexivity|lia].
    - destruct (execute_steps_invariant
                  (fun pc stack seen =>
                     seen = seq 0 pc /\ (pc <= length (steps ex))%nat /\ stack = [])
                  fuel calls ex ex') as (evs & T & _ & Hfin).
      + intros pc stack seen st (-> & Hpc & ->) Hst.
        rewrite (next_position_straight (steps ex)), Nat.add_1_r, seq_S by now right.
        split; [reflexivity|]. split; [eapply lookup_lt_Some; exact Hst|].
        apply next_position_no_push. apply Hno.
        eapply list_elem_of_lookup_2. exact Hst.
      + split; [reflexivity|]. split; [lia|exact Hls].
      + exact Hx.
      + exists evs. split; [exact T|].
        destruct Hfin as [?|[(? & ? & _)|(before & (? & ? & _) & ? & ?)]]; eauto 10. }
  destruct Hgoal as (evs & T & [[I _]|[[I Hle]|(before & [-> Hle] & [st Hst] & I)]]).
  - exists evs, 0%nat. repeat split; [exact T|exact I|lia].
  - exists evs, (current_step ex'). auto.
  - exists evs, (S (current_step ex')). rewrite seq_S. repeat split; auto.
    eapply lookup_lt_Some. exact Hst.
Qed.

(** X9. A run started with an empty loop stack ends, also when it is stopped
    midway, with a loop stack in which every frame was pushed by a
    start_loop step before the current position and each frame below by an
    earlier step than the one above it. So the stack is never deeper than
    the number of start_loop steps of the program. *)
Theorem loop_stack_stays_tidy (fuel : nat) (calls : nat -> list gui_call)
    (ex ex' : StepExecutor H) :
  loop_stack ex = [] ->
  execute_steps fuel calls ex = Some ex' ->
  tidy (steps ex) (current_step ex') (loop_stack ex') = true /\
  (length (loop_stack ex') <= loops_of (steps ex))%nat.
Proof.
  intros Hls Hx.
  assert (Ht : tidy (steps ex) (current_step ex') (loop_stack ex') = true).
  { destruct (execute_steps_invariant
                (fun pc stack _ => tidy (steps ex) pc stack = true)
                fuel calls ex ex') as (evs & T & _ & Hfin); auto.
    - intros pc stack _ st Ht Hst. now apply tidy_next_position.
    - now rewrite Hls.
    - destruct Hfin as [[_ ->]|[Hfin|(_ & Hfin & _)]]; auto. now rewrite Hls. }
  split; [exact Ht|].
  etransitivity; [apply tidy_depth; exact Ht|apply loops_of_take].
Qed.

End LoopFacts.

Lemma with_position_same {H} `{Connection H} (ex : StepExecutor H) :
  with_position (with_shared ex (shared ex)) (current_step ex) (loop_stack ex) = ex.
Proof. now destruct ex. Qed.

Section Edges.
Context {H : Type} `{Connection H}.

(** X10. A step whose function is none of pump_volume, pump_time, wait,
    start_loop and end_loop, and an end_loop step met with an empty loop
    stack, do nothing: execute_single_step returns True and leaves the
    executor unchanged, and in a run the step is announced and the position
    moves on by one without an error signal. *)
Theorem idle_steps_are_skipped (ex : StepExecutor H) (st : Step) :
  function st ∉ known_functions \/ (function st = "end_loop" /\ loop_stack ex = []) ->
  execute_single_step ex st = (ex, true) /\
  (running ex -> steps ex !! current_step ex = Some st ->
   iteration [] ex =
     inr (with_position (signal (step_changed (current_step ex)) ex)
            (current_step ex + 1)%nat (loop_stack ex))).
Proof.
  intros Hidle.
  assert (Hd : forall ex0 : StepExecutor H, loop_stack ex0 = loop_stack ex ->
            dispatch ex0 st (shared ex0) =
              (shared ex0, Returned (current_step ex0, loop_stack ex0))).
  { intros ex0 Hls. unfold dispatch. destruct Hidle as [Hno|[Hend Hnil]].
    - unfold known_functions in Hno.
      repeat (rewrite (proj2 (String.eqb_neq _ _)) by set_solver). reflexivity.
    - rewrite Hend, Hls, Hnil. reflexivity. }
  split.
  - unfold execute_single_step. rewrite Hd by reflexivity.
    now rewrite with_position_same.
  - intros [Rs Rp] Hst. unfold iteration. simpl.
    assert (Hlt : (current_step ex <? length (steps ex))%nat = true).
    { apply Nat.ltb_lt. eapply lookup_lt_Some. exact Hst. }
    rewrite Hlt, Rs, Rp, Hst. simpl.
    unfold execute_single_step. rewrite Hd by reflexivity. reflexivity.
Qed.

(** X11. If setUnits of mL/min, the first call of the initialisation, raises
    in the hardware, execute_steps ends at once, for any calls of the
    window: after the cache reset and the failed call it emits
    error_occurred with the text of the exception and then
    execution_finished, announces and runs no step, and leaves the cache
    empty and the position and loop stack as they were. *)
Theorem initialization_failure_ends_run (fuel : nat) (calls : nat -> list gui_call)
    (ex : StepExecutor H) (h' : H) (e : exn) :
  attribute H "setUnits" = Some Method ->
  invoke "setUnits" [PyStr "mL/min"] [] (connection (conn (shared ex))) = (h', Raised e) ->
  exists ex',
    execute_steps fuel calls ex = Some ex' /\
    trace (shared ex') =
      trace (shared ex) ++
        [CacheReset; CacheMiss "setUnits" [PyStr "mL/min"];
         HardwareCall "setUnits" [PyStr "mL/min"] [];
         error_occurred (exn_str e); execution_finished] /\
    cache (conn (shared ex')) = ∅ /\
    current_step ex' = current_step ex /\ loop_stack ex' = loop_stack ex.
Proof.
  intros Hattr Hinv.
  assert (Hin : "setUnits" ∈ cacheable_methods) by in_set.
  assert (Hinit : _initialize_pump_state (config ex) (shared ex) =
            ({| conn := {| connection := h'; cache := ∅ |};
                trace := trace (shared ex) ++
                  [CacheReset; CacheMiss "setUnits" [PyStr "mL/min"];
                   HardwareCall "setUnits" [PyStr "mL/min"] []] |}, Raised e)).
  { unfold _initialize_pump_state, call_method.
    change (hasattr H "reset_cache") with true. cbv iota.
    rewrite (attr_call_cacheable "setUnits") by assumption.
    unfold mbind at 1, M_bind at 1. unfold reset_cache at 1.
    unfold mbind at 1, M_bind at 1.
    rewrite cached_method_miss by (simpl; now rewrite lookup_empty).
    simpl. rewrite Hinv. simpl. now rewrite <- app_assoc. }
  unfold execute_steps. rewrite Hinit. eexists. split; [reflexivity|].
  simpl. rewrite <- !app_assoc. repeat split.
Qed.
End Edges.

Section Paused.
Context {H : Type} `{Connection H}.

Lemma gui_calls_stay_paused (cs : list gui_call) (ex : StepExecutor H) :
  call_stop ∉ cs -> call_resume ∉ cs ->
  pause_event ex = true -> stop_event ex = false ->
  pause_event (foldl gui ex cs) = true /\ stop_event (foldl gui ex cs) = false.
Proof.
  revert ex. induction cs as [|c cs IH]; intros ex Hs Hr Hp Hst; [now split|].
  apply not_elem_of_cons in Hs as [Hs1 Hs]. apply not_elem_of_cons in Hr as [Hr1 Hr].
  simpl. apply IH; [exact Hs|exact Hr| |]; destruct c; try congruence; simpl;
    unfold pause; now destruct (hasattr H "pausePump").
Qed.

(** X12. While the executor is paused, not stopped and has a step left, the
    loop of a run makes no progress and does not end: as long as the window
    calls neither stop nor resume, no number of turns of the loop finishes
    the run. *)
Theorem paused_run_never_ends (calls : nat -> list gui_call) (ex : StepExecutor H) :
  (forall k, (call_stop ∉ calls k) /\ (call_resume ∉ calls k)) ->
  pause_event ex = true -> stop_event ex = false ->
  (current_step ex < length (steps ex))%nat ->
  forall fuel n, run fuel calls n ex = None.
Proof.
  intros Hcalls Hp Hs Hlt fuel. revert ex Hp Hs Hlt.
  induction fuel as [|fuel IH]; intros ex Hp Hs Hlt n; [reflexivity|].
  simpl. destruct (Hcalls n) as [Hns Hnr].
  destruct (gui_calls_stay_paused (calls n) ex Hns Hnr Hp Hs) as [Hp0 Hs0].
  destruct (gui_calls_frame (calls n) ex) as (S0 & _ & P0 & _).
  unfold iteration. rewrite Hs0, Hp0, S0, P0.
  apply Nat.ltb_lt in Hlt. rewrite Hlt. simpl.
  apply IH; [exact Hp0|exact Hs0|]. rewrite S0, P0. now apply Nat.ltb_lt.
Qed.

End Paused.

(** ** Editing the program *)

Lemma index_of_in_range {A} (l : list A) (i : Z) :
  0 <= i < Z.of_nat (length l) -> index_of l i = Some (Z.to_nat i).
Proof.
  intros [H0 H1]. unfold index_of.
  rewrite (proj2 (Z.leb_le _ _) H0), (proj2 (Z.ltb_lt _ _) H1). reflexivity.
Qed.

Lemma getitem_in_range {A} (l : list A) (i : Z) :
  0 <= i < Z.of_nat (length l) -> getitem l i = l !! Z.to_nat i.
Proof. intros Hi. unfold getitem. now rewrite index_of_in_range. Qed.

Lemma setitem_in_range {A} (l : list A) (i : Z) (x : A) :
  0 <= i < Z.of_nat (length l) -> setitem l i x = Some (<[Z.to_nat i := x]> l).
Proof. intros Hi. unfold setitem. now rewrite index_of_in_range. Qed.

Lemma pop_in_range {A} (l : list A) (i : Z) :
  0 <= i < Z.of_nat (length l) -> pop l i = Some (delete (Z.to_nat i) l).
Proof. intros Hi. unfold pop. now rewrite index_of_in_range. Qed.


Lemma swapped_insert (n : nat) (l : list Step) (a b : Step) :
  l !! n = Some a -> l !! S n = Some b ->
  swapped n l (<[n := b]> (<[S n := a]> l)) /\
  <[n := b]> (<[S n := a]> l) ≡ₚ l /\
  <[n := b]> (<[S n := a]> l) = <[S n := a]> (<[n := b]> l).
Proof.
  intros Ha Hb.
  assert (Hn : (n < length l)%nat) by (eapply lookup_lt_Some; exact Ha).
  assert (HSn : (S n < length l)%nat) by (eapply lookup_lt_Some; exact Hb).
  split; [|split].
  - repeat split.
    + rewrite list_lookup_insert_eq by (rewrite length_insert; lia). now rewrite Hb.
    + rewrite list_lookup_insert_ne by lia.
      rewrite list_lookup_insert_eq by lia. now rewrite Ha.
    + intros i H1 H2. now rewrite !list_lookup_insert_ne by lia.
  - now apply Permutation_insert_swap.
  - apply list_insert_insert_ne. lia.
Qed.

Lemma move_step_up_in_range (row : Z) (g : GUI.MyChemyxGUI) (a b : Step) :
  0 < row < Z.of_nat (length (GUI.steps g)) ->
  GUI.steps g !! Z.to_nat (row - 1) = Some a ->
  GUI.steps g !! S (Z.to_nat (row - 1)) = Some b ->
  GUI.move_step_up row g =
    Some (GUI.changed g (<[Z.to_nat (row - 1) := b]>
                           (<[S (Z.to_nat (row - 1)) := a]> (GUI.steps g)))).
Proof.
  intros Hr Ha Hb. unfold GUI.move_step_up.
  rewrite (proj2 (Z.ltb_lt 0 row)), (proj2 (Z.ltb_lt row _)) by lia. cbn [andb].
  assert (Hrow : Z.to_nat row = S (Z.to_nat (row - 1))) by lia.
  rewrite !getitem_in_range by lia. rewrite Hrow, Ha, Hb. cbn [mbind option_bind].
  rewrite setitem_in_range by lia. cbn [mbind option_bind].
  rewrite setitem_in_range by (rewrite length_insert; lia). cbn [mbind option_bind].
  now rewrite Hrow.
Qed.

Lemma move_step_down_in_range (row : Z) (g : GUI.MyChemyxGUI) (a b : Step) :
  0 <= row < Z.of_nat (length (GUI.steps g)) - 1 ->
  GUI.steps g !! Z.to_nat row = Some a ->
  GUI.steps g !! S (Z.to_nat row) = Some b ->
  GUI.move_step_down row g =
    Some (GUI.changed g (<[S (Z.to_nat row) := a]>
                           (<[Z.to_nat row := b]> (GUI.steps g)))).
Proof.
  intros Hr Ha Hb. unfold GUI.move_step_down.
  rewrite (proj2 (Z.leb_le 0 row)), (proj2 (Z.ltb_lt row _)) by lia. cbn [andb].
  assert (Hrow : Z.to_nat (row + 1) = S (Z.to_nat row)) by lia.
  rewrite !getitem_in_range by lia. rewrite Hrow, Ha, Hb. cbn [mbind option_bind].
  rewrite setitem_in_range by lia. cbn [mbind option_bind].
  rewrite setitem_in_range by (rewrite length_insert; lia). cbn [mbind option_bind].
  now rewrite Hrow.
Qed.

Lemma move_step_up_out_of_range (row : Z) (g : GUI.MyChemyxGUI) :
  ~ 0 < row < Z.of_nat (length (GUI.steps g)) -> GUI.move_step_up row g = Some g.
Proof.
  intros Hr. unfold GUI.move_step_up.
  destruct (Z.ltb_spec 0 row), (Z.ltb_spec row (Z.of_nat (length (GUI.steps g))));
    try reflexivity. lia.
Qed.

Lemma move_step_down_out_of_range (row : Z) (g : GUI.MyChemyxGUI) :
  ~ 0 <= row < Z.of_nat (length (GUI.steps g)) - 1 -> GUI.move_step_down row g = Some g.
Proof.
  intros Hr. unfold GUI.move_step_down.
  destruct (Z.leb_spec 0 row), (Z.ltb_spec row (Z.of_nat (length (GUI.steps g)) - 1));
    try reflexivity. lia.
Qed.

Lemma two_steps (l : list Step) (n : nat) :
  (S n < length l)%nat -> exists a b, l !! n = Some a /\ l !! S n = Some b.
Proof.
  intros Hn.
  destruct (lookup_lt_is_Some_2 l n) as [a Ha]; [lia|].
  destruct (lookup_lt_is_Some_2 l (S n)) as [b Hb]; [lia|]. eauto.
Qed.

(** X13. move_step_up(row) with 0 < row < len(steps) exchanges the step with
    the one above it, and move_step_down(row) with 0 <= row < len(steps) - 1
    exchanges it with the one below; all other steps stay in place and the
    program keeps the same steps. For any other row, negative ones included,
    they change nothing, and they never raise. *)
Theorem moves_swap_neighbours (row : Z) (g : GUI.MyChemyxGUI) :
  (exists g', GUI.move_step_up row g = Some g' /\
     if (0 <? row)%Z && (row <? Z.of_nat (length (GUI.steps g)))%Z
     then swapped (Z.to_nat (row - 1)) (GUI.steps g) (GUI.steps g') /\
          GUI.steps g' ≡ₚ GUI.steps g
     else g' = g) /\
  (exists g', GUI.move_step_down row g = Some g' /\
     if (0 <=? row)%Z && (row <? Z.of_nat (length (GUI.steps g)) - 1)%Z
     then swapped (Z.to_nat row) (GUI.steps g) (GUI.steps g') /\
          GUI.steps g' ≡ₚ GUI.steps g
     else g' = g).
Proof.
  split.
  - destruct (Z.ltb_spec 0 row), (Z.ltb_spec row (Z.of_nat (length (GUI.steps g))));
      cbn [andb]; try (exists g; split; [apply move_step_up_out_of_range; lia|reflexivity]).
    destruct (two_steps (GUI.steps g) (Z.to_nat (row - 1))) as (a & b & Ha & Hb); [lia|].
    eexists. split; [apply move_step_up_in_range; [lia|exact Ha|exact Hb]|].
    destruct (swapped_insert _ _ _ _ Ha Hb) as (Hs & Hp & _). now split.
  - destruct (Z.leb_spec 0 row),
      (Z.ltb_spec row (Z.of_nat (length (GUI.steps g)) - 1));
      cbn [andb]; try (exists g; split; [apply move_step_down_out_of_range; lia|reflexivity]).
    destruct (two_steps (GUI.steps g) (Z.to_nat row)) as (a & b & Ha & Hb); [lia|].
    eexists. split; [apply move_step_down_in_range; [lia|exact Ha|exact Hb]|].
    destruct (swapped_insert _ _ _ _ Ha Hb) as (Hs & Hp & Hc).
    cbn [GUI.changed GUI.auto_save_steps GUI.update_steps_table GUI.with_table
         GUI.with_steps GUI.steps].
    rewrite <- Hc. now split.
Qed.

(** X14. Moving a row up is the same operation as moving the row above it
    down: move_step_up(row) and move_step_down(row - 1) leave the same
    window, for every row, in range or not. *)
Theorem move_up_is_move_down_of_row_above (row : Z) (g : GUI.MyChemyxGUI) :
  GUI.move_step_up row g = GUI.move_step_down (row - 1) g.
Proof.
  destruct (Z.ltb_spec 0 row), (Z.ltb_spec row (Z.of_nat (length (GUI.steps g))));
    try (rewrite move_step_up_out_of_range, move_step_down_out_of_range by lia;
         reflexivity).
  destruct (two_steps (GUI.steps g) (Z.to_nat (row - 1))) as (a & b & Ha & Hb); [lia|].
  rewrite (move_step_up_in_range row g a b) by (lia || assumption).
  rewrite (move_step_down_in_range (row - 1) g a b) by (lia || assumption).
  destruct (swapped_insert _ _ _ _ Ha Hb) as (_ & _ & Hc). now rewrite Hc.
Qed.

(** X15. move_step_up(row) followed by move_step_down(row - 1) gives back
    the program as it was, for every row. *)
Theorem move_up_then_down_restores (row : Z) (g : GUI.MyChemyxGUI) :
  exists g', GUI.move_step_up row g ≫= GUI.move_step_down (row - 1) = Some g' /\
    GUI.steps g' = GUI.steps g.
Proof.
  destruct (Z.ltb_spec 0 row), (Z.ltb_spec row (Z.of_nat (length (GUI.steps g))));
    try (rewrite move_step_up_out_of_range by lia; cbn [mbind option_bind];
         rewrite move_step_down_out_of_range by lia; eauto).
  destruct (two_steps (GUI.steps g) (Z.to_nat (row - 1))) as (a & b & Ha & Hb); [lia|].
  rewrite (move_step_up_in_range row g a b) by (lia || assumption).
  cbn [mbind option_bind].
  set (l1 := <[Z.to_nat (row - 1) := b]> (<[S (Z.to_nat (row - 1)) := a]> (GUI.steps g))).
  assert (Hlen : length l1 = length (GUI.steps g))
    by (unfold l1; now rewrite !length_insert).
  assert (Hn : (S (Z.to_nat (row - 1)) < length (GUI.steps g))%nat) by lia.
  assert (Hb1 : l1 !! Z.to_nat (row - 1) = Some b).
  { unfold l1. apply list_lookup_insert_eq. rewrite length_insert. lia. }
  assert (Ha1 : l1 !! S (Z.to_nat (row - 1)) = Some a).
  { unfold l1. rewrite list_lookup_insert_ne by lia.
    apply list_lookup_insert_eq. lia. }
  rewrite (move_step_down_in_range (row - 1) (GUI.changed g l1) b a);
    [|cbn; lia|exact Hb1|exact Ha1].
  eexists. split; [reflexivity|]. cbn. unfold l1.
  rewrite list_insert_insert_eq.
  rewrite (list_insert_insert_ne _ (Z.to_nat (row - 1)) (S (Z.to_nat (row - 1)))) by lia.
  rewrite list_insert_insert_eq.
  rewrite (list_insert_id _ _ _ Ha). apply list_insert_id. exact Hb.
Qed.

Lemma remove_step_out_of_range (row : Z) (g : GUI.MyChemyxGUI) :
  ~ 0 <= row < Z.of_nat (length (GUI.steps g)) -> GUI.remove_step row g = Some g.
Proof.
  intros Hr. unfold GUI.remove_step.
  destruct (Z.leb_spec 0 row), (Z.ltb_spec row (Z.of_nat (length (GUI.steps g))));
    try reflexivity. lia.
Qed.

Lemma remove_step_in_range (row : Z) (g : GUI.MyChemyxGUI) :
  0 <= row < Z.of_nat (length (GUI.steps g)) ->
  GUI.remove_step row g = Some (GUI.changed g (delete (Z.to_nat row) (GUI.steps g))).
Proof.
  intros Hr. unfold GUI.remove_step.
  rewrite (proj2 (Z.leb_le 0 row)), (proj2 (Z.ltb_lt row _)) by lia. cbn [andb].
  now rewrite pop_in_range by lia.
Qed.

(** X16. remove_step with the current row inside the program removes exactly
    that step and keeps the others in order; with no current row (-1) or a
    row outside the program it changes nothing, and it never raises.
    Removing the last row right after an accepted add_step gives back the
    program as it was. *)
Theorem remove_step_removes_the_current_row :
  (forall (current_row : Z) (g : GUI.MyChemyxGUI),
     exists g', GUI.remove_step current_row g = Some g' /\
       if (0 <=? current_row)%Z && (current_row <? Z.of_nat (length (GUI.steps g)))%Z
       then GUI.steps g' = take (Z.to_nat current_row) (GUI.steps g)
                             ++ drop (S (Z.to_nat current_row)) (GUI.steps g)
       else g' = g) /\
  (forall function ps (g : GUI.MyChemyxGUI),
     exists g',
       GUI.remove_step (Z.of_nat (length (GUI.steps g)))
         (GUI.add_step function (Some ps) g) = Some g' /\
       GUI.steps g' = GUI.steps g).
Proof.
  split.
  - intros row g.
    destruct (Z.leb_spec 0 row), (Z.ltb_spec row (Z.of_nat (length (GUI.steps g))));
      cbn [andb]; try (exists g; split; [apply remove_step_out_of_range; lia|reflexivity]).
    eexists. split; [apply remove_step_in_range; lia|].
    cbn. apply delete_take_drop.
  - intros f ps g. eexists. split.
    + apply remove_step_in_range. cbn. rewrite length_app. cbn. lia.
    + cbn. rewrite Nat2Z.id, delete_take_drop.
      rewrite take_app_length, drop_ge, app_nil_r; [reflexivity|].
      rewrite length_app. cbn. lia.
Qed.

Lemma changed_in_step (g : GUI.MyChemyxGUI) (l : list Step) :
  GUI.in_step (GUI.changed g l).
Proof. unfold GUI.in_step. cbn. apply length_imap. Qed.

Lemma update_row_colors_length (g : GUI.MyChemyxGUI) :
  length (GUI.steps_table (GUI._update_row_colors g)) = length (GUI.steps_table g).
Proof. cbn. apply length_imap. Qed.

(** What the slot of [step_changed] does for the index of a row of the
    table, when it raises nothing. *)
Lemma highlight_row (i : Z) (g g' : GUI.MyChemyxGUI) :
  0 <= i < Z.of_nat (length (GUI.steps_table g)) ->
  GUI.highlight_current_step i g = Some g' ->
  let completed :=
    if (0 <=? GUI.current_step_index g)%Z && (GUI.current_step_index g <? i)%Z
    then {[ GUI.current_step_index g ]} ∪ GUI.completed_steps g
    else GUI.completed_steps g in
  GUI.steps g' = GUI.steps g /\
  GUI.current_step_index g' = i /\
  GUI.completed_steps g' = completed /\
  GUI.selected_row g' = Some i /\
  GUI.steps_table g' =
    imap (fun j r => GUI.recolour r (if bool_decide (Z.of_nat j ∈ completed)
                                     then GUI.completed_green
                                     else GUI.table_background))
         (GUI.steps_table g) /\
  exists st, getitem (GUI.steps g) i = Some st /\
    GUI.execution_status_label g' =
      GUI.Executing (i + 1) (Z.of_nat (length (GUI.steps g))) (function st) (params st).
Proof.
  intros Hi. unfold GUI.highlight_current_step.
  set (completed := if (0 <=? GUI.current_step_index g)%Z
                       && (GUI.current_step_index g <? i)%Z
                    then _ else _).
  rewrite update_row_colors_length. cbn [GUI.with_marks GUI.steps_table].
  rewrite (proj2 (Z.leb_le 0 i)), (proj2 (Z.ltb_lt i _)) by lia. cbn [andb].
  cbn [GUI.steps GUI.with_marks GUI._update_row_colors GUI.with_table].
  destruct (getitem (GUI.steps g) i) as [st|] eqn:Hst; [|discriminate].
  cbn [mbind option_bind].
  destruct (py_truediv _ _) as [q|]; [|discriminate].
  destruct (py_int _) as [p|]; [|discriminate].
  intros Hx. injection Hx as <-. cbn. repeat split. eauto.
Qed.

(** X17. That the steps table has one row per step of the program is kept by
    add_step, remove_step, edit_step, move_step_up, move_step_down,
    highlight_current_step and execution_finished, whenever they do not
    raise. *)
Theorem table_has_a_row_per_step (g : GUI.MyChemyxGUI) :
  GUI.in_step g ->
  (forall function dialog, GUI.in_step (GUI.add_step function dialog g)) /\
  (forall row g', GUI.remove_step row g = Some g' -> GUI.in_step g') /\
  (forall row dialog g', GUI.edit_step row dialog g = Some g' -> GUI.in_step g') /\
  (forall row g', GUI.move_step_up row g = Some g' -> GUI.in_step g') /\
  (forall row g', GUI.move_step_down row g = Some g' -> GUI.in_step g') /\
  (forall i g', GUI.highlight_current_step i g = Some g' -> GUI.in_step g') /\
  (forall g', GUI.execution_finished g = Some g' -> GUI.in_step g').
Proof.
  intros Hg.
  assert (Hh : forall i g0 g', GUI.in_step g0 ->
             GUI.highlight_current_step i g0 = Some g' -> GUI.in_step g').
  { intros i g0 g' Hg0.
    destruct (Z.leb_spec 0 i), (Z.ltb_spec i (Z.of_nat (length (GUI.steps_table g0)))).
    - intros Hx. destruct (highlight_row i g0 g' ltac:(lia) Hx)
        as (Hs & _ & _ & _ & Ht & _).
      unfold GUI.in_step. rewrite Hs, Ht, length_imap. exact Hg0.
    - unfold GUI.highlight_current_step. rewrite update_row_colors_length.
      cbn [GUI.with_marks GUI.steps_table].
      rewrite (proj2 (Z.leb_le 0 i)), (proj2 (Z.ltb_ge i _)) by lia. cbn [andb].
      destruct (i =? -1)%Z; intros Hx; injection Hx as <-;
        unfold GUI.in_step; cbn; rewrite ?length_imap; exact Hg0.
    - unfold GUI.highlight_current_step.
      rewrite (proj2 (Z.leb_gt 0 i)) by lia. cbn [andb].
      destruct (i =? -1)%Z; intros Hx; injection Hx as <-;
        unfold GUI.in_step; cbn; rewrite ?length_imap; exact Hg0.
    - unfold GUI.highlight_current_step.
      rewrite (proj2 (Z.leb_gt 0 i)) by lia. cbn [andb].
      destruct (i =? -1)%Z; intros Hx; injection Hx as <-;
        unfold GUI.in_step; cbn; rewrite ?length_imap; exact Hg0. }
  repeat split.
  - intros f [ps|]; [apply changed_in_step|exact Hg].
  - intros row g'. unfold GUI.remove_step.
    destruct (_ && _); [|now intros [= <-]].
    destruct (pop _ _); [|discriminate]. intros [= <-]. apply changed_in_step.
  - intros row dialog g'. unfold GUI.edit_step.
    destruct (_ && _); [|now intros [= <-]].
    destruct (getitem _ _); [|discriminate]. cbn [mbind option_bind].
    destruct dialog; [|now intros [= <-]].
    destruct (setitem _ _ _); [|discriminate]. intros [= <-]. apply changed_in_step.
  - intros row g'. unfold GUI.move_step_up.
    destruct (_ && _); [|now intros [= <-]].
    repeat (match goal with
            | |- context [mbind _ ?o] => destruct o; [|discriminate]
            end; cbn [mbind option_bind]).
    intros [= <-]. apply changed_in_step.
  - intros row g'. unfold GUI.move_step_down.
    destruct (_ && _); [|now intros [= <-]].
    repeat (match goal with
            | |- context [mbind _ ?o] => destruct o; [|discriminate]
            end; cbn [mbind option_bind]).
    intros [= <-]. apply changed_in_step.
  - intros i g'. now apply Hh.
  - intros g'. unfold GUI.execution_finished. apply Hh. exact Hg.
Qed.

(** ** The display of a run *)

Lemma deliver_snoc (announced : list nat) (i : nat) (g : GUI.MyChemyxGUI) :
  GUI.deliver (announced ++ [i]) g =
    GUI.deliver announced g ≫= GUI.highlight_current_step (Z.of_nat i).
Proof. unfold GUI.deliver. now rewrite foldl_app. Qed.

Lemma elem_of_range (n : nat) (i : Z) : i ∈ GUI.range n <-> 0 <= i < Z.of_nat n.
Proof.
  unfold GUI.range. rewrite elem_of_list_to_set, list_elem_of_fmap. split.
  - intros (j & -> & Hj). apply elem_of_seq in Hj. lia.
  - intros Hi. exists (Z.to_nat i). split; [lia|]. apply elem_of_seq. lia.
Qed.

Lemma range_S (n : nat) : GUI.range (S n) = {[ Z.of_nat n ]} ∪ GUI.range n.
Proof.
  apply set_eq. intros i. rewrite elem_of_union, elem_of_singleton, !elem_of_range. lia.
Qed.

Lemma highlight_index (i : Z) (g g' : GUI.MyChemyxGUI) :
  GUI.highlight_current_step i g = Some g' -> GUI.current_step_index g' = i.
Proof.
  unfold GUI.highlight_current_step. destruct (_ && _).
  - destruct (getitem _ _); [|discriminate]. cbn [mbind option_bind].
    destruct (py_truediv _ _); [|discriminate].
    destruct (py_int _); [|discriminate]. now intros [= <-].
  - destruct (i =? -1)%Z; now intros [= <-].
Qed.

Lemma delivery_only_adds_marks_lemma (announced : list nat) (g g' : GUI.MyChemyxGUI) :
  GUI.in_step g ->
  Forall (fun i => (i < length (GUI.steps g))%nat) announced ->
  GUI.deliver announced g = Some g' ->
  GUI.steps g' = GUI.steps g /\ GUI.in_step g' /\
  GUI.completed_steps g ⊆ GUI.completed_steps g' /\
  (forall i, i ∈ GUI.completed_steps g' ->
     i ∈ GUI.completed_steps g \/ i = GUI.current_step_index g \/
     exists n, n ∈ announced /\ i = Z.of_nat n) /\
  (GUI.execution_status_label g <> GUI.ExecutionComplete ->
   GUI.execution_status_label g' <> GUI.ExecutionComplete).
Proof.
  intros Hg. revert g'.
  induction announced as [|n announced IH] using rev_ind; intros g' Hall Hd.
  - injection Hd as <-. repeat split; auto.
  - apply Forall_app in Hall as [Hall Hn]. apply Forall_inv in Hn.
    rewrite deliver_snoc in Hd.
    destruct (GUI.deliver announced g) as [g1|] eqn:Hd1; [|discriminate].
    cbn [mbind option_bind] in Hd.
    destruct (IH g1 Hall eq_refl) as (S1 & T1 & C1 & M1 & L1).
    assert (Hrow : 0 <= Z.of_nat n < Z.of_nat (length (GUI.steps_table g1))).
    { rewrite T1, S1. lia. }
    destruct (highlight_row _ _ _ Hrow Hd) as (S2 & I2 & C2 & _ & T2 & st & _ & L2).
    (* the index before this one, when there is one, was announced *)
    assert (Hprev : GUI.current_step_index g1 = GUI.current_step_index g \/
                    exists m, m ∈ announced /\ GUI.current_step_index g1 = Z.of_nat m).
    { clear -Hd1 Hall Hg. revert g1 Hd1.
      induction announced as [|m announced IH] using rev_ind; intros g1 Hd1.
      - injection Hd1 as <-. now left.
      - apply Forall_app in Hall as [Hall Hm]. apply Forall_inv in Hm.
        rewrite deliver_snoc in Hd1.
        destruct (GUI.deliver announced g) as [g0|] eqn:Hd0; [|discriminate].
        cbn [mbind option_bind] in Hd1. right. exists m. split; [set_solver|].
        now apply highlight_index in Hd1. }
    repeat split.
    + congruence.
    + unfold GUI.in_step. rewrite S2, T2, length_imap. exact T1.
    + rewrite C2. case_match; set_solver.
    + intros i Hi. rewrite C2 in Hi.
      assert (Hold : i ∈ GUI.completed_steps g1 ->
                i ∈ GUI.completed_steps g \/ i = GUI.current_step_index g \/
                exists k, k ∈ announced ++ [n] /\ i = Z.of_nat k).
      { intros Hin. destruct (M1 i Hin) as [?|[?|(k & ? & ?)]]; auto.
        right. right. exists k. split; [set_solver|assumption]. }
      case_match; [|now apply Hold].
      apply elem_of_union in Hi as [Hi|Hi]; [|now apply Hold].
      apply elem_of_singleton in Hi. subst i.
      destruct Hprev as [->|(m & Hm & ->)]; auto.
      right. right. exists m. split; [set_solver|reflexivity].
    + intros _. rewrite L2. discriminate.
Qed.

(** X18. When the signals step_changed(0), ..., step_changed(k) are
    delivered in order to a window with no current step and no completed
    step, and k is a step of the program, then the current step index is k,
    the completed steps are exactly 0, ..., k-1, and the rows before k are
    green while all other rows have the background of the table. *)
Theorem straight_run_marks_steps_before (k : nat) (g g' : GUI.MyChemyxGUI) :
  GUI.in_step g -> GUI.current_step_index g < 0 -> GUI.completed_steps g = ∅ ->
  (k < length (GUI.steps g))%nat ->
  GUI.deliver (seq 0 (S k)) g = Some g' ->
  GUI.current_step_index g' = Z.of_nat k /\
  GUI.completed_steps g' = GUI.range k /\
  forall j r, GUI.steps_table g' !! j = Some r ->
    GUI.background r = if (j <? k)%nat then GUI.completed_green
                       else GUI.table_background.
Proof.
  intros Hg Hidx Hnone. revert g'.
  assert (Hcol : forall (g1 g2 : GUI.MyChemyxGUI) (n : nat),
             GUI.steps_table g2 =
               imap (fun j r => GUI.recolour r
                        (if bool_decide (Z.of_nat j ∈ GUI.range n)
                         then GUI.completed_green else GUI.table_background))
                    (GUI.steps_table g1) ->
             forall j r, GUI.steps_table g2 !! j = Some r ->
               GUI.background r = if (j <? n)%nat then GUI.completed_green
                                  else GUI.table_background).
  { intros g1 g2 n Ht j r Hr. rewrite Ht, list_lookup_imap in Hr.
    destruct (GUI.steps_table g1 !! j) as [r0|]; [|discriminate].
    injection Hr as <-. cbn [GUI.background GUI.recolour].
    destruct (Nat.ltb_spec j n).
    - rewrite bool_decide_true; [reflexivity|]. apply elem_of_range. lia.
    - rewrite bool_decide_false; [reflexivity|]. rewrite elem_of_range. lia. }
  induction k as [|k IH]; intros g' Hk Hd.
  - cbn in Hd.
    assert (Hrow : 0 <= Z.of_nat 0 < Z.of_nat (length (GUI.steps_table g))).
    { rewrite Hg. lia. }
    destruct (highlight_row _ _ _ Hrow Hd) as (_ & I2 & C2 & _ & T2 & _).
    rewrite (proj2 (Z.leb_gt 0 _)) in C2, T2 by lia. cbn [andb] in C2, T2.
    rewrite Hnone in C2, T2.
    assert (Hr0 : GUI.range 0 = ∅) by reflexivity.
    split; [exact I2|]. split; [now rewrite C2|].
    apply (Hcol g g' 0%nat). now rewrite Hr0.
  - rewrite seq_S, deliver_snoc in Hd. cbn [Nat.add] in Hd.
    destruct (GUI.deliver (seq 0 (S k)) g) as [g1|] eqn:Hd1; [|discriminate].
    cbn [mbind option_bind] in Hd.
    destruct (IH g1 ltac:(lia) eq_refl) as (I1 & C1 & _).
    assert (Hall : Forall (fun i => (i < length (GUI.steps g))%nat) (seq 0 (S k))).
    { apply Forall_forall. intros i Hi. apply elem_of_seq in Hi. lia. }
    destruct (delivery_only_adds_marks_lemma _ _ _ Hg Hall Hd1) as (S1 & T1 & _).
    assert (Hrow : 0 <= Z.of_nat (S k) < Z.of_nat (length (GUI.steps_table g1))).
    { rewrite T1, S1. lia. }
    destruct (highlight_row _ _ _ Hrow Hd) as (_ & I2 & C2 & _ & T2 & _).
    rewrite I1, C1 in C2, T2.
    rewrite (proj2 (Z.leb_le 0 _)), (proj2 (Z.ltb_lt _ _)) in C2, T2 by lia.
    cbn [andb] in C2, T2. rewrite <- range_S in C2, T2.
    split; [exact I2|]. split; [exact C2|]. now apply (Hcol g1 g' (S k)).
Qed.

(** X19. Delivering step_changed signals whose indices are steps of the
    program never changes the program, keeps one table row per step, never
    unmarks a completed step, marks only the index that was current before
    or an announced one, and never shows Execution Complete if it was not
    shown before. *)
Theorem delivery_only_adds_marks (announced : list nat) (g g' : GUI.MyChemyxGUI) :
  GUI.in_step g ->
  Forall (fun i => (i < length (GUI.steps g))%nat) announced ->
  GUI.deliver announced g = Some g' ->
  GUI.steps g' = GUI.steps g /\ GUI.in_step g' /\
  GUI.completed_steps g ⊆ GUI.completed_steps g' /\
  (forall i, i ∈ GUI.completed_steps g' ->
     i ∈ GUI.completed_steps g \/ i = GUI.current_step_index g \/
     exists n, n ∈ announced /\ i = Z.of_nat n) /\
  (GUI.execution_status_label g <> GUI.ExecutionComplete ->
   GUI.execution_status_label g' <> GUI.ExecutionComplete).
Proof. apply delivery_only_adds_marks_lemma. Qed.

(** X20. When the step_changed signals of a run of execute_steps that ends
    are delivered in order to a window that shows the program of the
    executor, the status never becomes Execution Complete; the slot
    execution_finished then leaves the status Ready, the progress value 0,
    no current step (-1), no completed step, is_running and is_paused False,
    and the program unchanged. *)
Theorem run_ends_with_display_reset {H : Type} `{Connection H}
    (fuel : nat) (calls : nat -> list gui_call) (ex ex' : StepExecutor H)
    (evs : list event) (g g1 : GUI.MyChemyxGUI) :
  execute_steps fuel calls ex = Some ex' ->
  trace (shared ex') = trace (shared ex) ++ evs ->
  GUI.steps g = steps ex -> GUI.in_step g ->
  GUI.execution_status_label g <> GUI.ExecutionComplete ->
  GUI.deliver (indices evs) g = Some g1 ->
  GUI.execution_status_label g1 <> GUI.ExecutionComplete /\
  exists g2, GUI.execution_finished g1 = Some g2 /\
    GUI.execution_status_label g2 = GUI.Ready /\
    GUI.progress_value g2 = 0 /\
    GUI.current_step_index g2 = -1 /\
    GUI.completed_steps g2 = ∅ /\
    GUI.is_running g2 = false /\ GUI.is_paused g2 = false /\
    GUI.steps g2 = steps ex.
Proof.
  intros Hx Ht Hs Hg Hl Hd.
  destruct (run_announces_steps _ _ _ _ Hx) as (evs' & Ht' & Hall).
  rewrite Ht in Ht'. apply app_inv_head in Ht'. subst evs'.
  rewrite <- Hs in Hall.
  destruct (delivery_only_adds_marks_lemma _ _ _ Hg Hall Hd) as (S1 & _ & _ & _ & L1).
  split; [now apply L1|].
  eexists. split; [reflexivity|]. cbn. repeat split. congruence.
Qed.

(** ** The vendor's window *)

Lemma sent_app (l1 l2 : list Dev.action) : Dev.sent (l1 ++ l2) = Dev.sent l1 ++ Dev.sent l2.
Proof. apply omap_app. Qed.

Section DevFacts.
Context {H : Type} `{Connection H}.

Lemma dev_bind_inv {A B} (m : Dev.D H A) (k : A -> Dev.D H B) (s s' : Dev.ChemyxPumpGUI H)
    (r : Dev.result B) :
  (m ≫= k) s = (s', r) ->
  (exists s1 a, m s = (s1, Dev.Done a) /\ k a s1 = (s', r)) \/
  (exists f, m s = (s', Dev.Failed f) /\ r = Dev.Failed f).
Proof.
  unfold mbind, Dev.D_bind. destruct (m s) as [s1 [a|f]]; intros E.
  - left. eauto.
  - right. injection E as <- <-. eauto.
Qed.

(** A call of a method the connection has: it is entered, and what it
    returns or raises is the outcome. *)
Lemma method_entered (name : string) (args : list pyval) (s : Dev.ChemyxPumpGUI H) :
  attribute H name = Some Method ->
  Dev.method name args s =
    (Dev.with_connection s (fst (invoke name args [] (Dev.CONNECTION s)))
       (Dev.log s ++ [Dev.Sent name args]),
     Dev.of_outcome (snd (invoke name args [] (Dev.CONNECTION s)))).
Proof.
  intros Ha. unfold Dev.method, Dev.getattr. rewrite Ha.
  unfold mbind, Dev.D_bind, mret, Dev.D_ret, Dev.call.
  now destruct (invoke name args [] (Dev.CONNECTION s)) as [h' [v|e]].
Qed.

Lemma pause_once (s : Dev.ChemyxPumpGUI H) :
  exposes H ["pausePump"; "startPump"] ->
  always_return H ["pausePump"; "startPump"] ->
  Dev.connected s = true ->
  Dev.connected (fst (Dev.pause s)) = true /\
  Dev.isRunning (fst (Dev.pause s)) = Dev.isRunning s /\
  Dev.sent (Dev.log (fst (Dev.pause s))) =
    Dev.sent (Dev.log s)
      ++ [(if Dev.isRunning s then "pausePump" else "startPump", [])] /\
  Dev.pauseBtn (fst (Dev.pause s)) = if Dev.isRunning s then "Unpause" else "Pause".
Proof.
  intros Hex Hret Hc.
  assert (Hp : attribute H "pausePump" = Some Method) by (apply Hex; set_solver).
  assert (Hs : attribute H "startPump" = Some Method) by (apply Hex; set_solver).
  destruct (Dev.pause s) as [s2 r] eqn:E. unfold Dev.pause in E. rewrite Hc in E.
  destruct (Dev.isRunning s) eqn:Hrun.
  - destruct (Hret "pausePump" [] [] (Dev.CONNECTION s)) as (h' & v & Hi);
      [set_solver|].
    unfold mbind at 1, Dev.D_bind at 1 in E. rewrite (method_entered _ _ _ Hp), Hi in E.
    injection E as <- _. cbn -[Dev.sent]. rewrite Hc, !sent_app. cbn.
    rewrite app_nil_r. auto.
  - destruct (Hret "startPump" [] [] (Dev.CONNECTION s)) as (h' & v & Hi);
      [set_solver|].
    unfold mbind at 1, Dev.D_bind at 1 in E. rewrite (method_entered _ _ _ Hs), Hi in E.
    injection E as <- _. cbn -[Dev.sent]. rewrite Hc, !sent_app. cbn.
    rewrite app_nil_r. auto.
Qed.

(** X21. pause never changes isRunning, so on a connected window n presses
    of the pause button send the same command n times, pausePump when a run
    is on and startPump otherwise; the button then reads Unpause when a run
    is on and Pause otherwise, and the window stays connected (the pump has
    both methods and they return). *)
Theorem pause_repeats_one_command (n : nat) (s : Dev.ChemyxPumpGUI H) :
  exposes H ["pausePump"; "startPump"] ->
  always_return H ["pausePump"; "startPump"] ->
  Dev.connected s = true ->
  let s' := Nat.iter n (fun s => fst (Dev.pause s)) s in
  Dev.connected s' = true /\ Dev.isRunning s' = Dev.isRunning s /\
  Dev.sent (Dev.log s') =
    Dev.sent (Dev.log s)
      ++ replicate n (if Dev.isRunning s then "pausePump" else "startPump", []) /\
  ((0 < n)%nat -> Dev.pauseBtn s' = if Dev.isRunning s then "Unpause" else "Pause").
Proof.
  intros Hex Hret Hc. induction n as [|n IH]; cbn zeta.
  - cbn. rewrite app_nil_r. repeat split; auto. lia.
  - rewrite !Nat.iter_succ. cbv beta zeta in *.
    set (s1 := Nat.iter n (fun s => fst (Dev.pause s)) s) in *.
    destruct IH as (C1 & R1 & L1 & _).
    destruct (pause_once s1 Hex Hret C1) as (C2 & R2 & L2 & B2).
    rewrite C2, R2, L2, B2, R1, L1, <- app_assoc.
    repeat split; auto. f_equal.
    change (S n) with (1 + n)%nat. rewrite Nat.add_comm, replicate_add. reflexivity.
Qed.

End DevFacts.

Section DevCalls.
Context {H : Type} `{Connection H}.

Lemma calls_only_bind {A B} (allowed : list string) (m : Dev.D H A) (k : A -> Dev.D H B) :
  Dev.calls_only allowed m -> (forall a, Dev.calls_only allowed (k a)) ->
  Dev.calls_only allowed (m ≫= k).
Proof.
  intros Hm Hk s s' r E.
  apply dev_bind_inv in E as [(s1 & a & E1 & E2)|(f & E1 & _)].
  - destruct (Hm _ _ _ E1) as (C1 & R1 & B1 & W1 & calls1 & L1 & F1).
    destruct (Hk a _ _ _ E2) as (C2 & R2 & B2 & W2 & calls2 & L2 & F2).
    repeat split; try congruence.
    exists (calls1 ++ calls2). rewrite L2, L1, <- app_assoc. split; [reflexivity|].
    now apply Forall_app.
  - now apply Hm in E1.
Qed.

Lemma calls_only_still {A} (allowed : list string) (r : Dev.result A) :
  Dev.calls_only allowed (Dev.pure r : Dev.D H A).
Proof.
  intros s s' r' E. injection E as <- _. repeat split.
  exists []. now rewrite app_nil_r.
Qed.

Lemma calls_only_ret {A} (allowed : list string) (a : A) :
  Dev.calls_only allowed (mret a : Dev.D H A).
Proof. apply (calls_only_still allowed (Dev.Done a)). Qed.

Lemma calls_only_fail {A} (allowed : list string) (f : Dev.failure) :
  Dev.calls_only allowed (Dev.fail f : Dev.D H A).
Proof. apply (calls_only_still allowed (Dev.Failed f)). Qed.

Lemma calls_only_getattr (allowed : list string) (name : string) :
  Dev.calls_only allowed (Dev.getattr name).
Proof.
  unfold Dev.getattr. destruct (attribute H name);
    [apply calls_only_ret|apply calls_only_fail].
Qed.

Lemma calls_only_call (allowed : list string) (name : string) (k : attr_kind) args :
  name ∈ allowed -> Dev.calls_only allowed (Dev.call name k args).
Proof.
  intros Hin. destruct k as [|ty]; [|apply calls_only_fail].
  intros s s' r. unfold Dev.call.
  destruct (invoke name args [] (Dev.CONNECTION s)) as [h' o].
  intros E. injection E as <- _. cbn -[Dev.sent]. repeat split.
  exists [(name, args)]. rewrite sent_app. split; [reflexivity|].
  constructor; [exact Hin|constructor].
Qed.

Lemma calls_only_method (allowed : list string) (name : string) args :
  name ∈ allowed -> Dev.calls_only allowed (Dev.method name args).
Proof.
  intros Hin. apply calls_only_bind; [apply calls_only_getattr|].
  intros k. now apply calls_only_call.
Qed.

Lemma calls_only_lookup_all (allowed names : list string) :
  Dev.calls_only allowed (Dev.lookup_all names).
Proof.
  induction names as [|name names IH]; cbn [Dev.lookup_all]; [apply calls_only_ret|].
  apply calls_only_bind; [apply calls_only_getattr|intros k].
  apply calls_only_bind; [exact IH|intros ks]. apply calls_only_ret.
Qed.

Lemma calls_only_send (allowed funcs : list string) funcref texts :
  funcs ⊆ allowed -> Dev.calls_only allowed (Dev.send funcs funcref texts).
Proof.
  revert funcref texts.
  induction funcs as [|name funcs IH]; intros funcref texts Hsub;
    [apply calls_only_ret|].
  destruct funcref as [|k funcref]; [apply calls_only_ret|].
  destruct texts as [|text texts]; [apply calls_only_ret|].
  cbn [Dev.send]. destruct (text =? "")%string; [apply calls_only_fail|].
  apply calls_only_bind; [apply calls_only_call; set_solver|intros _].
  apply calls_only_bind; [apply IH; set_solver|intros vs]. apply calls_only_ret.
Qed.

Lemma calls_only_sendFromGUI (float_of_str : string -> outcome float) :
  Dev.calls_only (Dev.setter_names ++ ["getParameters"]) (Dev.sendFromGUI float_of_str).
Proof.
  unfold Dev.sendFromGUI.
  apply calls_only_bind; [apply calls_only_lookup_all|intros funcref].
  apply calls_only_bind.
  { intros s s' r E.
    destruct (calls_only_send (Dev.setter_names ++ ["getParameters"]) Dev.setter_names
                funcref (Dev.widget_texts s) ltac:(set_solver) s s' r E)
      as (? & ? & ? & ? & ?). auto. }
  intros values.
  apply calls_only_bind; [apply calls_only_method; set_solver|intros readout].
  apply calls_only_bind; [apply calls_only_still|intros params].
  apply calls_only_still.
Qed.

End DevCalls.

Section DevStart.
Context {H : Type} `{Connection H}.
Variable float_of_str : string -> outcome float.

(** X22. start sends startPump only when the window is connected and
    sendFromGUI has finished without an error; when start fails, isRunning
    and the text of the pause button are as they were. *)
Theorem start_only_after_validation (s s' : Dev.ChemyxPumpGUI H) (r : Dev.result unit) :
  Dev.start float_of_str s = (s', r) ->
  exists calls, Dev.sent (Dev.log s') = Dev.sent (Dev.log s) ++ calls /\
    (forall args, ("startPump", args) ∈ calls ->
       Dev.connected s = true /\
       exists s1,
         Dev.sendFromGUI float_of_str
           (fst (Dev.note (Dev.Info "Sending Pump Variables from GUI") s))
         = (s1, Dev.Done tt)) /\
    (r <> Dev.Done tt ->
       Dev.isRunning s' = Dev.isRunning s /\ Dev.pauseBtn s' = Dev.pauseBtn s).
Proof.
  unfold Dev.start. destruct (Dev.connected s) eqn:Hc.
  2:{ intros E. injection E as <- <-. exists []. rewrite app_nil_r.
      split; [reflexivity|]. split; [|congruence].
      intros args Hin. now apply elem_of_nil in Hin. }
  intros E.
  apply dev_bind_inv in E as [(s0 & [] & E0 & E)|(f & E0 & _)]; [|discriminate].
  injection E0 as <-.
  set (s0 := Dev.with_connection s (Dev.CONNECTION s) _) in *.
  assert (L0 : Dev.sent (Dev.log s0) = Dev.sent (Dev.log s)).
  { unfold s0. cbn -[Dev.sent]. rewrite sent_app. cbn. now rewrite app_nil_r. }
  apply dev_bind_inv in E as [(s1 & [] & E1 & E)|(f & E1 & ->)].
  - destruct (calls_only_sendFromGUI float_of_str _ _ _ E1)
      as (C1 & R1 & B1 & _ & calls1 & L1 & F1).
    assert (Hrest : exists calls2, Dev.sent (Dev.log s') = Dev.sent (Dev.log s1) ++ calls2 /\
              (r <> Dev.Done tt ->
                 Dev.isRunning s' = Dev.isRunning s1 /\ Dev.pauseBtn s' = Dev.pauseBtn s1)).
    { apply dev_bind_inv in E as [(s2 & v & E2 & E)|(f & E2 & ->)].
      - destruct (calls_only_method ["startPump"] "startPump" [] ltac:(set_solver)
                    _ _ _ E2) as (_ & _ & _ & _ & calls2 & L2 & _).
        cbn -[Dev.sent] in E. injection E as <- <-.
        exists calls2. cbn -[Dev.sent]. rewrite sent_app, L2. cbn.
        rewrite app_nil_r. split; [reflexivity|congruence].
      - destruct (calls_only_method ["startPump"] "startPump" [] ltac:(set_solver)
                    _ _ _ E2) as (_ & R2 & B2 & _ & calls2 & L2 & _).
        exists calls2. auto. }
    destruct Hrest as (calls2 & L2 & Hr).
    exists (calls1 ++ calls2). rewrite L2, L1, L0, <- app_assoc.
    split; [reflexivity|]. split.
    + intros args Hin. split; [reflexivity|]. eauto.
    + intros Hne. destruct (Hr Hne) as [-> ->]. split; [exact R1|exact B1].
  - destruct (calls_only_sendFromGUI float_of_str _ _ _ E1)
      as (C1 & R1 & B1 & _ & calls1 & L1 & F1).
    exists calls1. rewrite L1, L0. split; [reflexivity|]. split.
    + intros args Hin. rewrite Forall_forall in F1. apply F1 in Hin.
      cbn in Hin. exfalso. clear -Hin. set_solver.
    + intros _. split; [exact R1|exact B1].
Qed.

End DevStart.

Section DevSend.
Context {H : Type} `{Connection H}.
Variable float_of_str : string -> outcome float.

Lemma lookup_all_exposed (names : list string) (s : Dev.ChemyxPumpGUI H) :
  exposes H names ->
  Dev.lookup_all names s = (s, Dev.Done (replicate (length names) Method)).
Proof.
  intros Hex. induction names as [|name names IH]; [reflexivity|].
  cbn [Dev.lookup_all]. unfold mbind, Dev.D_bind, Dev.getattr.
  rewrite (Hex name) by set_solver. cbn.
  fold (@mbind (Dev.D H) _). 
  assert (Hex' : exposes H names) by (intros n Hn; apply Hex; set_solver).
  specialize (IH Hex'). unfold mbind, Dev.D_bind in *. now rewrite IH.
Qed.

(** The calls of the first loop for the texts [texts]. *)
Lemma send_all (funcs texts : list string) (s : Dev.ChemyxPumpGUI H) :
  always_return H funcs -> length funcs = length texts ->
  Forall (fun t => t <> "") texts ->
  exists s',
    Dev.send funcs (replicate (length funcs) Method) texts s = (s', Dev.Done texts) /\
    Dev.sent (Dev.log s') =
      Dev.sent (Dev.log s) ++ zip funcs ((fun t => [PyStr t]) <$> texts) /\
    Dev.widget_texts s' = Dev.widget_texts s.
Proof.
  revert texts s. induction funcs as [|name funcs IH]; intros texts s Hret Hlen Hne.
  - destruct texts; [|discriminate]. exists s. cbn. now rewrite app_nil_r.
  - destruct texts as [|text texts]; [discriminate|].
    apply Forall_cons in Hne as [Hne1 Hne].
    cbn [Dev.send replicate length].
    rewrite (proj2 (String.eqb_neq _ _) Hne1).
    destruct (Hret name [PyStr text] [] (Dev.CONNECTION s)) as (h' & v & Hi);
      [set_solver|].
    unfold mbind at 1, Dev.D_bind at 1. unfold Dev.call. rewrite Hi.
    set (s1 := Dev.with_connection s h' _).
    destruct (IH texts s1) as (s' & E & L & W).
    { intros n a k h0 Hn. apply Hret. set_solver. }
    { cbn in Hlen. lia. }
    { exact Hne. }
    exists s'. unfold mbind, Dev.D_bind. rewrite E. split; [reflexivity|].
    rewrite L. unfold s1. cbn -[Dev.sent]. rewrite sent_app. cbn.
    rewrite <- app_assoc. split; [reflexivity|exact W].
Qed.

(** The calls of the first loop when the text of place [k] is empty. *)
Lemma send_stops (funcs texts : list string) (k : nat) (s : Dev.ChemyxPumpGUI H) :
  always_return H funcs -> length funcs = length texts ->
  texts !! k = Some "" -> Forall (fun t => t <> "") (take k texts) ->
  exists s',
    Dev.send funcs (replicate (length funcs) Method) texts s =
      (s', Dev.Failed (Dev.AssertionError
                         "ERROR: Must enter all pump variables before starting run.")) /\
    Dev.sent (Dev.log s') =
      Dev.sent (Dev.log s) ++ zip (take k funcs) ((fun t => [PyStr t]) <$> take k texts).
Proof.
  revert texts k s. induction funcs as [|name funcs IH]; intros texts k s Hret Hlen Hk Hne.
  - destruct texts; [|discriminate]. now rewrite lookup_nil in Hk.
  - destruct texts as [|text texts]; [discriminate|].
    cbn [Dev.send replicate length]. destruct k as [|k].
    + injection Hk as ->. cbn. exists s. now rewrite app_nil_r.
    + cbn in Hk, Hne. apply Forall_cons in Hne as [Hne1 Hne].
      rewrite (proj2 (String.eqb_neq _ _) Hne1).
      destruct (Hret name [PyStr text] [] (Dev.CONNECTION s)) as (h' & v & Hi);
        [set_solver|].
      unfold mbind at 1, Dev.D_bind at 1. unfold Dev.call. rewrite Hi.
      set (s1 := Dev.with_connection s h' _).
      destruct (IH texts k s1) as (s' & E & L).
      { intros n a kw h0 Hn. apply Hret. set_solver. }
      { cbn in Hlen. lia. }
      { exact Hk. }
      { exact Hne. }
      exists s'. unfold mbind, Dev.D_bind. rewrite E. split; [reflexivity|].
      rewrite L. unfold s1. cbn -[Dev.sent]. rewrite sent_app. cbn.
      now rewrite <- app_assoc.
Qed.

(** X23. If the widget at position k is the first one with an empty text,
    sendFromGUI fails with the AssertionError for the variables that must be
    entered, but only after the values of the k widgets before it have been
    sent to the pump with their setters, in order (the setters exist and
    return). *)
Theorem empty_field_stops_sending (k : nat) (s : Dev.ChemyxPumpGUI H) :
  exposes H Dev.setter_names -> always_return H Dev.setter_names ->
  Dev.widget_texts s !! k = Some "" ->
  Forall (fun t => t <> "") (take k (Dev.widget_texts s)) ->
  exists s',
    Dev.sendFromGUI float_of_str s =
      (s', Dev.Failed (Dev.AssertionError
                         "ERROR: Must enter all pump variables before starting run.")) /\
    Dev.sent (Dev.log s') =
      Dev.sent (Dev.log s)
        ++ zip (take k Dev.setter_names)
               ((fun t => [PyStr t]) <$> take k (Dev.widget_texts s)).
Proof.
  intros Hex Hret Hk Hne. unfold Dev.sendFromGUI.
  unfold mbind at 1, Dev.D_bind at 1. rewrite (lookup_all_exposed _ _ Hex).
  destruct (send_stops Dev.setter_names (Dev.widget_texts s) k s Hret eq_refl Hk Hne)
    as (s' & E & L).
  exists s'. unfold mbind at 1, Dev.D_bind at 1. rewrite E. split; [reflexivity|exact L].
Qed.

(** X24. With all five widgets filled in and setters that return,
    sendFromGUI sends the five values with setUnits, setDiameter, setVolume,
    setRate and setDelay in this order and then calls getParameters, whether
    or not the validation passes afterwards. It succeeds exactly when
    getParameters returns, the five fields can be read from its readout, and
    the four values after the units equal, as floats, the magnitude of what
    was sent. *)
Theorem values_are_sent_before_they_are_checked (s : Dev.ChemyxPumpGUI H) :
  exposes H (Dev.setter_names ++ ["getParameters"]) ->
  always_return H Dev.setter_names ->
  Forall (fun t => t <> "") (Dev.widget_texts s) ->
  exists s1 s' r,
    Dev.send Dev.setter_names (replicate 5 Method) (Dev.widget_texts s) s =
      (s1, Dev.Done (Dev.widget_texts s)) /\
    Dev.sendFromGUI float_of_str s = (s', r) /\
    Dev.sent (Dev.log s') =
      Dev.sent (Dev.log s)
        ++ zip Dev.setter_names ((fun t => [PyStr t]) <$> Dev.widget_texts s)
        ++ [("getParameters", [])] /\
    (r = Dev.Done tt <->
     exists readout params,
       snd (invoke "getParameters" [] [] (Dev.CONNECTION s1)) = Returned readout /\
       Dev.read_params readout [1; 2; 6; 3; 7]%nat = Dev.Done params /\
       Dev.validate float_of_str (tail Dev.names) (tail params)
         (tail (Dev.widget_texts s)) = Dev.Done tt).
Proof.
  intros Hex Hret Hne.
  assert (Hex5 : exposes H Dev.setter_names) by (intros n Hn; apply Hex; set_solver).
  assert (Hget : attribute H "getParameters" = Some Method) by (apply Hex; set_solver).
  destruct (send_all Dev.setter_names (Dev.widget_texts s) s Hret eq_refl Hne)
    as (s1 & E1 & L1 & W1).
  change (length Dev.setter_names) with 5%nat in *.
  exists s1. unfold Dev.sendFromGUI.
  unfold mbind at 1, Dev.D_bind at 1. rewrite (lookup_all_exposed _ _ Hex5).
  change (length Dev.setter_names) with 5%nat.
  unfold mbind at 1, Dev.D_bind at 1. rewrite E1.
  unfold mbind at 1, Dev.D_bind at 1. rewrite (method_entered _ _ _ Hget).
  destruct (invoke "getParameters" [] [] (Dev.CONNECTION s1)) as [h' [readout|e]] eqn:Hi;
    cbn [fst snd Dev.of_outcome].
  - unfold mbind, Dev.D_bind, Dev.pure.
    destruct (Dev.read_params readout _) as [params|f] eqn:Hp.
    + eexists _, _. split; [reflexivity|]. split; [reflexivity|].
      cbn -[Dev.sent Dev.validate Dev.read_params].
      rewrite sent_app, L1, <- app_assoc. split; [reflexivity|]. split.
      * intros Hr. exists readout, params. auto.
      * intros (readout' & params' & Hro & Hp' & Hv). cbn in Hro.
        assert (readout' = readout) by congruence. subst readout'.
        assert (params' = params) by congruence. subst params'. exact Hv.
    + eexists _, _. split; [reflexivity|]. split; [reflexivity|]. cbn -[Dev.sent Dev.validate Dev.read_params].
      rewrite sent_app, L1, <- app_assoc. split; [reflexivity|]. split; [discriminate|].
      intros (readout' & params' & Hro & Hp' & _). cbn in Hro.
      assert (readout' = readout) by congruence. subst readout'. congruence.
  - eexists _, _. split; [reflexivity|]. split; [reflexivity|]. cbn -[Dev.sent Dev.validate Dev.read_params].
    rewrite sent_app, L1, <- app_assoc. split; [reflexivity|]. split; [discriminate|].
    intros (readout' & params' & Hro & _). discriminate.
Qed.

(** X25. connect on a connected window, or with no port selected, never
    fails and always leaves the window disconnected: the label reads
    DISCONNECTED, the button Connect, the port, scan and baud widgets are
    enabled, closeConnection was called at most once and whatever it raised
    was dropped. isRunning is left as it was. *)
Theorem connect_drops_the_link (s : Dev.ChemyxPumpGUI H) :
  Dev.connected s = true \/ Dev.serportCBox s = "" ->
  exists s', Dev.connect s = (s', Dev.Done tt) /\
    Dev.connected s' = false /\ Dev.isRunning s' = Dev.isRunning s /\
    Dev.connectLbl s' = "DISCONNECTED" /\ Dev.connectBtn s' = "Connect" /\
    Dev.serportCBox_enabled s' = true /\ Dev.scanBtn_enabled s' = true /\
    Dev.baudCBox_enabled s' = true /\
    exists calls, Dev.sent (Dev.log s') = Dev.sent (Dev.log s) ++ calls /\
      (calls = [] \/ calls = [("closeConnection", [])]).
Proof.
  intros Hs. unfold Dev.connect.
  assert (Hcond : negb (Dev.connected s) && negb (Dev.serportCBox s =? "")%string = false).
  { destruct Hs as [->| ->]; [reflexivity|]. now rewrite andb_false_r. }
  rewrite Hcond.
  assert (Hclose : exists calls,
            Dev.isRunning (fst (Dev.method "closeConnection" [] s)) = Dev.isRunning s /\
            Dev.sent (Dev.log (fst (Dev.method "closeConnection" [] s))) =
              Dev.sent (Dev.log s) ++ calls /\
            (calls = [] \/ calls = [("closeConnection", [])])).
  { unfold Dev.method, Dev.getattr.
    destruct (attribute H "closeConnection") as [[|ty]|];
      unfold mbind, Dev.D_bind, mret, Dev.D_ret, Dev.fail, Dev.call.
    - destruct (invoke "closeConnection" [] [] (Dev.CONNECTION s)) as [h' o].
      exists [("closeConnection", [])]. cbn -[Dev.sent]. rewrite sent_app. auto.
    - exists []. cbn -[Dev.sent]. rewrite app_nil_r. auto.
    - exists []. cbn -[Dev.sent]. rewrite app_nil_r. auto. }
  destruct Hclose as (calls & R & L & Hcalls).
  eexists. split; [reflexivity|].
  cbn -[Dev.sent Dev.method]. repeat split; [exact R|].
  exists calls. rewrite sent_app, L. cbn [Dev.sent omap]. rewrite app_nil_r. auto.
Qed.

(** X26. connect leaves the window connected only if it was disconnected
    with a port selected and openConnection returned: then baudrate and port
    were assigned in this order and openConnection was called, nothing else
    was sent, connect did not fail, and the label reads CONNECTED. *)
Theorem connected_only_after_open (s s' : Dev.ChemyxPumpGUI H) (r : Dev.result unit) :
  Dev.connect s = (s', r) -> Dev.connected s' = true ->
  Dev.connected s = false /\ Dev.serportCBox s <> "" /\ r = Dev.Done tt /\
  Dev.connectLbl s' = "CONNECTED" /\
  Dev.sent (Dev.log s') =
    Dev.sent (Dev.log s)
      ++ [("__setattr__", [PyStr "baudrate"; PyStr (Dev.baudCBox s)]);
          ("__setattr__", [PyStr "port"; PyStr (Dev.serportCBox s)]);
          ("openConnection", [])] /\
  exists h v, invoke "openConnection" [] [] h = (Dev.CONNECTION s', Returned v).
Proof.
  unfold Dev.connect.
  destruct (negb (Dev.connected s) && negb (Dev.serportCBox s =? "")%string) eqn:Hcond.
  2:{ intros E. injection E as <- _. cbn. discriminate. }
  apply andb_prop in Hcond as [Hc Hp].
  apply negb_true_iff in Hc. apply negb_true_iff in Hp. apply String.eqb_neq in Hp.
  unfold Dev.assign, Dev.method, Dev.getattr.
  unfold mbind, Dev.D_bind, mret, Dev.D_ret, Dev.call.
  destruct (invoke "__setattr__" [PyStr "baudrate"; PyStr (Dev.baudCBox s)] []
              (Dev.CONNECTION s)) as [h1 [v1|e1]] eqn:I1; cbn -[Dev.sent].
  2:{ destruct (exn_type e1); intros E; injection E as <- _; cbn; congruence. }
  destruct (invoke "__setattr__" [PyStr "port"; PyStr (Dev.serportCBox s)] [] h1)
    as [h2 [v2|e2]] eqn:I2; cbn -[Dev.sent].
  2:{ destruct (exn_type e2); intros E; injection E as <- _; cbn; congruence. }
  destruct (attribute H "openConnection") as [[|ty]|]; cbn -[Dev.sent].
  2,3: intros E; injection E as <- _; cbn; congruence.
  destruct (invoke "openConnection" [] [] h2) as [h3 [v3|e3]] eqn:I3; cbn -[Dev.sent].
  2:{ destruct (exn_type e3); intros E; injection E as <- _; cbn; congruence. }
  intros E. injection E as <- <-. cbn -[Dev.sent]. intros _.
  repeat split; auto.
  - rewrite !sent_app. cbn. now rewrite app_nil_r, <- !app_assoc.
  - eauto.
Qed.

End DevSend.

(** ** The cache at work in a run *)

Section CacheInRun.
Context {H : Type} `{Connection H}.

Lemma make_cache_key_kept (name other : string) args kw (c : CachedConnection H)
    (names : list string) :
  keep_pump H names -> other ∈ names ->
  _make_cache_key {| connection := fst (invoke other args kw (connection c));
                     cache := cache c |} name
  = _make_cache_key c name.
Proof.
  intros Hk Hin. unfold _make_cache_key. cbn [connection].
  destruct (Hk other args kw (connection c) Hin) as [-> ->]. reflexivity.
Qed.

Lemma make_cache_key_same (c1 c2 : CachedConnection H) (name : string) :
  multipump (connection c1) = multipump (connection c2) ->
  currentPump (connection c1) = currentPump (connection c2) ->
  _make_cache_key c1 name = _make_cache_key c2 name.
Proof. unfold _make_cache_key. now intros -> ->. Qed.

Lemma make_cache_key_ne (c1 c2 : CachedConnection H) (name1 name2 : string) :
  name1 ∈ cacheable_methods -> name2 ∈ cacheable_methods -> name1 <> name2 ->
  _make_cache_key c1 name1 <> _make_cache_key c2 name2.
Proof.
  intros H1 H2 Hne E. apply (make_cache_key_inj _ _ _ _ H1 H2) in E. tauto.
Qed.

(** X27. Right after a successful _initialize_pump_state, a pump operation
    finds the units and the diameter in the cache and does not send them
    again, sends setMode (1 for a negative volume, else 0) to the hardware,
    and then stops with the NameError on actual_volume before setVolume is
    entered (the setters return and leave the pump selection alone; the
    diameter is equal to itself). *)
Theorem pump_step_after_initialisation (cfg : Config) (volume : number) (rate : float)
    (wait_for_completion : bool) (w w1 : world H) :
  exposes H ["setUnits"; "setDiameter"; "setMode"; "setVolume"] ->
  always_return H setters -> keep_pump H setters ->
  py_eq (to_pyval (diameter cfg)) (to_pyval (diameter cfg)) = true ->
  _initialize_pump_state cfg w = (w1, Returned tt) ->
  exists w2,
    _execute_pump_operation cfg volume rate wait_for_completion w1 =
      (w2, Raised (Exn NameError "name 'actual_volume' is not defined")) /\
    trace w2 =
      trace w1 ++
        [CacheHit "setUnits" [PyStr "mL/min"];
         CacheHit "setDiameter" [to_pyval (diameter cfg)];
         CacheMiss "setMode" [PyInt (if lt_zero volume then 1 else 0)];
         HardwareCall "setMode" [PyInt (if lt_zero volume then 1 else 0)] []].
Proof.
  intros Hexp Hret Hkeep Hdiam Hinit.
  assert (Hu : attribute H "setUnits" = Some Method) by (apply Hexp; set_solver).
  assert (Hd : attribute H "setDiameter" = Some Method) by (apply Hexp; set_solver).
  assert (Hm : attribute H "setMode" = Some Method) by (apply Hexp; set_solver).
  assert (Hv : attribute H "setVolume" = Some Method) by (apply Hexp; set_solver).
  assert (Cu : "setUnits" ∈ cacheable_methods) by in_set.
  assert (Cd : "setDiameter" ∈ cacheable_methods) by in_set.
  assert (Cm : "setMode" ∈ cacheable_methods) by in_set.
  assert (Cv : "setVolume" ∈ cacheable_methods) by in_set.
  assert (Su : "setUnits" ∈ setters) by (unfold setters; set_solver).
  assert (Sd : "setDiameter" ∈ setters) by (unfold setters; set_solver).
  assert (Sm : "setMode" ∈ setters) by (unfold setters; set_solver).
  set (pu := _make_param_value [PyStr "mL/min"] []).
  set (pd := _make_param_value [to_pyval (diameter cfg)] []).
  (* the state the initialisation leaves *)
  assert (Hw1 : exists h1 h2 : H,
            let c0 := {| connection := connection (conn w); cache := ∅ |} in
            let c1 := {| connection := h1; cache := {[ _make_cache_key c0 "setUnits" := pu ]} |} in
            multipump h1 = multipump (connection (conn w)) /\
            currentPump h1 = currentPump (connection (conn w)) /\
            multipump h2 = multipump h1 /\ currentPump h2 = currentPump h1 /\
            conn w1 = {| connection := h2;
                         cache := <[_make_cache_key c1 "setDiameter" := pd]>
                                    {[ _make_cache_key c0 "setUnits" := pu ]} |}).
  { revert Hinit. unfold _initialize_pump_state, call_method.
    change (hasattr H "reset_cache") with true. cbv iota.
    rewrite !attr_call_cacheable by assumption.
    unfold mbind at 1, M_bind at 1. unfold reset_cache at 1.
    unfold mbind at 1, M_bind at 1.
    rewrite cached_method_miss by (cbn; now rewrite lookup_empty).
    cbn [conn connection cache trace].
    destruct (Hkeep "setUnits" [PyStr "mL/min"] [] (connection (conn w)) Su) as [M1 P1].
    destruct (invoke "setUnits" [PyStr "mL/min"] [] (connection (conn w)))
      as [h1 [v1|e1]]; [|discriminate].
    cbn [fst] in M1, P1.
    unfold mbind at 1, M_bind at 1.
    rewrite cached_method_miss.
    2:{ cbn [conn connection cache].
        rewrite lookup_insert_ne, lookup_empty; [reflexivity|].
        apply make_cache_key_ne; auto; discriminate. }
    cbn [conn connection cache trace].
    destruct (Hkeep "setDiameter" [to_pyval (diameter cfg)] [] h1 Sd) as [M2 P2].
    destruct (invoke "setDiameter" [to_pyval (diameter cfg)] [] h1)
      as [h2 [v2|e2]]; [|discriminate].
    cbn [fst] in M2, P2.
    intros E. injection E as <-. exists h1, h2. cbn. auto. }
  destruct Hw1 as (h1 & h2 & M1 & P1 & M2 & P2 & Hconn). cbn zeta in Hconn.
  set (c0 := {| connection := connection (conn w); cache := ∅ |}) in *.
  set (c1 := {| connection := h1; cache := {[ _make_cache_key c0 "setUnits" := pu ]} |}) in *.
  assert (Ku : _make_cache_key (conn w1) "setUnits" = _make_cache_key c0 "setUnits").
  { apply make_cache_key_same; rewrite Hconn; cbn; congruence. }
  assert (Kd : _make_cache_key (conn w1) "setDiameter" = _make_cache_key c1 "setDiameter").
  { apply make_cache_key_same; rewrite Hconn; cbn; congruence. }
  (* setUnits and setDiameter are cache hits *)
  assert (E1 : call_method "setUnits" [PyStr "mL/min"] w1 =
                 ({| conn := conn w1;
                     trace := trace w1 ++ [CacheHit "setUnits" [PyStr "mL/min"]] |},
                  Returned PyNone)).
  { unfold call_method. rewrite attr_call_cacheable by assumption.
    apply cached_method_hit with pu; [|reflexivity].
    rewrite Ku, Hconn. cbn [cache].
    rewrite lookup_insert_ne by (apply not_eq_sym, make_cache_key_ne; auto; discriminate).
    apply lookup_singleton_eq. }
  set (w2 := {| conn := conn w1;
                trace := trace w1 ++ [CacheHit "setUnits" [PyStr "mL/min"]] |}) in *.
  assert (E2 : call_method "setDiameter" [to_pyval (diameter cfg)] w2 =
                 ({| conn := conn w2;
                     trace := trace w2 ++ [CacheHit "setDiameter" [to_pyval (diameter cfg)]] |},
                  Returned PyNone)).
  { unfold call_method. rewrite attr_call_cacheable by assumption.
    apply cached_method_hit with pd.
    - change (conn w2) with (conn w1). rewrite Kd, Hconn. cbn [cache].
      apply lookup_insert_eq.
    - unfold pd, _make_param_value. rewrite py_eq_tuple. cbn [all_eq].
      rewrite !py_eq_tuple. cbn [map all_eq sorted foldr].
      replace (make_hashable (to_pyval (diameter cfg))) with (to_pyval (diameter cfg))
        by now destruct (diameter cfg).
      now rewrite Hdiam. }
  set (w3 := {| conn := conn w2;
                trace := trace w2 ++ [CacheHit "setDiameter" [to_pyval (diameter cfg)]] |}) in *.
  (* setMode is not cached yet *)
  set (m := PyInt (if lt_zero volume then 1 else 0)).
  destruct (Hret "setMode" [m] [] (connection (conn w3))) as (h3 & v3 & I3); [exact Sm|].
  assert (E3 : call_method "setMode" [m] w3 =
                 ({| conn := {| connection := h3;
                                cache := <[_make_cache_key (conn w3) "setMode" :=
                                             _make_param_value [m] []]> (cache (conn w3)) |};
                     trace := trace w3 ++ [CacheMiss "setMode" [m];
                                           HardwareCall "setMode" [m] []] |},
                  Returned v3)).
  { unfold call_method. rewrite attr_call_cacheable by assumption.
    rewrite cached_method_miss.
    - now rewrite I3.
    - change (conn w3) with (conn w1).
      assert (N1 : _make_cache_key c1 "setDiameter" <> _make_cache_key (conn w1) "setMode")
        by (apply make_cache_key_ne; auto; discriminate).
      assert (N2 : _make_cache_key c0 "setUnits" <> _make_cache_key (conn w1) "setMode")
        by (apply make_cache_key_ne; auto; discriminate).
      revert N1 N2. generalize (_make_cache_key (conn w1) "setMode"). intros k N1 N2.
      rewrite Hconn. cbn [cache].
      rewrite lookup_insert_ne by exact N1.
      now rewrite lookup_singleton_ne by exact N2. }
  match type of E3 with _ = (?x, _) => set (w4 := x) in * end.
  exists w4. split.
  - unfold _execute_pump_operation.
    rewrite (bind_returned _ _ _ _ _ E1), (bind_returned _ _ _ _ _ E2).
    assert (E3' : (if lt_zero volume then call_method "setMode" [PyInt 1]
                   else call_method "setMode" [PyInt 0]) w3 = (w4, Returned v3)).
    { unfold m in E3. destruct (lt_zero volume); exact E3. }
    rewrite (bind_returned _ _ _ _ _ E3').
    unfold __getattr__. rewrite Hv, bool_decide_true by exact Cv. reflexivity.
  - cbn. rewrite <- !app_assoc. reflexivity.
Qed.

End CacheInRun.

(** ** The further properties on examples *)

Lemma sim_exposes_all (names : list string) :
  bool_decide (names ⊆ vendor_methods) = true -> exposes sim_pump names.
Proof.
  intros Hsub. apply bool_decide_eq_true in Hsub.
  apply sim_exposes. intros name Hin. now apply Hsub.
Qed.

Lemma sim_always_return (names : list string) : always_return sim_pump names.
Proof.
  intros name args kw h _. cbn. unfold sim_invoke.
  repeat case_match; eauto.
Qed.

Lemma sim_keep_pump : keep_pump sim_pump setters.
Proof.
  intros name args kw h Hin. unfold setters in Hin.
  repeat (apply elem_of_cons in Hin as [->|Hin]; [now cbn|]).
  now apply elem_of_nil in Hin.
Qed.

Lemma cache_key_injective_witness :
  _make_cache_key {| connection := sim_multi; cache := ∅ |} "setRate" <>
  _make_cache_key {| connection := {| sim_multipump := true; sim_currentPump := Some 2 |};
                     cache := ∅ |} "setRate".
Proof.
  intros E.
  assert (Hin : "setRate" ∈ cacheable_methods) by in_set.
  apply (proj1 (cache_key_injective _ _ "setRate" "setRate" Hin Hin)) in E.
  destruct E as [_ E]. discriminate E.
Defined.

Lemma failed_call_is_sent_again_witness :
  let w := connected dead in
  let w1 := fst (attr_call "setRate" [PyFloat 5%float] [] w) in
  cache (conn w1) = cache (conn w) /\
  attr_call "setRate" [PyFloat 5%float] [] w1 =
    let '(h', r) := invoke "setRate" [PyFloat 5%float] [] (connection (conn w1)) in
    ({| conn := {| connection := h';
                   cache := match r with
                            | Returned _ =>
                                <[_make_cache_key (conn w1) "setRate" :=
                                    _make_param_value [PyFloat 5%float] []]>
                                  (cache (conn w1))
                            | Raised _ => cache (conn w1)
                            end |};
        trace := trace w1 ++ [CacheMiss "setRate" [PyFloat 5%float];
                              HardwareCall "setRate" [PyFloat 5%float] []] |}, r).
Proof.
  intros w w1.
  assert (Hin : "setRate" ∈ cacheable_methods) by in_set.
  assert (Hattr : attribute dead_pump "setRate" = Some Method) by (vm_compute; reflexivity).
  assert (Hfirst : attr_call "setRate" [PyFloat 5%float] [] w =
                     (w1, Raised (Exn VendorError "could not write to port")))
    by (vm_compute; reflexivity).
  assert (Hkey : _make_cache_key (conn w1) "setRate" = _make_cache_key (conn w) "setRate")
    by (vm_compute; reflexivity).
  exact (failed_call_is_sent_again "setRate" [PyFloat 5%float] [] w w1 _
           Hin Hattr Hfirst Hkey).
Defined.

(** A loop of two around a wait, run to its end. *)
Lemma run_leaves_cache_backed_witness :
  let ex := new_executor [start_loop 2; wait 0%float; end_loop]
              (connected sim_single) default_config in
  exists ex', execute_steps 20 no_calls ex = Some ex' /\ backed (shared ex').
Proof.
  intros ex. destruct (execute_steps 20 no_calls ex) as [ex'|] eqn:E.
  - exists ex'. split; [reflexivity|]. exact (run_leaves_cache_backed 20 no_calls ex ex' E).
  - vm_compute in E. discriminate E.
Defined.

Lemma announced_steps_exist_witness :
  let ex := new_executor [start_loop 2; wait 0%float; end_loop]
              (connected sim_single) default_config in
  exists ex', execute_steps 20 no_calls ex = Some ex' /\
    exists evs, trace (shared ex') = trace (shared ex) ++ evs /\
      Forall (fun i => (i < length (steps ex))%nat) (indices evs).
Proof.
  intros ex. destruct (execute_steps 20 no_calls ex) as [ex'|] eqn:E.
  - exists ex'. split; [reflexivity|]. exact (announced_steps_exist 20 no_calls ex ex' E).
  - vm_compute in E. discriminate E.
Defined.

(** A program with an [end_loop] and no [start_loop]. *)
Lemma straight_program_runs_once_witness :
  let ex := new_executor [wait 0%float; end_loop; wait 0%float]
              (connected sim_single) default_config in
  exists ex', execute_steps 20 no_calls ex = Some ex' /\
    exists evs k, trace (shared ex') = trace (shared ex) ++ evs /\
      indices evs = seq 0 k /\ (k <= length (steps ex))%nat.
Proof.
  intros ex.
  assert (Hs : straight (steps ex)).
  { right. repeat constructor; discriminate. }
  destruct (execute_steps 20 no_calls ex) as [ex'|] eqn:E.
  - exists ex'. split; [reflexivity|].
    exact (straight_program_runs_once 20 no_calls ex ex' Hs eq_refl E).
  - vm_compute in E. discriminate E.
Defined.

(** A stop while the inner of two loops is open. *)
Lemma loop_stack_stays_tidy_witness :
  let calls := fun n : nat => if (n =? 3)%nat then [call_stop] else [] in
  let ex := new_executor [start_loop 2; start_loop 2; wait 0%float; end_loop; end_loop]
              (connected sim_single) default_config in
  exists ex', execute_steps 20 calls ex = Some ex' /\
    tidy (steps ex) (current_step ex') (loop_stack ex') = true /\
    (length (loop_stack ex') <= loops_of (steps ex))%nat.
Proof.
  intros calls ex. destruct (execute_steps 20 calls ex) as [ex'|] eqn:E.
  - exists ex'. split; [reflexivity|].
    exact (loop_stack_stays_tidy 20 calls ex ex' eq_refl E).
  - vm_compute in E. discriminate E.
Defined.

(** A step with a function the executor does not know. *)
Lemma idle_steps_are_skipped_witness :
  let st := step "purge" [("volume", Float 1%float)] in
  let ex := new_executor [st] (connected sim_single) default_config in
  execute_single_step ex st = (ex, true) /\
  (running ex -> steps ex !! current_step ex = Some st ->
   iteration [] ex =
     inr (with_position (signal (step_changed (current_step ex)) ex)
            (current_step ex + 1)%nat (loop_stack ex))).
Proof.
  intros st ex.
  assert (Hidle : function st ∉ known_functions) by in_set.
  exact (idle_steps_are_skipped ex st (or_introl Hidle)).
Defined.

(** A pump that does not answer. *)
Lemma initialization_failure_ends_run_witness :
  let ex := new_executor [wait 0%float] (connected dead) default_config in
  exists ex',
    execute_steps 20 no_calls ex = Some ex' /\
    trace (shared ex') =
      trace (shared ex) ++
        [CacheReset; CacheMiss "setUnits" [PyStr "mL/min"];
         HardwareCall "setUnits" [PyStr "mL/min"] [];
         error_occurred (exn_str (Exn VendorError "could not write to port"));
         execution_finished] /\
    cache (conn (shared ex')) = ∅ /\
    current_step ex' = current_step ex /\ loop_stack ex' = loop_stack ex.
Proof.
  intros ex.
  assert (Hattr : attribute dead_pump "setUnits" = Some Method) by (vm_compute; reflexivity).
  assert (Hinv : invoke "setUnits" [PyStr "mL/min"] [] (connection (conn (shared ex))) =
                   (dead, Raised (Exn VendorError "could not write to port")))
    by (vm_compute; reflexivity).
  exact (initialization_failure_ends_run 20 no_calls ex dead _ Hattr Hinv).
Defined.

(** A paused executor in front of its only step. *)
Lemma paused_run_never_ends_witness :
  let ex := with_events (new_executor [wait 0%float] (connected sim_single) default_config)
              false true in
  run 50 no_calls 0 ex = None.
Proof.
  intros ex.
  assert (Hcalls : forall k : nat, (call_stop ∉ no_calls k) /\ (call_resume ∉ no_calls k)).
  { intros k. split; intros Hin; now apply elem_of_nil in Hin. }
  assert (Hlt : (current_step ex < length (steps ex))%nat) by (cbn; lia).
  exact (paused_run_never_ends no_calls ex Hcalls eq_refl eq_refl Hlt 50%nat 0%nat).
Defined.

(** A jog right after the initialisation of a run. *)
Lemma pump_step_after_initialisation_witness :
  let w := connected sim_single in
  let w1 := fst (_initialize_pump_state default_config w) in
  exists w2,
    _execute_pump_operation default_config (Int (-50)) 5%float false w1 =
      (w2, Raised (Exn NameError "name 'actual_volume' is not defined")) /\
    trace w2 =
      trace w1 ++
        [CacheHit "setUnits" [PyStr "mL/min"];
         CacheHit "setDiameter" [to_pyval (diameter default_config)];
         CacheMiss "setMode" [PyInt (if lt_zero (Int (-50)) then 1 else 0)];
         HardwareCall "setMode" [PyInt (if lt_zero (Int (-50)) then 1 else 0)] []].
Proof.
  intros w w1.
  assert (Hexp : exposes sim_pump ["setUnits"; "setDiameter"; "setMode"; "setVolume"])
    by (apply sim_exposes_all; vm_compute; reflexivity).
  assert (Hdiam : py_eq (to_pyval (diameter default_config))
                    (to_pyval (diameter default_config)) = true)
    by (vm_compute; reflexivity).
  assert (Hinit : _initialize_pump_state default_config w = (w1, Returned tt))
    by (vm_compute; reflexivity).
  exact (pump_step_after_initialisation default_config (Int (-50)) 5%float false w w1
           Hexp (sim_always_return setters) sim_keep_pump Hdiam Hinit).
Defined.

(** The window with two waits loaded. *)
Lemma table_has_a_row_per_step_witness :
  let g := window_of [wait 1%float; wait 2%float] in
  (forall function dialog, GUI.in_step (GUI.add_step function dialog g)) /\
  (forall row g', GUI.remove_step row g = Some g' -> GUI.in_step g') /\
  (forall row dialog g', GUI.edit_step row dialog g = Some g' -> GUI.in_step g') /\
  (forall row g', GUI.move_step_up row g = Some g' -> GUI.in_step g') /\
  (forall row g', GUI.move_step_down row g = Some g' -> GUI.in_step g') /\
  (forall i g', GUI.highlight_current_step i g = Some g' -> GUI.in_step g') /\
  (forall g', GUI.execution_finished g = Some g' -> GUI.in_step g').
Proof.
  intros g.
  assert (Hg : GUI.in_step g) by reflexivity.
  exact (table_has_a_row_per_step g Hg).
Defined.

(** A loop rewinds from the third step to the second. *)
Lemma delivery_only_adds_marks_witness :
  let g := window_of [start_loop 2; wait 1%float; end_loop] in
  let g' := default g (GUI.deliver [0; 1; 2; 1]%nat g) in
  GUI.steps g' = GUI.steps g /\ GUI.in_step g' /\
  GUI.completed_steps g ⊆ GUI.completed_steps g' /\
  (forall i, i ∈ GUI.completed_steps g' ->
     i ∈ GUI.completed_steps g \/ i = GUI.current_step_index g \/
     exists n, n ∈ [0; 1; 2; 1]%nat /\ i = Z.of_nat n) /\
  (GUI.execution_status_label g <> GUI.ExecutionComplete ->
   GUI.execution_status_label g' <> GUI.ExecutionComplete).
Proof.
  intros g g'.
  assert (Hg : GUI.in_step g) by reflexivity.
  assert (Hall : Forall (fun i => (i < length (GUI.steps g))%nat) [0; 1; 2; 1]%nat)
    by (repeat constructor).
  assert (Hd : GUI.deliver [0; 1; 2; 1]%nat g = Some g') by (vm_compute; reflexivity).
  exact (delivery_only_adds_marks [0; 1; 2; 1]%nat g g' Hg Hall Hd).
Defined.

(** Three waits, the third one running. *)
Lemma straight_run_marks_steps_before_witness :
  let g := window_of [wait 1%float; wait 2%float; wait 3%float] in
  let g' := default g (GUI.deliver (seq 0 3) g) in
  GUI.current_step_index g' = Z.of_nat 2 /\
  GUI.completed_steps g' = GUI.range 2 /\
  forall j r, GUI.steps_table g' !! j = Some r ->
    GUI.background r = if (j <? 2)%nat then GUI.completed_green
                       else GUI.table_background.
Proof.
  intros g g'.
  assert (Hg : GUI.in_step g) by reflexivity.
  assert (Hidx : GUI.current_step_index g < 0) by (cbn; lia).
  assert (Hnone : GUI.completed_steps g = ∅) by reflexivity.
  assert (Hk : (2 < length (GUI.steps g))%nat) by (cbn; lia).
  assert (Hd : GUI.deliver (seq 0 3) g = Some g') by (vm_compute; reflexivity).
  exact (straight_run_marks_steps_before 2 g g' Hg Hidx Hnone Hk Hd).
Defined.

(** A loop of two around a wait, and the window that shows its run. *)
Lemma run_ends_with_display_reset_witness :
  let program := [start_loop 2; wait 0%float; end_loop] in
  let ex := new_executor program (connected sim_single) default_config in
  let ex' := default ex (execute_steps 20 no_calls ex) in
  let g := window_of program in
  let g1 := default g (GUI.deliver (indices (trace (shared ex'))) g) in
  GUI.execution_status_label g1 <> GUI.ExecutionComplete /\
  exists g2, GUI.execution_finished g1 = Some g2 /\
    GUI.execution_status_label g2 = GUI.Ready /\
    GUI.progress_value g2 = 0 /\
    GUI.current_step_index g2 = -1 /\
    GUI.completed_steps g2 = ∅ /\
    GUI.is_running g2 = false /\ GUI.is_paused g2 = false /\
    GUI.steps g2 = steps ex.
Proof.
  intros program ex ex' g g1.
  assert (Hx : execute_steps 20 no_calls ex = Some ex') by (vm_compute; reflexivity).
  assert (Ht : trace (shared ex') = trace (shared ex) ++ trace (shared ex')) by reflexivity.
  assert (Hs : GUI.steps g = steps ex) by reflexivity.
  assert (Hg : GUI.in_step g) by reflexivity.
  assert (Hl : GUI.execution_status_label g <> GUI.ExecutionComplete) by discriminate.
  assert (Hd : GUI.deliver (indices (trace (shared ex'))) g = Some g1)
    by (vm_compute; reflexivity).
  exact (run_ends_with_display_reset 20 no_calls ex ex' (trace (shared ex')) g g1
           Hx Ht Hs Hg Hl Hd).
Defined.

(** Three presses of the pause button on a window that is not running. *)
Lemma pause_repeats_one_command_witness :
  let s := dev_window true "0" in
  let s' := Nat.iter 3 (fun s => fst (Dev.pause s)) s in
  Dev.connected s' = true /\ Dev.isRunning s' = Dev.isRunning s /\
  Dev.sent (Dev.log s') =
    Dev.sent (Dev.log s)
      ++ replicate 3 (if Dev.isRunning s then "pausePump" else "startPump", []) /\
  ((0 < 3)%nat -> Dev.pauseBtn s' = if Dev.isRunning s then "Unpause" else "Pause").
Proof.
  intros s.
  assert (Hexp : exposes sim_pump ["pausePump"; "startPump"])
    by (apply sim_exposes_all; vm_compute; reflexivity).
  exact (pause_repeats_one_command 3 s Hexp (sim_always_return _) eq_refl).
Defined.

(** A start with the delay left empty. *)
Lemma start_only_after_validation_witness :
  let s := dev_window true "" in
  let s' := fst (Dev.start decimal_float s) in
  let r := snd (Dev.start decimal_float s) in
  exists calls, Dev.sent (Dev.log s') = Dev.sent (Dev.log s) ++ calls /\
    (forall args, ("startPump", args) ∈ calls ->
       Dev.connected s = true /\
       exists s1,
         Dev.sendFromGUI decimal_float
           (fst (Dev.note (Dev.Info "Sending Pump Variables from GUI") s))
         = (s1, Dev.Done tt)) /\
    (r <> Dev.Done tt ->
       Dev.isRunning s' = Dev.isRunning s /\ Dev.pauseBtn s' = Dev.pauseBtn s).
Proof.
  intros s s' r.
  assert (E : Dev.start decimal_float s = (s', r)) by (vm_compute; reflexivity).
  exact (start_only_after_validation decimal_float s s' r E).
Defined.

Lemma empty_field_stops_sending_witness :
  let s := dev_window true "" in
  exists s',
    Dev.sendFromGUI decimal_float s =
      (s', Dev.Failed (Dev.AssertionError
                         "ERROR: Must enter all pump variables before starting run.")) /\
    Dev.sent (Dev.log s') =
      Dev.sent (Dev.log s)
        ++ zip (take 4 Dev.setter_names)
               ((fun t => [PyStr t]) <$> take 4 (Dev.widget_texts s)).
Proof.
  intros s.
  assert (Hexp : exposes sim_pump Dev.setter_names)
    by (apply sim_exposes_all; vm_compute; reflexivity).
  assert (Hk : Dev.widget_texts s !! 4%nat = Some "") by reflexivity.
  assert (Hne : Forall (fun t => t <> "") (take 4 (Dev.widget_texts s)))
    by (repeat constructor; discriminate).
  exact (empty_field_stops_sending decimal_float 4 s Hexp (sim_always_return _) Hk Hne).
Defined.

Lemma values_are_sent_before_they_are_checked_witness :
  let s := dev_window true "0" in
  exists s1 s' r,
    Dev.send Dev.setter_names (replicate 5 Method) (Dev.widget_texts s) s =
      (s1, Dev.Done (Dev.widget_texts s)) /\
    Dev.sendFromGUI decimal_float s = (s', r) /\
    Dev.sent (Dev.log s') =
      Dev.sent (Dev.log s)
        ++ zip Dev.setter_names ((fun t => [PyStr t]) <$> Dev.widget_texts s)
        ++ [("getParameters", [])] /\
    (r = Dev.Done tt <->
     exists readout params,
       snd (invoke "getParameters" [] [] (Dev.CONNECTION s1)) = Returned readout /\
       Dev.read_params readout [1; 2; 6; 3; 7]%nat = Dev.Done params /\
       Dev.validate decimal_float (tail Dev.names) (tail params)
         (tail (Dev.widget_texts s)) = Dev.Done tt).
Proof.
  intros s.
  assert (Hexp : exposes sim_pump (Dev.setter_names ++ ["getParameters"]))
    by (apply sim_exposes_all; vm_compute; reflexivity).
  assert (Hne : Forall (fun t => t <> "") (Dev.widget_texts s))
    by (repeat constructor; discriminate).
  exact (values_are_sent_before_they_are_checked decimal_float s Hexp
           (sim_always_return _) Hne).
Defined.

Lemma connect_drops_the_link_witness :
  let s := dev_window true "0" in
  exists s', Dev.connect s = (s', Dev.Done tt) /\
    Dev.connected s' = false /\ Dev.isRunning s' = Dev.isRunning s /\
    Dev.connectLbl s' = "DISCONNECTED" /\ Dev.connectBtn s' = "Connect" /\
    Dev.serportCBox_enabled s' = true /\ Dev.scanBtn_enabled s' = true /\
    Dev.baudCBox_enabled s' = true /\
    exists calls, Dev.sent (Dev.log s') = Dev.sent (Dev.log s) ++ calls /\
      (calls = [] \/ calls = [("closeConnection", [])]).
Proof.
  intros s. exact (connect_drops_the_link s (or_introl eq_refl)).
Defined.

Lemma connected_only_after_open_witness :
  let s := dev_window false "0" in
  let s' := fst (Dev.connect s) in
  Dev.connected s = false /\ Dev.serportCBox s <> "" /\
  snd (Dev.connect s) = Dev.Done tt /\
  Dev.connectLbl s' = "CONNECTED" /\
  Dev.sent (Dev.log s') =
    Dev.sent (Dev.log s)
      ++ [("__setattr__", [PyStr "baudrate"; PyStr (Dev.baudCBox s)]);
          ("__setattr__", [PyStr "port"; PyStr (Dev.serportCBox s)]);
          ("openConnection", [])] /\
  exists h v, invoke "openConnection" [] [] h = (Dev.CONNECTION s', Returned v).
Proof.
  intros s s'.
  assert (E : Dev.connect s = (s', snd (Dev.connect s))) by (vm_compute; reflexivity).
  assert (Hc : Dev.connected s' = true) by (vm_compute; reflexivity).
  exact (connected_only_after_open s s' _ E Hc).
Defined.

(** ** Program files *)

Lemma members_dict_map_to_list {A} (m : gmap string A) :
  members_dict (map_to_list m) = m.
Proof.
  unfold members_dict. rewrite <- (list_to_map_to_list m) at 2.
  symmetry. apply list_to_map_proper.
  - apply NoDup_fst_map_to_list.
  - symmetry. apply reverse_Permutation.
Qed.

Lemma as_params_to_json (ps : gmap string number) :
  as_params (params_to_json ps) = Some ps.
Proof.
  unfold as_params, params_to_json.
  assert (E : mapM (fun m : string * json => pair (fst m) <$> as_number (snd m))
                ((fun kv : string * number => (fst kv, JNumber (snd kv))) <$> map_to_list ps)
              = Some (map_to_list ps)).
  { apply mapM_Some. apply Forall2_fmap_l, Forall_Forall2_diag, Forall_forall.
    intros [k n] _. reflexivity. }
  rewrite E. simpl. now rewrite members_dict_map_to_list.
Qed.

Lemma as_step_to_json (st : Step) : as_step (step_to_json st) = Some st.
Proof.
  unfold as_step, step_to_json.
  assert (Hd : members_dict [("function", JString (function st));
                             ("params", params_to_json (params st))]
               = <["params" := params_to_json (params st)]>
                   (<["function" := JString (function st)]> ∅)) by reflexivity.
  rewrite Hd. clear Hd.
  rewrite bool_decide_true.
  2:{ rewrite !dom_insert_L, dom_empty_L. set_solver. }
  rewrite (lookup_insert_ne _ "params" "function") by done. rewrite !lookup_insert_eq.
  cbn [mbind option_bind as_string]. rewrite as_params_to_json. cbn.
  now destruct st.
Qed.

(** A program read back from its value is the program. *)
Lemma as_program_to_json (program : list Step) : as_program (to_json program) = Some program.
Proof.
  unfold as_program, to_json. apply mapM_Some.
  apply Forall2_fmap_l, Forall_Forall2_diag, Forall_forall.
  intros st _. apply as_step_to_json.
Qed.

(** C9. Saving a program and then loading the saved file gives the program
    back, step by step in the same order: after [save_program] wrote the
    file, [load_program] of that file, whatever the window holds by then,
    leaves the window with the steps that were saved and a table row for
    each, and reports success. *)
Theorem save_then_load_program (file_path : string) (d d' : Desk) :
  file_path <> "" -> file_path ∉ denied d ->
  disk d' !! file_path = disk (save_program file_path d) !! file_path ->
  exists d'', load_program file_path d' = Some d'' /\
    GUI.steps (window d'') = GUI.steps (window d) /\
    GUI.in_step (window d'') /\
    last (boxes d'') = Some (information "Success" "Program loaded successfully!").
Proof.
  intros Hne Hok Hdisk. unfold load_program.
  apply String.eqb_neq in Hne. rewrite Hne.
  rewrite Hdisk. unfold save_program. rewrite Hne, bool_decide_false by exact Hok.
  cbn [show write disk]. rewrite lookup_insert_eq. cbn [json_load json_dump].
  rewrite as_program_to_json.
  eexists. split; [reflexivity|]. split; [reflexivity|]. split.
  - unfold GUI.in_step. cbn. now rewrite length_imap.
  - cbn. now rewrite last_snoc.
Qed.

(** C9 on an example: a loop of two around a wait, saved and loaded on a
    window that holds another program by then. *)
Lemma save_then_load_program_witness :
  let program := [start_loop 2; wait 0%float; end_loop] in
  let saved := save_program "program.json" (desk program) in
  let later := {| window := window_of [wait 1%float]; steps_path := steps_path saved;
                  disk := disk saved; denied := denied saved; boxes := boxes saved |} in
  exists d'', load_program "program.json" later = Some d'' /\
    GUI.steps (window d'') = program /\
    GUI.in_step (window d'') /\
    last (boxes d'') = Some (information "Success" "Program loaded successfully!").
Proof.
  intros program saved later.
  assert (Hne : "program.json" <> "") by discriminate.
  assert (Hok : "program.json" ∉ denied (desk program)) by apply not_elem_of_empty.
  exact (save_then_load_program "program.json" (desk program) later Hne Hok eq_refl).
Defined.
